(** * The statically allocated limit order book of ESL

    A shallow embedding of [esl::economics::markets::order_book::
    statically_allocated::book] (esl/economics/markets/order_book/book.hpp):
    the price codec ([default_encode], [default_decode]), the constructor,
    the best-quote queries ([bid], [ask]), [match_at_level], [insert] and
    [cancel], followed by the properties of the book's specification and by
    further properties of the code: its accounts of units and blocks, the
    prices of its executions, its cursors, and its faults.

    Conventions of the embedding.
    - A pointer into the block pool is the index of its block, [None] for
      [nullptr]; a pointer into [limits_] is the index of the level, an
      integer, since the cursors may step one past either end.
    - [double] is the kernel's binary64 ([PrimFloat]), so the codec is
      evaluated with the rounding the program has.
    - Reading through a null pointer, a freed block or an index outside
      [limits_] has no defined result: the operation ends in [Undefined]. *)

From Stdlib Require Import ZArith NArith Lia Floats Uint63.

From stdpp Require Import base option list.

Local Open Scope Z_scope.

(** ** Doubles *)

(** Conversion of an integer to [double]; exact below 2^53 in magnitude. *)
Definition float_of_Z (z : Z) : float :=
  if z <? 0 then PrimFloat.opp (PrimFloat.of_uint63 (Uint63.of_Z (- z)))
  else PrimFloat.of_uint63 (Uint63.of_Z z).

(** [static_cast] of a [double] to a 64-bit integer type: the fraction is
    discarded.  The cast of a NaN, of an infinity and of a value outside the
    range of the type is not defined in C++; the program as built for
    x86-64 yields the smallest value of [std::int64_t] there, and so does
    this function. *)
Definition Z_of_float (x : float) : Z :=
  match Prim2SF x with
  | S754_zero _ => 0
  | S754_finite s m e =>
      let a := if 0 <=? e then Z.shiftl (Z.pos m) e
               else Z.shiftr (Z.pos m) (- e) in
      let z := if s then - a else a in
      if (- 2 ^ 63 <=? z) && (z <? 2 ^ 63) then z else - 2 ^ 63
  | _ => - 2 ^ 63
  end.

(** ** Quotes and the valid interval *)

(** Modelled from the spec: [quote] (esl/economics/markets/quote.hpp is not
    part of the sources).  Section 3: a fixed-point value, an integer amount
    over an integer denominator, the lot; comparisons use the cross
    products. *)
Record quote : Type := Quote { amount : Z; lot : Z }.

Definition quote_ltb (p q : quote) : bool :=
  amount p * lot q <? amount q * lot p.

Definition quote_leb (p q : quote) : bool :=
  amount p * lot q <=? amount q * lot p.

(** [p > q] and [p >= q] of the program are [quote_ltb q p] and
    [quote_leb q p]. *)
Definition quote_gtb (p q : quote) : bool := quote_ltb q p.

Definition quote_geb (p q : quote) : bool := quote_leb q p.

(** Modelled from the spec: [double(q)], the value of the quote, amount
    over lot. *)
Definition to_double (q : quote) : float :=
  PrimFloat.div (float_of_Z (amount q)) (float_of_Z (lot q)).

(** Modelled from the spec: the constructor [quote(double, similar)].  The
    scenario of section 8 ([ask()] is 4.75 at the level of an order at 4.75)
    fixes it: the argument is the amount, the lot is the one of [similar]. *)
Definition quote_of_double (x : float) (similar : quote) : quote :=
  {| amount := Z_of_float x; lot := lot similar |}.

(** Modelled from the spec: [mathematics::interval<quote>], closed on both
    sides (section 3, valid price interval). *)
Record interval : Type := Interval { lower : quote; upper : quote }.

Definition contains (i : interval) (q : quote) : bool :=
  quote_leb (lower i) q && quote_leb q (upper i).

Definition empty (i : interval) : bool := quote_ltb (upper i) (lower i).

(** ** The price codec *)

Section Codec.

(** [valid_limits] and [limits_.size()] as the two functions read them. *)
Variable valid_limits : interval.

Variable size : Z.

Definition width : float :=
  PrimFloat.sub (to_double (upper valid_limits))
                (to_double (lower valid_limits)).

(** [bool default_encode(const quote &q, limit &out_limit)]: [None] is
    the result [false]. *)
Definition default_encode (q : quote) : option Z :=
  if quote_gtb (lower valid_limits) q || quote_ltb (upper valid_limits) q
  then None
  else Some (Z_of_float
               (PrimFloat.mul
                  (PrimFloat.div
                     (PrimFloat.sub (to_double q)
                                    (to_double (lower valid_limits)))
                     width)
                  (float_of_Z size))).

(** [quote default_decode(const limit &limit)]. *)
Definition default_decode (limit : Z) : quote :=
  let lot_ := float_of_Z (lot (lower valid_limits)) in
  let reverse :=
    PrimFloat.mul
      (PrimFloat.mul (PrimFloat.mul (float_of_Z limit) width) lot_) lot_ in
  let intercept_ :=
    PrimFloat.mul
      (PrimFloat.mul (to_double (lower valid_limits)) lot_) lot_ in
  quote_of_double
    (PrimFloat.div
       (PrimFloat.add (PrimFloat.div reverse (float_of_Z (size - 1)))
                      intercept_)
       lot_)
    (lower valid_limits).

End Codec.

(** The length of the ladder as the constructor computes it: [span_].  A
    value that is no size (a NaN, a negative value) gives a negative
    result, and a ladder without levels. *)
Definition span (minimum maximum : quote) : Z :=
  let ticks := lot minimum mod 2 ^ 32 in
  Z_of_float
    (PrimFloat.add
       (PrimFloat.mul
          (PrimFloat.mul
             (PrimFloat.sub (to_double maximum) (to_double minimum))
             (float_of_Z (lot minimum)))
          (float_of_Z ticks))
       (float_of_Z 1)).

(** ** Order messages and execution reports *)

(** Modelled from the spec: [identity<agent>], an opaque token that the
    book only copies. *)
Definition identity : Type := N.

(** Modelled from the spec: [limit_order_message] (order.hpp is not part of
    the sources); section 6 lists its members. *)
Module limit_order_message.

Inductive side_t : Type := buy | sell.

Inductive lifetime_t : Type :=
| good_until_cancelled
| immediate_or_cancel
| fill_or_kill.

Record t : Type := Make
  { side : side_t;
    limit : quote;
    quantity : N;
    lifetime : lifetime_t;
    owner : identity }.

End limit_order_message.

Module execution_report.

Inductive state_t : Type := invalid | cancel | match_ | placement.

(** [side] and [limit] are [None] where the initializer names neither
    (the report of [book::cancel]). *)
Record t : Type := Make
  { state : state_t;
    quantity : N;
    identifier : Z;
    side : option limit_order_message.side_t;
    limit : option quote;
    owner : identity }.

End execution_report.

(** [std::numeric_limits<std::uint64_t>::max()], the identifier of a report
    that names no resting order. *)
Definition no_identifier : Z := 2 ^ 64 - 1.

(** ** The block pool *)

(** Modelled from the spec: [computation::block_pool::static_block_pool]
    (block_pool.hpp is not part of the sources).  Section 4.1: a fixed number
    of slots, each free or holding one value; [emplace] takes a free slot and
    fails when there is none; [erase] frees a slot; no slot ever moves, so
    the index of a block stands for the pointer to it. *)
Module block_pool.

Abbreviation index := nat.

Section Pool.

Context {element : Type}.

(** The slots, free ([None]) or allocated. *)
Abbreviation static_block_pool := (list (option element)).

Definition create (capacity : nat) : static_block_pool :=
  replicate capacity None.

Fixpoint first_free (p : static_block_pool) : option index :=
  match p with
  | [] => None
  | None :: _ => Some 0%nat
  | Some _ :: p' => S <$> first_free p'
  end.

(** [pool_[i]] and the dereference of a block pointer. *)
Definition get (p : static_block_pool) (i : index) : option element :=
  mjoin (p !! i).

Definition emplace (p : static_block_pool) (e : element)
  : option (index * static_block_pool) :=
  match first_free p with
  | Some i => Some (i, <[i := Some e]> p)
  | None => None
  end.

Definition erase (p : static_block_pool) (i : index)
  : static_block_pool :=
  <[i := None]> p.

End Pool.

End block_pool.

(** ** The book *)

Abbreviation side_t := limit_order_message.side_t.

Abbreviation buy := limit_order_message.buy.

Abbreviation sell := limit_order_message.sell.

Abbreviation index := block_pool.index.

Record record : Type := Record_
  { quantity : N;
    owner : identity;
    successor : option index }.

(** [record_pointer], and [limit_type], the head and the tail of a level. *)
Abbreviation record_pointer := (option index).

Abbreviation limit_type := (record_pointer * record_pointer)%type.

Record book : Type := Book
  { pool_ : list (option record);
    limits_ : list limit_type;
    valid_limits : interval;
    best_bid_ : Z;
    best_ask_ : Z;
    ticks : Z;
    reports : list execution_report.t }.

Definition set_pool (b : book) (p : list (option record)) :=
  {| pool_ := p; limits_ := limits_ b; valid_limits := valid_limits b;
     best_bid_ := best_bid_ b; best_ask_ := best_ask_ b; ticks := ticks b;
     reports := reports b |}.

Definition set_limits (b : book) (l : list limit_type) :=
  {| pool_ := pool_ b; limits_ := l; valid_limits := valid_limits b;
     best_bid_ := best_bid_ b; best_ask_ := best_ask_ b; ticks := ticks b;
     reports := reports b |}.

Definition set_best_bid (b : book) (i : Z) :=
  {| pool_ := pool_ b; limits_ := limits_ b; valid_limits := valid_limits b;
     best_bid_ := i; best_ask_ := best_ask_ b; ticks := ticks b;
     reports := reports b |}.

Definition set_best_ask (b : book) (i : Z) :=
  {| pool_ := pool_ b; limits_ := limits_ b; valid_limits := valid_limits b;
     best_bid_ := best_bid_ b; best_ask_ := i; ticks := ticks b;
     reports := reports b |}.

(** [reports.emplace_back(r)]. *)
Definition emplace_back (b : book) (r : execution_report.t) :=
  {| pool_ := pool_ b; limits_ := limits_ b; valid_limits := valid_limits b;
     best_bid_ := best_bid_ b; best_ask_ := best_ask_ b; ticks := ticks b;
     reports := reports b ++ [r] |}.

(** [&limits_.back() - &limits_[0]]. *)
Definition back (l : list limit_type) : Z := Z.of_nat (length l) - 1.

(** The constructor [book(minimum, maximum)] with the capacity
    [max_orders_] of the pool; [None] when one of its assertions fails. *)
Definition new_book (max_orders_ : nat) (minimum maximum : quote)
  : option book :=
  let valid := Interval minimum maximum in
  if empty valid || negb (lot minimum =? lot maximum) then None
  else
    let limits := replicate (Z.to_nat (span minimum maximum)) (None, None) in
    Some {| pool_ := block_pool.create max_orders_;
            limits_ := limits;
            valid_limits := valid;
            best_bid_ := 0;
            best_ask_ := back limits;
            ticks := lot minimum mod 2 ^ 32;
            reports := [] |}.

(** ** Results of the operations *)

Inductive fault : Type :=
| null_pointer      (* a read through [nullptr] *)
| freed_block       (* a read or write of a block that is not allocated *)
| out_of_range      (* a level outside [limits_] *)
| assertion_failed  (* the [assert] of [insert] *)
| endless_loop.     (* a chain of successors that never ends *)

(** An operation returns, or leaves by the exception of the exhausted pool
    (with the book as it is then), or has no defined behaviour. *)
Inductive result (A : Type) : Type :=
| Returns (a : A)
| Throws (b : book)
| Undefined (f : fault).

Arguments Returns {A} a.

Arguments Throws {A} b.

Arguments Undefined {A} f.

Definition bind {A B : Type} (m : result A) (k : A -> result B) : result B :=
  match m with
  | Returns a => k a
  | Throws b => Throws b
  | Undefined f => Undefined f
  end.

Notation "'do' x <- m ; k" := (bind m (fun x => k))
  (at level 10, x name, m at level 100, k at level 200,
   format "'[v' 'do'  x  <-  m ; '/' k ']'").

Notation "'do' ' p <- m ; k" := (bind m (fun x => match x with p => k end))
  (at level 10, p pattern, m at level 100, k at level 200,
   format "'[v' 'do'  ' p  <-  m ; '/' k ']'").

(** [limits_[i]] through a level pointer. *)
Definition level_at (l : list limit_type) (i : Z) : result limit_type :=
  if 0 <=? i then
    match l !! Z.to_nat i with
    | Some lv => Returns lv
    | None => Undefined out_of_range
    end
  else Undefined out_of_range.

Definition set_level (l : list limit_type) (i : Z) (lv : limit_type)
  : list limit_type :=
  <[Z.to_nat i := lv]> l.

(** [p->data] through a block pointer. *)
Definition block_at (p : list (option record))
  (ptr : record_pointer) : result (index * record) :=
  match ptr with
  | None => Undefined null_pointer
  | Some h =>
      match block_pool.get p h with
      | Some r => Returns (h, r)
      | None => Undefined freed_block
      end
  end.

(** ** Matching *)

Section Engine.

(** The members [encode] and [decode], of type [std::function]; the
    constructor sets them to [default_encode] and [default_decode]. *)
Variable encode : quote -> option Z.

Variable decode : Z -> quote.

Definition has_value (ptr : record_pointer) : bool :=
  match ptr with Some _ => true | None => false end.

(** [std::optional<quote> bid() const]. *)
Definition bid (b : book) : result (option quote) :=
  do lv <- level_at (limits_ b) (best_bid_ b);
  if has_value (fst lv) then Returns (Some (decode (best_bid_ b)))
  else Returns None.

(** [std::optional<quote> ask() const]. *)
Definition ask (b : book) : result (option quote) :=
  do lv <- level_at (limits_ b) (best_ask_ b);
  if has_value (fst lv) then Returns (Some (decode (best_ask_ b)))
  else Returns None.

(** [for(; best_ask_ <= &limits_.back(); ++best_ask_)] with its [break];
    [n] counts the levels from [a] to the last one. *)
Fixpoint advance_ask (n : nat) (l : list limit_type) (a : Z) : result Z :=
  match n with
  | O => Returns a
  | S n' =>
      do lv <- level_at l a;
      if has_value (fst lv) || (a =? back l) then Returns a
      else advance_ask n' l (a + 1)
  end.

(** [for(; best_bid_ >= &limits_[0]; --best_bid_)] with its [break]; [n]
    counts the levels from [a] down to the first one. *)
Fixpoint advance_bid (n : nat) (l : list limit_type) (a : Z) : result Z :=
  match n with
  | O => Returns a
  | S n' =>
      do lv <- level_at l a;
      if has_value (fst lv) || (a =? 0) then Returns a
      else advance_bid n' l (a - 1)
  end.

Definition opposite (s : side_t) : side_t :=
  match s with sell => buy | buy => sell end.

(** The execution report for the aggressor. *)
Definition aggressor_report (order : limit_order_message.t)
  (execution_size_ : N) (quote_ : quote) : execution_report.t :=
  {| execution_report.state := execution_report.match_;
     execution_report.quantity := execution_size_;
     execution_report.identifier := no_identifier;
     execution_report.side := Some (limit_order_message.side order);
     execution_report.limit := Some quote_;
     execution_report.owner := limit_order_message.owner order |}.

(** The execution report for the supplier, the resting order in block
    [h]. *)
Definition supplier_report (order : limit_order_message.t)
  (execution_size_ : N) (quote_ : quote) (h : index) (supplier : identity)
  : execution_report.t :=
  {| execution_report.state := execution_report.match_;
     execution_report.quantity := execution_size_;
     execution_report.identifier := Z.of_nat h;
     execution_report.side :=
       Some (opposite (limit_order_message.side order));
     execution_report.limit := Some quote_;
     execution_report.owner := supplier |}.

(** One pass of the loop of [match_at_level], at the block [ao]; [next]
    stands for the passes that follow. *)
Definition match_pass
  (next : record_pointer -> N -> book -> result (book * N))
  (order : limit_order_message.t) (level : Z) (ao : record_pointer)
  (remainder_ : N) (b : book) : result (book * N) :=
  if (remainder_ =? 0)%N then Returns (b, remainder_)
  else
    do '(h, r) <- block_at (pool_ b) ao;
    do lv <- level_at (limits_ b) level;
    let '(execution_size_, remainder', quantity', lv') :=
      if (remainder_ <? quantity r)%N
      then (remainder_, 0%N, (quantity r - remainder_)%N, lv)
      else (quantity r, (remainder_ - quantity r)%N, 0%N,
            (successor r, snd lv)) in
    let r' := {| quantity := quantity'; owner := owner r;
                 successor := successor r |} in
    let b1 :=
      set_limits (set_pool b (<[h := Some r']> (pool_ b)))
                 (set_level (limits_ b) level lv') in
    let quote_ := decode level in
    let b2 :=
      emplace_back
        (emplace_back b1 (aggressor_report order execution_size_ quote_))
        (supplier_report order execution_size_ quote_ h (owner r')) in
    match successor r' with
    | Some _ => next (successor r') remainder' b2
    | None =>
        if (quantity' =? 0)%N then
          let b3 :=
            set_limits b2 (set_level (limits_ b2) level (None, None)) in
          match limit_order_message.side order with
          | buy =>
              do a <- advance_ask
                        (Z.to_nat (back (limits_ b3) - best_ask_ b3))
                        (limits_ b3) (best_ask_ b3 + 1);
              Returns (set_best_ask b3 a, remainder')
          | sell =>
              do a <- advance_bid (Z.to_nat (best_bid_ b3))
                        (limits_ b3) (best_bid_ b3 - 1);
              Returns (set_best_bid b3 a, remainder')
          end
        else Returns (b2, remainder')
    end.

(** The loop of [match_at_level] from the block [ao] on: one pass, and at
    most [fuel] passes after it. *)
Fixpoint match_loop (fuel : nat) (order : limit_order_message.t)
  (level : Z) (ao : record_pointer) (remainder_ : N) (b : book)
  : result (book * N) :=
  match fuel with
  | O =>
      match_pass (fun _ _ _ => Undefined endless_loop)
                 order level ao remainder_ b
  | S fuel' =>
      match_pass (match_loop fuel' order level) order level ao remainder_ b
  end.

(** [uint32_t match_at_level(order, remainder_, level)]: the loop starts
    at [level->first].  A run that ends visits no block twice, so the size
    of the pool is fuel enough. *)
Definition match_at_level (order : limit_order_message.t) (remainder_ : N)
  (level : Z) (b : book) : result (book * N) :=
  do lv <- level_at (limits_ b) level;
  match_loop (length (pool_ b)) order level (fst lv) remainder_ b.

(** The loop of the buyer aggressor, [for(al = best_ask_; al <=
    limit_level_ && 0 < remainder_; ++al)]; [n] counts the levels from [al]
    to [limit_level_]. *)
Fixpoint buyer_aggressor (n : nat) (order : limit_order_message.t)
  (al : Z) (remainder_ : N) (b : book) : result (book * N) :=
  match n with
  | O => Returns (b, remainder_)
  | S n' =>
      if (remainder_ =? 0)%N then Returns (b, remainder_)
      else
        do lv <- level_at (limits_ b) al;
        if has_value (fst lv) then
          do '(b', remainder') <- match_at_level order remainder_ al b;
          buyer_aggressor n' order (al + 1) remainder' b'
        else buyer_aggressor n' order (al + 1) remainder_ b
  end.

(** The loop of the seller aggressor, [for(bl = best_bid_; bl >=
    limit_level_ && 0 < remainder_; --bl)]. *)
Fixpoint seller_aggressor (n : nat) (order : limit_order_message.t)
  (bl : Z) (remainder_ : N) (b : book) : result (book * N) :=
  match n with
  | O => Returns (b, remainder_)
  | S n' =>
      if (remainder_ =? 0)%N then Returns (b, remainder_)
      else
        do lv <- level_at (limits_ b) bl;
        if has_value (fst lv) then
          do '(b', remainder') <- match_at_level order remainder_ bl b;
          seller_aggressor n' order (bl - 1) remainder' b'
        else seller_aggressor n' order (bl - 1) remainder_ b
  end.

(** The report of an order as a whole: [invalid], [cancel] of what is
    left, or [placement]. *)
Definition order_report (state : execution_report.state_t)
  (order : limit_order_message.t) (quantity_ : N) (identifier_ : Z)
  : execution_report.t :=
  {| execution_report.state := state;
     execution_report.quantity := quantity_;
     execution_report.identifier := identifier_;
     execution_report.side := Some (limit_order_message.side order);
     execution_report.limit := Some (limit_order_message.limit order);
     execution_report.owner := limit_order_message.owner order |}.

Definition is_immediate_or_cancel (l : limit_order_message.lifetime_t)
  : bool :=
  match l with limit_order_message.immediate_or_cancel => true | _ => false end.

Definition is_fill_or_kill (l : limit_order_message.lifetime_t) : bool :=
  match l with limit_order_message.fill_or_kill => true | _ => false end.

(** The end of [insert], from "placement of remainder_" on. *)
Definition place (order : limit_order_message.t) (limit_index_ : Z)
  (remainder_ : N) (b : book) : result book :=
  if (remainder_ =? 0)%N then Returns b
  else if is_immediate_or_cancel (limit_order_message.lifetime order) then
    Returns (emplace_back b
               (order_report execution_report.cancel order remainder_
                             no_identifier))
  else
    match block_pool.emplace (pool_ b)
            {| quantity := remainder_;
               owner := limit_order_message.owner order;
               successor := None |} with
    | None => Throws b
    | Some (h, pool') =>
        let b1 :=
          emplace_back (set_pool b pool')
            (order_report execution_report.placement order remainder_
                          (Z.of_nat h)) in
        do lv <- level_at (limits_ b1) limit_index_;
        do b2 <-
          (if has_value (fst lv) then
             do '(t, last) <- block_at (pool_ b1) (snd lv);
             Returns
               (set_limits
                  (set_pool b1
                     (<[t := Some {| quantity := quantity last;
                                     owner := owner last;
                                     successor := Some h |}]> (pool_ b1)))
                  (set_level (limits_ b1) limit_index_ (fst lv, Some h)))
           else
             Returns
               (set_limits b1
                  (set_level (limits_ b1) limit_index_ (Some h, Some h))));
        match limit_order_message.side order with
        | buy => Returns (set_best_bid b2 (Z.max (best_bid_ b2) limit_index_))
        | sell => Returns (set_best_ask b2 (Z.min (best_ask_ b2) limit_index_))
        end
    end.

(** [void insert(const limit_order_message &order)]. *)
Definition insert (b : book) (order : limit_order_message.t) : result book :=
  if negb (contains (valid_limits b) (limit_order_message.limit order))
     || (limit_order_message.quantity order <=? 0)%N
  then
    Returns (emplace_back b
               (order_report execution_report.invalid order
                             (limit_order_message.quantity order)
                             no_identifier))
  else
    let remainder_ := limit_order_message.quantity order in
    match encode (limit_order_message.limit order) with
    | None => Undefined assertion_failed
    | Some limit_index_ =>
        if negb ((0 <=? limit_index_)
                 && (limit_index_ <? Z.of_nat (length (limits_ b))))
        then Undefined assertion_failed
        else
          let cancelled :=
            Returns (emplace_back b
                       (order_report execution_report.cancel order
                                     (limit_order_message.quantity order)
                                     no_identifier)) in
          let unmatched :=
            if is_immediate_or_cancel (limit_order_message.lifetime order)
               || is_fill_or_kill (limit_order_message.lifetime order)
            then cancelled
            else place order limit_index_ remainder_ b in
          match limit_order_message.side order with
          | buy =>
              do a <- ask b;
              match a with
              | Some best =>
                  if quote_geb (limit_order_message.limit order) best then
                    do '(b', remainder') <-
                      buyer_aggressor
                        (Z.to_nat (limit_index_ + 1 - best_ask_ b))
                        order (best_ask_ b) remainder_ b;
                    place order limit_index_ remainder' b'
                  else unmatched
              | None => unmatched
              end
          | sell =>
              do a <- bid b;
              match a with
              | Some _ =>
                  do '(b', remainder') <-
                    seller_aggressor
                      (Z.to_nat (best_bid_ b + 1 - limit_index_))
                      order (best_bid_ b) remainder_ b;
                  place order limit_index_ remainder' b'
              | None => unmatched
              end
          end
    end.

(** [void cancel(index_t order)]. *)
Definition cancel (b : book) (order : index) : result book :=
  match block_pool.get (pool_ b) order with
  | None => Undefined freed_block
  | Some order_ =>
      Returns
        (set_pool
           (emplace_back b
              {| execution_report.state := execution_report.cancel;
                 execution_report.quantity := quantity order_;
                 execution_report.identifier := Z.of_nat order;
                 execution_report.side := None;
                 execution_report.limit := None;
                 execution_report.owner := owner order_ |})
           (block_pool.erase (pool_ b) order))
  end.

End Engine.

(** The book as the constructor wires it: the codec reads [valid_limits]
    and [limits_.size()] of the book itself. *)
Definition book_encode (b : book) : quote -> option Z :=
  default_encode (valid_limits b) (Z.of_nat (length (limits_ b))).

Definition book_decode (b : book) : Z -> quote :=
  default_decode (valid_limits b) (Z.of_nat (length (limits_ b))).

Definition book_insert (b : book) (order : limit_order_message.t)
  : result book :=
  insert (book_encode b) (book_decode b) b order.

Definition book_bid (b : book) : result (option quote) :=
  bid (book_decode b) b.

Definition book_ask (b : book) : result (option quote) :=
  ask (book_decode b) b.

(** A sequence of calls of [insert] on a new book. *)
Definition inserts (b : option book) (orders : list limit_order_message.t)
  : result book :=
  match b with
  | None => Undefined assertion_failed
  | Some b0 =>
      foldl (fun r order => do b <- r; book_insert b order) (Returns b0)
            orders
  end.

(** The book an operation leaves behind, when it leaves one: on return and
    when the exception of the pool leaves [insert]. *)
Definition final (r : result book) : option book :=
  match r with
  | Returns b => Some b
  | Throws b => Some b
  | Undefined _ => None
  end.

(** * The vocabulary of the properties *)

(** ** Results *)

(** [ensures r P Q]: if [r] returns [a] then [P a]; if it throws with the
    book [b] then [Q b]. *)
Definition ensures {A : Type} (r : result A) (P : A -> Prop)
  (Q : book -> Prop) : Prop :=
  match r with
  | Returns a => P a
  | Throws b => Q b
  | Undefined _ => True
  end.

(** [r] is not the fault that stands for a loop without end. *)
Definition terminates {A : Type} (r : result A) : Prop :=
  r <> Undefined endless_loop.

(** ** Executions *)

(** One execution: [fill_size] units of the resting order in block
    [fill_block], of owner [fill_supplier], at the level [fill_level]. *)
Record fill : Type := Fill
  { fill_level : Z;
    fill_size : N;
    fill_block : index;
    fill_supplier : identity }.

(** The reports of one execution, in the order in which they are emitted. *)
Definition fill_reports (decode : Z -> quote) (order : limit_order_message.t)
  (f : fill) : list execution_report.t :=
  [ aggressor_report order (fill_size f) (decode (fill_level f));
    supplier_report order (fill_size f) (decode (fill_level f))
                    (fill_block f) (fill_supplier f) ].

Definition fills_reports (decode : Z -> quote)
  (order : limit_order_message.t) (fs : list fill)
  : list execution_report.t :=
  concat (map (fill_reports decode order) fs).

(** The execution [f] takes its units from an order resting in the pool
    [p]: the block is allocated, the owner is the order's, the size is within
    the order's quantity. *)
Definition fill_of (p : list (option record)) (f : fill) : Prop :=
  exists r, p !! fill_block f = Some (Some r)
            /\ owner r = fill_supplier f
            /\ (fill_size f <= quantity r)%N.

(** A block after executions: same owner, same successor, no more
    quantity. *)
Definition shrinks (r r' : record) : Prop :=
  owner r' = owner r /\ successor r' = successor r
  /\ (quantity r' <= quantity r)%N.

(** The pool after executions: the same blocks are allocated. *)
Definition pool_shrinks (p p' : list (option record)) : Prop :=
  Forall2 (option_Forall2 shrinks) p p'.

(** The book [b'] comes from [b] by the executions [fs] for [order]. *)
Definition matched (decode : Z -> quote) (order : limit_order_message.t)
  (fs : list fill) (b b' : book) : Prop :=
  reports b' = reports b ++ fills_reports decode order fs
  /\ Forall (fill_of (pool_ b)) fs
  /\ Forall (fun f => 0 <= fill_level f < Z.of_nat (length (limits_ b))) fs
  /\ pool_shrinks (pool_ b) (pool_ b')
  /\ length (limits_ b') = length (limits_ b)
  /\ valid_limits b' = valid_limits b.

(** The report that ends an [insert]: none, or one report of the order as
    a whole, which is no [match]. *)
Definition closing (order : limit_order_message.t)
  (tail : list execution_report.t) : Prop :=
  tail = []
  \/ (exists state q i,
        tail = [order_report state order q i]
        /\ state <> execution_report.match_).

(** The reports of one [insert]: the executions, pair by pair, then the
    closing report. *)
Definition inserted (decode : Z -> quote) (order : limit_order_message.t)
  (b b' : book) : Prop :=
  exists fs tail,
    reports b' = reports b ++ fills_reports decode order fs ++ tail
    /\ closing order tail
    /\ Forall (fill_of (pool_ b)) fs
    /\ Forall (fun f => 0 <= fill_level f < Z.of_nat (length (limits_ b))) fs.

(** ** The queues of the levels *)

(** The blocks linked from [ptr] on, in the order of their successors. *)
Inductive chain (p : list (option record))
  : record_pointer -> list index -> Prop :=
| chain_end : chain p None []
| chain_block (h : index) (r : record) (hs : list index) :
    p !! h = Some (Some r) ->
    chain p (successor r) hs ->
    chain p (Some h) (h :: hs).

(** The level [lv] holds the queue [hs]: its head starts the chain, its
    tail is the last block. *)
Definition level_queue (p : list (option record)) (lv : limit_type)
  (hs : list index) : Prop :=
  chain p (fst lv) hs /\ snd lv = last hs.

(** The queues [qs] of the levels of [b], none of which shares a block with
    another or holds a block twice. *)
Definition intact (b : book) (qs : list (list index)) : Prop :=
  Forall2 (level_queue (pool_ b)) (limits_ b) qs /\ NoDup (concat qs).

(** The quantity of the block [h], when it is allocated. *)
Definition quantity_at (p : list (option record)) (h : index) : option N :=
  match p !! h with
  | Some (Some r) => Some (quantity r)
  | _ => None
  end.

(** What [insert] leaves of the queue [q] of a level: [q'] is [q] without
    its first [k] blocks, which are emptied, and with the blocks [new],
    free before, at its end; the blocks behind the new head keep their
    quantity. *)
Definition served (b b' : book) (q q' : list index) : Prop :=
  exists (k : nat) (new : list index),
    q' = drop k q ++ new
    /\ (length new <= 1)%nat
    /\ (forall h, h ∈ new -> pool_ b !! h = Some None)
    /\ (forall h, h ∈ take k q -> quantity_at (pool_ b') h = Some 0%N)
    /\ (forall h, h ∈ drop (S k) q ->
                  quantity_at (pool_ b') h = quantity_at (pool_ b) h).

(** What one call of [match_at_level] does to the queue [hs] of its level:
    the first [m] blocks are emptied and leave the queue, the block behind
    them may lose quantity, and nothing else changes in the pool or in the
    levels.  Its executions [fs] take the blocks in the order of the queue;
    the last of them may leave its block in the queue, and then nothing is
    left of the order. *)
Definition consumed (decode : Z -> quote) (order : limit_order_message.t)
  (b : book) (level : Z) (hs : list index) (b' : book) (remainder' : N)
  : Prop :=
  exists (m : nat) (lv' : limit_type) (fs : list fill) (e : nat),
    limits_ b' = <[Z.to_nat level := lv']> (limits_ b)
    /\ level_queue (pool_ b') lv' (drop m hs)
    /\ pool_shrinks (pool_ b) (pool_ b')
    /\ (forall h, h ∈ take m hs -> quantity_at (pool_ b') h = Some 0%N)
    /\ (forall h, h ∉ take (S m) hs -> pool_ b' !! h = pool_ b !! h)
    /\ reports b' = reports b ++ fills_reports decode order fs
    /\ map fill_block fs = take (m + e) hs
    /\ (e = 0%nat \/ (e = 1%nat /\ remainder' = 0%N)).

(** What the executions of one [insert] leave of a queue [q]: [q1] is [q]
    without its first [k] blocks, which are emptied; the blocks behind the
    new head keep their quantity. *)
Definition drained (b b1 : book) (q q1 : list index) : Prop :=
  exists k : nat,
    q1 = drop k q
    /\ (forall h, h ∈ take k q -> quantity_at (pool_ b1) h = Some 0%N)
    /\ (forall h, h ∈ drop (S k) q ->
                  quantity_at (pool_ b1) h = quantity_at (pool_ b) h).

(** The executions [fs] that fall on blocks of the queue [q] take the first
    [n] blocks of [q], in the order of the queue. *)
Definition in_order (q : list index) (fs : list fill) (n : nat) : Prop :=
  filter (fun h => h ∈ q) (map fill_block fs) = take n q.

(** The book [b1], with the queues [qs1], in the course of the executions
    [fs] of one [insert] on the book [b], with the queues [qs]; [remainder_]
    is what is left of the order. *)
Definition matching (decode : Z -> quote) (order : limit_order_message.t)
  (b : book) (qs : list (list index)) (b1 : book) (qs1 : list (list index))
  (fs : list fill) (remainder_ : N) : Prop :=
  intact b1 qs1
  /\ NoDup (concat qs)
  /\ pool_shrinks (pool_ b) (pool_ b1)
  /\ Forall2 (drained b b1) qs qs1
  /\ reports b1 = reports b ++ fills_reports decode order fs
  /\ Forall2 (fun q q1 =>
                exists n, in_order q fs n
                          /\ (remainder_ <> 0%N -> q1 = drop n q))
             qs qs1.

(** The queues [qs'] of the book [b'] after one [insert] on the book [b],
    with the queues [qs]. *)
Definition queues_served (b : book) (qs : list (list index)) (b' : book)
  (qs' : list (list index)) : Prop :=
  intact b' qs' /\ Forall2 (served b b') qs qs'.

(** The book [b'] after one [insert] of [order] on the book [b], with its
    executions [fs]. *)
Definition settled (decode : Z -> quote) (order : limit_order_message.t)
  (b : book) (qs : list (list index)) (b' : book)
  (qs' : list (list index)) (fs : list fill) : Prop :=
  queues_served b qs b' qs'
  /\ (exists tail,
        reports b' = reports b ++ fills_reports decode order fs ++ tail
        /\ closing order tail)
  /\ Forall (fun q => exists n, in_order q fs n) qs.

(** ** Computing the queues *)

(** The chain from [ptr], followed for at most [fuel] blocks. *)
Fixpoint chain_from (p : list (option record)) (fuel : nat)
  (ptr : record_pointer) : option (list index) :=
  match ptr with
  | None => Some []
  | Some h =>
      match fuel with
      | O => None
      | S fuel' =>
          match p !! h with
          | Some (Some r) => cons h <$> chain_from p fuel' (successor r)
          | _ => None
          end
      end
  end.

(** The queue of a level, when its chain ends and its tail is the last
    block. *)
Definition queue_of (p : list (option record)) (lv : limit_type)
  : option (list index) :=
  match chain_from p (length p) (fst lv) with
  | Some hs => if decide (snd lv = last hs) then Some hs else None
  | None => None
  end.

(** The queues of the levels, when they are intact. *)
Definition queues_of (b : book) : option (list (list index)) :=
  match mapM (queue_of (pool_ b)) (limits_ b) with
  | Some qs => if decide (NoDup (concat qs)) then Some qs else None
  | None => None
  end.

(** ** Accounts of quantity *)

(** The units that the executions [fs] take. *)
Definition total (fs : list fill) : N :=
  foldr (fun f n => (fill_size f + n)%N) 0%N fs.

(** The units that rest in a block, and in the pool [p]. *)
Definition weight (x : option record) : N :=
  match x with Some r => quantity r | None => 0%N end.

Definition resting (p : list (option record)) : N :=
  foldr (fun x n => (weight x + n)%N) 0%N p.

(** The free blocks of the pool [p]. *)
Definition vacancy (x : option record) : nat :=
  match x with None => 1%nat | Some _ => 0%nat end.

Definition free_blocks (p : list (option record)) : nat :=
  foldr (fun x n => (vacancy x + n)%nat) 0%nat p.

(** A list of ticks that never goes down, or never up. *)
Definition ascending (ticks_ : list Z) : Prop :=
  forall (i j : nat) (x y : Z),
    (i <= j)%nat -> ticks_ !! i = Some x -> ticks_ !! j = Some y -> x <= y.

Definition descending (ticks_ : list Z) : Prop :=
  forall (i j : nat) (x y : Z),
    (i <= j)%nat -> ticks_ !! i = Some x -> ticks_ !! j = Some y -> y <= x.

(** The book [b'] comes from [b] by the executions [fs], which leave
    [remainder'] of the [remainder_] units of [order]: what the order loses
    the pool loses, no block is freed or taken, the ladder keeps its length
    and the interval its bounds, and only the cursor of the other side moves,
    away from the orders of its own side. *)
Definition executed (decode : Z -> quote) (order : limit_order_message.t)
  (fs : list fill) (b b' : book) (remainder_ remainder' : N) : Prop :=
  reports b' = reports b ++ fills_reports decode order fs
  /\ (remainder' + total fs = remainder_)%N
  /\ (resting (pool_ b') + total fs = resting (pool_ b))%N
  /\ pool_shrinks (pool_ b) (pool_ b')
  /\ length (limits_ b') = length (limits_ b)
  /\ valid_limits b' = valid_limits b
  /\ ticks b' = ticks b
  /\ match limit_order_message.side order with
     | limit_order_message.buy =>
         best_bid_ b' = best_bid_ b /\ best_ask_ b <= best_ask_ b'
     | limit_order_message.sell =>
         best_ask_ b' = best_ask_ b /\ best_bid_ b' <= best_bid_ b
     end.

(** The levels of the executions of an aggressor that starts at the level
    [best] and has the limit [limit_index_]: from the best price on, never
    beyond the limit. *)
Definition within_limit (side_ : side_t) (best limit_index_ : Z)
  (fs : list fill) : Prop :=
  match side_ with
  | limit_order_message.buy =>
      Forall (fun f => best <= fill_level f <= limit_index_) fs
      /\ ascending (map fill_level fs)
  | limit_order_message.sell =>
      Forall (fun f => limit_index_ <= fill_level f <= best) fs
      /\ descending (map fill_level fs)
  end.

(** A block that keeps its order: owner and quantity. *)
Definition keeps (r r' : record) : Prop :=
  owner r' = owner r /\ quantity r' = quantity r.

(** What the placement of [remainder_] units of [order] at the level
    [limit_index_] makes of the book [b]: the first free block [h] takes the
    order and becomes the tail of the level, every other block keeps its
    order, the cursor of the order's side moves to the level if that is the
    better price, and the pool has one free block less. *)
Definition rests (order : limit_order_message.t) (limit_index_ : Z)
  (remainder_ : N) (h : index) (b b' : book) : Prop :=
  block_pool.first_free (pool_ b) = Some h
  /\ reports b' =
       reports b ++
       [order_report execution_report.placement order remainder_
                     (Z.of_nat h)]
  /\ (exists r, pool_ b' !! h = Some (Some r)
                /\ quantity r = remainder_
                /\ owner r = limit_order_message.owner order)
  /\ length (pool_ b') = length (pool_ b)
  /\ (forall h' x, h' <> h -> pool_ b !! h' = Some x ->
        exists y, pool_ b' !! h' = Some y /\ option_Forall2 keeps x y)
  /\ resting (pool_ b') = (resting (pool_ b) + remainder_)%N
  /\ 0 <= limit_index_
  /\ (exists lv head,
        limits_ b !! Z.to_nat limit_index_ = Some lv
        /\ head = (if has_value (fst lv) then fst lv else Some h)
        /\ limits_ b' = <[Z.to_nat limit_index_ := (head, Some h)]> (limits_ b))
  /\ valid_limits b' = valid_limits b
  /\ ticks b' = ticks b
  /\ match limit_order_message.side order with
     | limit_order_message.buy =>
         best_bid_ b' = Z.max (best_bid_ b) limit_index_
         /\ best_ask_ b' = best_ask_ b
     | limit_order_message.sell =>
         best_ask_ b' = Z.min (best_ask_ b) limit_index_
         /\ best_bid_ b' = best_bid_ b
     end
  /\ (free_blocks (pool_ b') + 1 = free_blocks (pool_ b))%nat.

(** The end of [insert] for what is left of [order] after the executions
    [fs]: nothing is left; or it is cancelled, an immediate-or-cancel order
    always and a fill-or-kill order when nothing was executed; or it is
    placed. *)
Definition closes (order : limit_order_message.t) (limit_index_ : Z)
  (fs : list fill) (remainder_ : N) (b b' : book) : Prop :=
  (remainder_ = 0%N /\ b' = b)
  \/ (remainder_ <> 0%N
      /\ b' = emplace_back b
                (order_report execution_report.cancel order remainder_
                              no_identifier)
      /\ (limit_order_message.lifetime order
          = limit_order_message.immediate_or_cancel
          \/ (limit_order_message.lifetime order
              = limit_order_message.fill_or_kill /\ fs = [])))
  \/ (remainder_ <> 0%N
      /\ limit_order_message.lifetime order
         <> limit_order_message.immediate_or_cancel
      /\ exists h, rests order limit_index_ remainder_ h b b').

(** A level without head, which [bid()], [ask()] and the loops of [insert]
    take as empty. *)
Definition vacant (l : list limit_type) (i : Z) : Prop :=
  exists lv, l !! Z.to_nat i = Some lv /\ fst lv = None.

(** [insert] takes [order] as an aggressor: a buy order when [ask()] has a
    value within the limit, a sell order when [bid()] has a value. *)
Definition engaged (decode : Z -> quote) (order : limit_order_message.t)
  (b : book) : Prop :=
  match limit_order_message.side order with
  | limit_order_message.buy =>
      exists best, ask decode b = Returns (Some best)
                   /\ quote_geb (limit_order_message.limit order) best = true
  | limit_order_message.sell =>
      exists best, bid decode b = Returns (Some best)
  end.

(** The levels from the cursor [best] to the limit are empty in [l]. *)
Definition swept (side_ : side_t) (best limit_index_ : Z)
  (l : list limit_type) : Prop :=
  match side_ with
  | limit_order_message.buy =>
      forall j, best <= j <= limit_index_ -> vacant l j
  | limit_order_message.sell =>
      forall j, limit_index_ <= j <= best -> vacant l j
  end.

(** The executions of a valid order: the order passes the test and the
    assertion of [insert], and [fs] are its executions, which lead from [b]
    to [b1] and leave [remainder_] units; if something is left of an
    aggressor, the levels within its limit are empty. *)
Definition entered (encode : quote -> option Z) (decode : Z -> quote)
  (order : limit_order_message.t) (b : book) (limit_index_ : Z)
  (fs : list fill) (b1 : book) (remainder_ : N) : Prop :=
  contains (valid_limits b) (limit_order_message.limit order) = true
  /\ (0 < limit_order_message.quantity order)%N
  /\ encode (limit_order_message.limit order) = Some limit_index_
  /\ 0 <= limit_index_ < Z.of_nat (length (limits_ b))
  /\ executed decode order fs b b1 (limit_order_message.quantity order)
              remainder_
  /\ within_limit (limit_order_message.side order)
       (match limit_order_message.side order with
        | limit_order_message.buy => best_ask_ b
        | limit_order_message.sell => best_bid_ b
        end)
       limit_index_ fs
  /\ (engaged decode order b -> remainder_ <> 0%N ->
      swept (limit_order_message.side order)
        (match limit_order_message.side order with
         | limit_order_message.buy => best_ask_ b
         | limit_order_message.sell => best_bid_ b
         end)
        limit_index_ (limits_ b1)).

(** The book that [insert] returns: the order was invalid and is reported
    so, or it was executed and closed. *)
Definition accounted (encode : quote -> option Z) (decode : Z -> quote)
  (order : limit_order_message.t) (b b' : book) : Prop :=
  ((contains (valid_limits b) (limit_order_message.limit order) = false
    \/ limit_order_message.quantity order = 0%N)
   /\ b' = emplace_back b
             (order_report execution_report.invalid order
                (limit_order_message.quantity order) no_identifier))
  \/ (exists limit_index_ fs b1 remainder_,
        entered encode decode order b limit_index_ fs b1 remainder_
        /\ closes order limit_index_ fs remainder_ b1 b').

(** The book with which [insert] leaves when the pool is exhausted: the
    executions are applied, what is left is neither placed nor reported. *)
Definition exhausted (encode : quote -> option Z) (decode : Z -> quote)
  (order : limit_order_message.t) (b b' : book) : Prop :=
  exists limit_index_ fs remainder_,
    entered encode decode order b limit_index_ fs b' remainder_
    /\ remainder_ <> 0%N
    /\ limit_order_message.lifetime order
       <> limit_order_message.immediate_or_cancel
    /\ block_pool.first_free (pool_ b') = None.

(** The units that the reports [rs] name, and those that they report as
    placed. *)
Definition reported (rs : list execution_report.t) : N :=
  foldr (fun r n => (execution_report.quantity r + n)%N) 0%N rs.

Definition placed (rs : list execution_report.t) : N :=
  foldr (fun r n =>
           match execution_report.state r with
           | execution_report.placement => (execution_report.quantity r + n)%N
           | _ => n
           end) 0%N rs.

(** What an [insert] of an order of the side [side_] keeps of the book:
    the length of the ladder, the interval, the size of the pool and every
    allocated block with its owner; no quantity grows, no cursor moves
    towards the orders of its side, and no free block but the first is
    taken. *)
Definition kept (side_ : side_t) (b b' : book) : Prop :=
  length (limits_ b') = length (limits_ b)
  /\ valid_limits b' = valid_limits b
  /\ ticks b' = ticks b
  /\ match side_ with
     | limit_order_message.buy =>
         best_bid_ b <= best_bid_ b' /\ best_ask_ b <= best_ask_ b'
     | limit_order_message.sell =>
         best_bid_ b' <= best_bid_ b /\ best_ask_ b' <= best_ask_ b
     end
  /\ length (pool_ b') = length (pool_ b)
  /\ (forall h r, pool_ b !! h = Some (Some r) ->
        exists r', pool_ b' !! h = Some (Some r')
                   /\ owner r' = owner r
                   /\ (quantity r' <= quantity r)%N)
  /\ (forall h, pool_ b !! h = Some None ->
        pool_ b' !! h = Some None
        \/ block_pool.first_free (pool_ b) = Some h).

(** ** Faults *)

(** [r] is no fault of memory and no loop without end: the operation
    returns, leaves by the exception of the pool, or fails the assertion
    of [insert]. *)
Definition safe {A : Type} (r : result A) : Prop :=
  match r with
  | Undefined f => f = assertion_failed
  | _ => True
  end.

(** The cursor that an order of the side [side_] moves can be moved: it is
    not further than one level beyond the ladder. *)
Definition movable (side_ : side_t) (b : book) : Prop :=
  match side_ with
  | limit_order_message.buy => -1 <= best_ask_ b
  | limit_order_message.sell =>
      best_bid_ b <= Z.of_nat (length (limits_ b))
  end.

(** ** Sequences of calls *)

(** A call of the book: [insert] with the codec of the constructor, or
    [cancel]. *)
Inductive operation : Type :=
| Insert (order : limit_order_message.t)
| Cancel (identifier : index).

Definition call (b : book) (op : operation) : result book :=
  match op with
  | Insert order => book_insert b order
  | Cancel identifier => cancel b identifier
  end.

(** The calls [ops] one after the other, as long as they return. *)
Definition calls (b : book) (ops : list operation) : result book :=
  foldl (fun r op => do b1 <- r; call b1 op) (Returns b) ops.

(** The units that the calls [ops] submit. *)
Definition submitted (ops : list operation) : N :=
  foldr (fun op n =>
           match op with
           | Insert order => (limit_order_message.quantity order + n)%N
           | Cancel _ => n
           end) 0%N ops.

(** The calls of [cancel] among [ops], and the placement reports among
    [rs]. *)
Definition cancelled (ops : list operation) : nat :=
  foldr (fun op n =>
           match op with
           | Insert _ => n
           | Cancel _ => S n
           end) 0%nat ops.

Definition placements (rs : list execution_report.t) : nat :=
  foldr (fun r n =>
           match execution_report.state r with
           | execution_report.placement => S n
           | _ => n
           end) 0%nat rs.

(** The units that the reports [rs] take out of the book: those of every
    report that is no placement.  An execution has two reports, one for
    the units of each order. *)
Definition unplaced (rs : list execution_report.t) : N :=
  foldr (fun r n =>
           match execution_report.state r with
           | execution_report.placement => n
           | _ => (execution_report.quantity r + n)%N
           end) 0%N rs.

(** ** Executions and the blocks they take from *)

(** The units that the executions [fs] take from the block [h]. *)
Definition taken (fs : list fill) (h : index) : N :=
  foldr (fun f n => if decide (fill_block f = h) then (fill_size f + n)%N
                    else n) 0%N fs.

(** The block [h] is linked from [ptr]: it is the block [ptr] points to, or
    a successor of it. *)
Inductive linked (p : list (option record)) : record_pointer -> index -> Prop :=
| linked_here (h : index) (r : record) :
    p !! h = Some (Some r) -> linked p (Some h) h
| linked_next (h : index) (r : record) (h' : index) :
    p !! h = Some (Some r) -> linked p (successor r) h' ->
    linked p (Some h) h'.

(** The execution [f] is at the level of its block: the block is linked
    from the head of the level [fill_level f] of the book [b]. *)
Definition at_level (b : book) (f : fill) : Prop :=
  0 <= fill_level f
  /\ exists lv, limits_ b !! Z.to_nat (fill_level f) = Some lv
                /\ linked (pool_ b) (fst lv) (fill_block f).

(** The executions [fs] are all that happens between [b] and [b']: their
    reports are the reports appended, their sizes are what the order loses,
    and every block of [b] loses the units that [fs] take from it, no more
    and no less. *)
Definition traced (decode : Z -> quote) (order : limit_order_message.t)
  (fs : list fill) (b b' : book) (remainder_ remainder' : N) : Prop :=
  reports b' = reports b ++ fills_reports decode order fs
  /\ (remainder' + total fs = remainder_)%N
  /\ Forall (fill_of (pool_ b)) fs
  /\ pool_shrinks (pool_ b) (pool_ b')
  /\ (forall h x, pool_ b !! h = Some (Some x) ->
        quantity_at (pool_ b') h = Some (quantity x - taken fs h)%N
        /\ (taken fs h <= quantity x)%N)
  /\ length (limits_ b') = length (limits_ b).

(** The executions [fs] and the closing reports [tail] of one [insert]
    from [b] to [b']: the reports appended are those of [fs], pair by pair,
    and then [tail]; every execution takes from a block of [b] that is
    linked from the head of its level; every block of [b] loses what the
    executions take from it; and executions and closing report name no more
    units than the order has. *)
Definition paired (decode : Z -> quote) (order : limit_order_message.t)
  (b b' : book) (fs : list fill) (tail : list execution_report.t) : Prop :=
  reports b' = reports b ++ fills_reports decode order fs ++ tail
  /\ closing order tail
  /\ Forall (fill_of (pool_ b)) fs
  /\ Forall (at_level b) fs
  /\ (forall h x, pool_ b !! h = Some (Some x) ->
        quantity_at (pool_ b') h = Some (quantity x - taken fs h)%N
        /\ (taken fs h <= quantity x)%N)
  /\ (total fs + reported tail <= limit_order_message.quantity order)%N.

(** ** The record of the placements *)

(** The blocks that the placement reports among [rs] name for the level
    [l], in the order of the reports: the orders placed at the level, the
    earliest first. *)
Definition placed_at (encode : quote -> option Z) (l : Z)
  (rs : list execution_report.t) : list index :=
  omap (fun r =>
          match execution_report.state r, execution_report.limit r with
          | execution_report.placement, Some q =>
              match encode q with
              | Some l' =>
                  if l' =? l
                  then Some (Z.to_nat (execution_report.identifier r))
                  else None
              | None => None
              end
          | _, _ => None
          end) rs.

(** The queues [qs] of the book [b] are as the reports file them: the
    queue of a level holds the orders placed at the level, in the order of
    their placement, without the earliest [k] of them, which are emptied
    and stand in no queue. *)
Definition filed (encode : quote -> option Z) (b : book)
  (qs : list (list index)) : Prop :=
  intact b qs
  /\ forall i q, qs !! i = Some q ->
       exists k,
         q = drop k (placed_at encode (Z.of_nat i) (reports b))
         /\ forall h,
              h ∈ take k (placed_at encode (Z.of_nat i) (reports b)) ->
              quantity_at (pool_ b) h = Some 0%N /\ h ∉ concat qs.

(** The placement of [remainder_] units of [order] puts a block, free
    before, behind the queue of the level [limit_index_] of [b1], reports
    it, and leaves every quantity as it is. *)
Definition appended (order : limit_order_message.t) (limit_index_ : Z)
  (remainder_ : N) (b1 : book) (qs1 : list (list index)) (b' : book)
  : Prop :=
  exists h hs,
    0 <= limit_index_
    /\ qs1 !! Z.to_nat limit_index_ = Some hs
    /\ pool_ b1 !! h = Some None
    /\ intact b' (<[Z.to_nat limit_index_ := hs ++ [h]]> qs1)
    /\ reports b' =
         reports b1 ++
         [order_report execution_report.placement order remainder_
                       (Z.of_nat h)]
    /\ forall h0 n, quantity_at (pool_ b1) h0 = Some n ->
                    quantity_at (pool_ b') h0 = Some n.

(** ** Books and orders used as concrete inputs *)

(** A ladder of ten levels, prices 1 to 10 at lot 1, and a pool of four
    blocks. *)
Definition small_book : option book := new_book 4 (Quote 1 1) (Quote 10 1).

Definition order_at (side_ : side_t) (price : Z) (quantity_ : N)
  (lifetime_ : limit_order_message.lifetime_t) (owner_ : identity)
  : limit_order_message.t :=
  {| limit_order_message.side := side_;
     limit_order_message.limit := Quote price 1;
     limit_order_message.quantity := quantity_;
     limit_order_message.lifetime := lifetime_;
     limit_order_message.owner := owner_ |}.

(** The book that [orders] leave behind on [small_book] (the new book if
    some call does not return). *)
Definition after (orders : list limit_order_message.t) : book :=
  match final (inserts small_book orders), small_book with
  | Some b, _ => b
  | None, Some b => b
  | None, None =>
      {| pool_ := []; limits_ := []; best_bid_ := 0; best_ask_ := 0;
         valid_limits := Interval (Quote 1 1) (Quote 10 1); ticks := 1;
         reports := [] |}
  end.

(** One sell order of 10 units resting at price 5. *)
Definition one_ask : book :=
  Eval vm_compute in
    after [ order_at sell 5 10 limit_order_message.good_until_cancelled 1%N ].

(** A fill-or-kill buy order at price 5 for 15 units, five more than rest at
    that price. *)
Definition fill_or_kill_buy : limit_order_message.t :=
  order_at buy 5 15 limit_order_message.fill_or_kill 2%N.

(** One buy order resting at price 3, and a fill-or-kill sell order at
    price 6, above it. *)
Definition one_bid : book :=
  Eval vm_compute in
    after [ order_at buy 3 10 limit_order_message.good_until_cancelled 1%N ].

Definition fill_or_kill_sell : limit_order_message.t :=
  order_at sell 6 5 limit_order_message.fill_or_kill 2%N.

(** Two sell orders resting at price 5, of owners 1 and 2. *)
Definition two_asks : book :=
  Eval vm_compute in
    after [ order_at sell 5 10 limit_order_message.good_until_cancelled 1%N;
            order_at sell 5 20 limit_order_message.good_until_cancelled 2%N ].

(** A buy order at price 5 for 15 units, which takes all of the first
    resting order of [two_asks] and part of the second. *)
Definition crossing_buy : limit_order_message.t :=
  order_at buy 5 15 limit_order_message.good_until_cancelled 3%N.

Definition two_asks_crossed : book :=
  Eval vm_compute in
    after [ order_at sell 5 10 limit_order_message.good_until_cancelled 1%N;
            order_at sell 5 20 limit_order_message.good_until_cancelled 2%N;
            crossing_buy ].

(** Three sell orders resting at price 5, of owners 1, 2 and 3, in the
    blocks 0, 1 and 2, and a sell order at price 7 in block 3, the last
    block of the pool. *)
Definition three_asks : book :=
  Eval vm_compute in
    after [ order_at sell 5 10 limit_order_message.good_until_cancelled 1%N;
            order_at sell 5 10 limit_order_message.good_until_cancelled 2%N;
            order_at sell 5 10 limit_order_message.good_until_cancelled 3%N;
            order_at sell 7 10 limit_order_message.good_until_cancelled 4%N ].

(** A later sell order at price 5, and a buy order for 20 units at that
    price. *)
Definition late_ask : limit_order_message.t :=
  order_at sell 5 10 limit_order_message.good_until_cancelled 5%N.

Definition sweeping_buy : limit_order_message.t :=
  order_at buy 5 20 limit_order_message.good_until_cancelled 6%N.

(** Four good-until-cancelled orders: two sell orders at the minimum price,
    then a buy order at price 8 and a buy order at the minimum price. *)
Definition crossing_orders : list limit_order_message.t :=
  [ order_at sell 1 10 limit_order_message.good_until_cancelled 1%N;
    order_at sell 1 10 limit_order_message.good_until_cancelled 2%N;
    order_at buy 8 10 limit_order_message.good_until_cancelled 3%N;
    order_at buy 1 10 limit_order_message.good_until_cancelled 4%N ].

(** A buy order at price 5 for 50 units, more than rest in [three_asks]
    at that price, and the book with which [insert] leaves [three_asks]
    for it. *)
Definition large_buy : limit_order_message.t :=
  order_at buy 5 50 limit_order_message.good_until_cancelled 6%N.

Definition three_asks_swept : book :=
  Eval vm_compute in
    match final (book_insert three_asks large_buy) with
    | Some b => b
    | None => three_asks
    end.

(** An immediate-or-cancel buy order at price 5 for 15 units. *)
Definition immediate_buy : limit_order_message.t :=
  order_at buy 5 15 limit_order_message.immediate_or_cancel 3%N.

Definition one_ask_taken : book :=
  Eval vm_compute in
    match final (book_insert one_ask immediate_buy) with
    | Some b => b
    | None => one_ask
    end.

(** The new book on the ladder of [small_book]. *)
Definition empty_book : book := Eval vm_compute in after [].

(** One sell order at price 5 in block 0 and three at price 7, which take
    the rest of the pool; and the book after the order at price 5 is
    cancelled and [late_ask] is placed, in block 0 again. *)
Definition lone_ask : book :=
  Eval vm_compute in
    after [ order_at sell 5 10 limit_order_message.good_until_cancelled 1%N;
            order_at sell 7 10 limit_order_message.good_until_cancelled 2%N;
            order_at sell 7 10 limit_order_message.good_until_cancelled 3%N;
            order_at sell 7 10 limit_order_message.good_until_cancelled 4%N ].

Definition lone_ask_replaced : book :=
  Eval vm_compute in
    match (do b1 <- cancel lone_ask 0%nat; book_insert b1 late_ask) with
    | Returns b => b
    | _ => lone_ask
    end.

(** A buy order at price 7 for 15 units, five more than rest in [one_ask]
    within that limit, and the book that [insert] returns for it. *)
Definition high_buy : limit_order_message.t :=
  order_at buy 7 15 limit_order_message.good_until_cancelled 2%N.

Definition one_ask_crossed : book :=
  Eval vm_compute in
    match final (book_insert one_ask high_buy) with
    | Some b => b
    | None => one_ask
    end.

(** * Lemmas *)

(** ** Results *)

Lemma ensures_bind {A B : Type} (m : result A) (k : A -> result B)
  (P' : A -> Prop) (P : B -> Prop) (Q : book -> Prop) :
  ensures m P' Q ->
  (forall a, P' a -> ensures (k a) P Q) ->
  ensures (bind m k) P Q.
Proof.
  destruct m as [a|b|f]; simpl; intros Hm Hk; auto.
Qed.

Lemma ensures_weaken {A : Type} (r : result A) (P P' : A -> Prop)
  (Q Q' : book -> Prop) :
  ensures r P Q ->
  (forall a, P a -> P' a) ->
  (forall b, Q b -> Q' b) ->
  ensures r P' Q'.
Proof.
  destruct r; simpl; auto.
Qed.

Lemma ensures_returns {A : Type} (r : result A) (P : A -> Prop)
  (Q : book -> Prop) (a : A) :
  ensures r P Q -> r = Returns a -> P a.
Proof.
  intros H ->. exact H.
Qed.

Lemma ensures_throws {A : Type} (r : result A) (P : A -> Prop)
  (Q : book -> Prop) (b : book) :
  ensures r P Q -> r = Throws b -> Q b.
Proof.
  intros H ->. exact H.
Qed.

(** One step of an operation, by the lemma of the call it starts with. *)
Tactic Notation "step_with" uconstr(lemma) :=
  eapply ensures_bind; [apply lemma|].

Lemma level_at_ensures (l : list limit_type) (i : Z) (Q : book -> Prop) :
  ensures (level_at l i)
    (fun lv => 0 <= i /\ l !! Z.to_nat i = Some lv) Q.
Proof.
  unfold level_at. destruct (Z.leb_spec 0 i); simpl; [|exact I].
  destruct (l !! Z.to_nat i) eqn:E; simpl; auto.
Qed.

Lemma block_at_ensures (p : list (option record)) (ptr : record_pointer)
  (Q : book -> Prop) :
  ensures (block_at p ptr)
    (fun hr => ptr = Some (fst hr) /\ p !! fst hr = Some (Some (snd hr))) Q.
Proof.
  unfold block_at. destruct ptr as [h|]; simpl; [|exact I].
  unfold block_pool.get. destruct (p !! h) as [[r|]|] eqn:E; simpl; auto.
Qed.

Lemma advance_ask_ensures (n : nat) (l : list limit_type) (a : Z) :
  ensures (advance_ask n l a) (fun _ => True) (fun _ => False).
Proof.
  revert a. induction n as [|n IH]; intros a; simpl; [exact I|].
  step_with level_at_ensures. intros lv _.
  destruct (has_value (fst lv) || (a =? back l)); simpl; auto.
Qed.

Lemma advance_bid_ensures (n : nat) (l : list limit_type) (a : Z) :
  ensures (advance_bid n l a) (fun _ => True) (fun _ => False).
Proof.
  revert a. induction n as [|n IH]; intros a; simpl; [exact I|].
  step_with level_at_ensures. intros lv _.
  destruct (has_value (fst lv) || (a =? 0)); simpl; auto.
Qed.

(** ** Lists *)

Lemma elem_of_drop_S (A : Type) (l : list A) (x : A) (n : nat) :
  x ∈ drop (S n) l -> x ∈ drop n l.
Proof.
  intros H. rewrite <- (take_drop 1 (drop n l)), drop_drop.
  apply elem_of_app. right. now rewrite Nat.add_1_r.
Qed.

Lemma elem_of_drop_list (A : Type) (l : list A) (x : A) (n : nat) :
  x ∈ drop n l -> x ∈ l.
Proof.
  intros H. rewrite <- (take_drop n l). apply elem_of_app. now right.
Qed.

Lemma elem_of_take_list (A : Type) (l : list A) (x : A) (n : nat) :
  x ∈ take n l -> x ∈ l.
Proof.
  intros H. rewrite <- (take_drop n l). apply elem_of_app. now left.
Qed.

(** In a list without duplicates, what lies behind the first [n] elements
    is none of them. *)
Lemma NoDup_take_drop_apart (A : Type) (l : list A) (x : A) (n : nat) :
  NoDup l -> x ∈ take n l -> x ∈ drop n l -> False.
Proof.
  intros Hd Ht Hr. rewrite <- (take_drop n l) in Hd.
  apply NoDup_app in Hd as (_ & Hap & _). exact (Hap x Ht Hr).
Qed.

Lemma filter_all (q l : list index) :
  (forall h, h ∈ l -> h ∈ q) -> filter (fun h => h ∈ q) l = l.
Proof.
  induction l as [|x l IH]; intros H; [reflexivity|].
  rewrite filter_cons_True by (apply H; constructor).
  f_equal. apply IH. intros h Hh. apply H. now constructor.
Qed.

Lemma filter_none (q l : list index) :
  (forall h, h ∈ l -> h ∉ q) -> filter (fun h => h ∈ q) l = [].
Proof.
  induction l as [|x l IH]; intros H; [reflexivity|].
  rewrite filter_cons_False by (apply H; constructor).
  apply IH. intros h Hh. apply H. now constructor.
Qed.

(** The blocks of two levels of an intact book are apart. *)
Lemma concat_NoDup_apart (qs : list (list index)) (i j : nat)
  (a c : list index) (h : index) :
  NoDup (concat qs) -> qs !! i = Some a -> qs !! j = Some c -> i <> j ->
  h ∈ a -> h ∈ c -> False.
Proof.
  revert i j. induction qs as [|q qs IH]; intros i j Hd Hi Hj Hne Ha Hc.
  - inversion Hi.
  - simpl in Hd. apply NoDup_app in Hd as (Hq & Hap & Hd).
    destruct i as [|i], j as [|j]; simpl in *; try congruence.
    + inversion Hi; subst. apply (Hap h Ha).
      apply list_elem_of_In, in_concat. exists c. split.
      * apply list_elem_of_In. eapply list_elem_of_lookup_2; eauto.
      * now apply list_elem_of_In.
    + inversion Hj; subst. apply (Hap h Hc).
      apply list_elem_of_In, in_concat. exists a. split.
      * apply list_elem_of_In. eapply list_elem_of_lookup_2; eauto.
      * now apply list_elem_of_In.
    + eapply (IH i j); eauto.
Qed.

Lemma concat_NoDup_level (qs : list (list index)) (i : nat)
  (a : list index) :
  NoDup (concat qs) -> qs !! i = Some a -> NoDup a.
Proof.
  revert i. induction qs as [|q qs IH]; intros i Hd Hi; [inversion Hi|].
  simpl in Hd. apply NoDup_app in Hd as (Hq & _ & Hd).
  destruct i as [|i]; simpl in Hi; [inversion Hi; subst; exact Hq|].
  eapply IH; eauto.
Qed.

(** Blocks taken from the head of one queue. *)
Lemma concat_NoDup_drop (qs : list (list index)) (i m : nat)
  (a : list index) :
  NoDup (concat qs) -> qs !! i = Some a ->
  NoDup (concat (<[i := drop m a]> qs)).
Proof.
  intros Hd Hi. eapply sublist_NoDup; [exact Hd|].
  clear Hd. revert i Hi. induction qs as [|q qs IH]; intros i Hi;
    [inversion Hi|].
  destruct i as [|i]; simpl in *.
  - inversion Hi; subst. apply sublist_app; [apply sublist_drop|reflexivity].
  - apply sublist_app; [reflexivity|]. now apply IH.
Qed.

(** A block put behind one queue. *)
Lemma concat_NoDup_snoc (qs : list (list index)) (i : nat)
  (a : list index) (h : index) :
  NoDup (concat qs) -> qs !! i = Some a -> h ∉ concat qs ->
  NoDup (concat (<[i := a ++ [h]]> qs)).
Proof.
  intros Hd Hi Hn.
  assert (Hp : concat (<[i := a ++ [h]]> qs) ≡ₚ h :: concat qs).
  { clear Hd Hn. revert i Hi. induction qs as [|q qs IH]; intros i Hi;
      [inversion Hi|].
    destruct i as [|i]; simpl in *.
    - inversion Hi; subst. rewrite <- app_assoc. simpl.
      rewrite <- Permutation_middle. reflexivity.
    - rewrite (IH i Hi). rewrite <- Permutation_middle. reflexivity. }
  rewrite Hp. apply NoDup_cons. auto.
Qed.

Lemma elem_of_concat_lookup (qs : list (list index)) (i : nat)
  (a : list index) (h : index) :
  qs !! i = Some a -> h ∈ a -> h ∈ concat qs.
Proof.
  intros Hi Ha. apply list_elem_of_In, in_concat. exists a. split.
  - apply list_elem_of_In. eapply list_elem_of_lookup_2; eauto.
  - now apply list_elem_of_In.
Qed.

Lemma set_level_length (l : list limit_type) (i : Z) (lv : limit_type) :
  length (set_level l i lv) = length l.
Proof. unfold set_level. apply length_insert. Qed.

(** ** The pool through executions *)

Lemma shrinks_refl (r : record) : shrinks r r.
Proof. unfold shrinks. repeat split; reflexivity || lia. Qed.

Lemma shrinks_trans (r1 r2 r3 : record) :
  shrinks r1 r2 -> shrinks r2 r3 -> shrinks r1 r3.
Proof.
  unfold shrinks. intros (-> & -> & H1) (-> & -> & H2).
  repeat split; lia.
Qed.

Lemma pool_shrinks_refl (p : list (option record)) : pool_shrinks p p.
Proof.
  unfold pool_shrinks. apply Forall2_same_length_lookup_2; [reflexivity|].
  intros i x y Hx Hy. rewrite Hx in Hy. inversion Hy; subst.
  destruct y; constructor. apply shrinks_refl.
Qed.

Lemma pool_shrinks_trans (p1 p2 p3 : list (option record)) :
  pool_shrinks p1 p2 -> pool_shrinks p2 p3 -> pool_shrinks p1 p3.
Proof.
  unfold pool_shrinks. intros H12. revert p3.
  induction H12 as [|x y l k Hxy _ IH]; intros p3 H23;
    inversion H23 as [|y' z k' m Hyz Hkm]; subst; constructor; auto.
  destruct Hxy; inversion Hyz; subst; constructor.
  eapply shrinks_trans; eauto.
Qed.

Lemma pool_shrinks_length (p p' : list (option record)) :
  pool_shrinks p p' -> length p' = length p.
Proof. intros H. symmetry. exact (Forall2_length _ _ _ H). Qed.

Lemma pool_shrinks_lookup (p p' : list (option record)) (h : nat)
  (r : record) :
  pool_shrinks p p' -> p !! h = Some (Some r) ->
  exists r', p' !! h = Some (Some r') /\ shrinks r r'.
Proof.
  intros H Hh. destruct (Forall2_lookup_l _ _ _ _ _ H Hh) as (y & Hy & Hr).
  inversion Hr; subst. eauto.
Qed.

Lemma pool_shrinks_update (p : list (option record)) (h : nat)
  (r r' : record) :
  p !! h = Some (Some r) -> shrinks r r' ->
  pool_shrinks p (<[h := Some r']> p).
Proof.
  intros Hh Hr. unfold pool_shrinks.
  apply Forall2_same_length_lookup_2; [now rewrite length_insert|].
  intros i x y Hx Hy. destruct (decide (h = i)) as [->|Hne].
  - rewrite list_lookup_insert_eq in Hy by (eapply lookup_lt_Some; eauto).
    rewrite Hh in Hx. inversion Hx; inversion Hy; subst. now constructor.
  - rewrite list_lookup_insert_ne in Hy by exact Hne.
    rewrite Hx in Hy. inversion Hy; subst.
    destruct y; constructor. apply shrinks_refl.
Qed.

Lemma pool_shrinks_free (p p' : list (option record)) (h : index) :
  pool_shrinks p p' -> p' !! h = Some None -> p !! h = Some None.
Proof.
  intros Hp Hh.
  destruct (Forall2_lookup_r _ _ _ _ _ Hp Hh) as (x & Hx & Hrel).
  inversion Hrel; subst. exact Hx.
Qed.

Lemma fill_of_shrinks (p p' : list (option record)) (f : fill) :
  pool_shrinks p p' -> fill_of p' f -> fill_of p f.
Proof.
  intros H (r' & Hr' & Ho & Hq).
  destruct (Forall2_lookup_r _ _ _ _ _ H Hr') as (x & Hx & Hrel).
  inversion Hrel as [r0 r1 Hs|]; subst.
  exists r0. destruct Hs as (Ho' & _ & Hq'). repeat split; auto.
  - congruence.
  - lia.
Qed.

Lemma first_free_lookup (p : list (option record)) (h : index) :
  block_pool.first_free p = Some h -> p !! h = Some None.
Proof.
  revert h. induction p as [|[r|] p IH]; intros h H; simpl in H.
  - discriminate.
  - destruct (block_pool.first_free p) as [i|]; simpl in H; [|discriminate].
    inversion H; subst. simpl. now apply IH.
  - inversion H; subst. reflexivity.
Qed.

Lemma quantity_at_zero_shrinks (p p' : list (option record)) (h : index) :
  pool_shrinks p p' -> quantity_at p h = Some 0%N ->
  quantity_at p' h = Some 0%N.
Proof.
  unfold quantity_at. intros Hp Hq.
  destruct (p !! h) as [[r|]|] eqn:E; try discriminate.
  destruct (pool_shrinks_lookup _ _ _ _ Hp E) as (r' & -> & _ & _ & Hle).
  inversion Hq as [Hz]. f_equal. lia.
Qed.

Create HintDb book discriminated.
#[local] Hint Resolve shrinks_refl pool_shrinks_refl : book.

(** ** Chains *)

Lemma chain_head (p : list (option record)) (ptr : record_pointer)
  (hs : list index) : chain p ptr hs -> ptr = head hs.
Proof. destruct 1; reflexivity. Qed.

Lemma chain_allocated (p : list (option record)) (ptr : record_pointer)
  (hs : list index) (h : index) :
  chain p ptr hs -> h ∈ hs -> exists r, p !! h = Some (Some r).
Proof.
  induction 1 as [|h0 r hs Hh _ IH]; intros Hin.
  - inversion Hin.
  - apply elem_of_cons in Hin as [->|Hin]; eauto.
Qed.

Lemma chain_shrinks (p p' : list (option record)) (ptr : record_pointer)
  (hs : list index) :
  pool_shrinks p p' -> chain p ptr hs -> chain p' ptr hs.
Proof.
  intros Hp. induction 1 as [|h r hs Hh _ IH]; [constructor|].
  destruct (pool_shrinks_lookup _ _ _ _ Hp Hh) as (r' & Hr' & _ & Hs & _).
  econstructor; [exact Hr'|]. rewrite Hs. exact IH.
Qed.

Lemma chain_update_other (p : list (option record)) (ptr : record_pointer)
  (hs : list index) (h : index) (x : option record) :
  chain p ptr hs -> h ∉ hs -> chain (<[h := x]> p) ptr hs.
Proof.
  induction 1 as [|h0 r hs Hh _ IH]; intros Hn; [constructor|].
  apply not_elem_of_cons in Hn as [Hne Hn].
  econstructor; [|exact (IH Hn)].
  rewrite list_lookup_insert_ne by congruence. exact Hh.
Qed.

Lemma chain_agree (p p' : list (option record)) (ptr : record_pointer)
  (hs : list index) :
  chain p ptr hs -> (forall h, h ∈ hs -> p' !! h = p !! h) ->
  chain p' ptr hs.
Proof.
  induction 1 as [|h r hs Hh _ IH]; intros Ha; [constructor|].
  econstructor.
  - rewrite Ha; [exact Hh|constructor].
  - apply IH. intros h0 H0. apply Ha. now constructor.
Qed.

(** A new block linked behind the last block of a queue. *)
Lemma chain_append (p : list (option record)) (ptr : record_pointer)
  (hs : list index) (t h : index) (last_ new : record) :
  chain p ptr (hs ++ [t]) ->
  NoDup (hs ++ [t]) ->
  p !! t = Some (Some last_) ->
  p !! h = Some (Some new) ->
  successor new = None ->
  h ∉ hs ++ [t] ->
  chain (<[t := Some {| quantity := quantity last_; owner := owner last_;
                        successor := Some h |}]> p)
        ptr (hs ++ [t; h]).
Proof.
  revert ptr. induction hs as [|h0 hs IH]; intros ptr Hc Hd Ht Hh Hs Hn;
    simpl in *.
  - inversion Hc as [|t' r hs' Hr Hc']; subst.
    econstructor.
    + apply list_lookup_insert_eq. eapply lookup_lt_Some; eauto.
    + simpl. econstructor.
      * rewrite list_lookup_insert_ne; [exact Hh|].
        intros ->. apply Hn. constructor.
      * rewrite Hs. constructor.
  - inversion Hc as [|h' r hs' Hr Hc']; subst.
    apply NoDup_cons in Hd as [Hh0 Hd].
    apply not_elem_of_cons in Hn as [Hne Hn].
    econstructor.
    + rewrite list_lookup_insert_ne; [exact Hr|].
      intros ->. apply Hh0. apply elem_of_app. right. constructor.
    + apply IH; auto.
Qed.

Lemma level_queue_shrinks (p p' : list (option record)) (lv : limit_type)
  (hs : list index) :
  pool_shrinks p p' -> level_queue p lv hs -> level_queue p' lv hs.
Proof.
  intros Hp [Hc Hl]. split; [eapply chain_shrinks; eauto|exact Hl].
Qed.

Lemma chain_from_chain (p : list (option record)) (fuel : nat)
  (ptr : record_pointer) (hs : list index) :
  chain_from p fuel ptr = Some hs -> chain p ptr hs.
Proof.
  revert ptr hs. induction fuel as [|fuel IH]; intros [h|] hs H; simpl in H;
    try discriminate; try (inversion H; constructor).
  destruct (p !! h) as [[r|]|] eqn:E; try discriminate.
  destruct (chain_from p fuel (successor r)) as [hs'|] eqn:E';
    simpl in H; [|discriminate].
  inversion H; subst. econstructor; eauto.
Qed.

Lemma queues_of_intact (b : book) (qs : list (list index)) :
  queues_of b = Some qs -> intact b qs.
Proof.
  unfold queues_of. intros H.
  destruct (mapM (queue_of (pool_ b)) (limits_ b)) as [qs'|] eqn:E;
    [|discriminate].
  destruct (decide (NoDup (concat qs'))) as [Hd|]; [|discriminate].
  inversion H; subst qs'. split; [|exact Hd].
  apply mapM_Some in E. eapply Forall2_impl; [exact E|].
  intros lv hs Hq. unfold queue_of in Hq.
  destruct (chain_from (pool_ b) (length (pool_ b)) (fst lv)) as [hs'|] eqn:Ec;
    [|discriminate].
  destruct (decide (snd lv = last hs')) as [Hl|]; [|discriminate].
  inversion Hq; subst hs'. split; [|exact Hl].
  eapply chain_from_chain; eauto.
Qed.

(** A queue without duplicates has no more blocks than the pool. *)
Lemma chain_length (p : list (option record)) (ptr : record_pointer)
  (hs : list index) :
  chain p ptr hs -> NoDup hs -> (length hs <= length p)%nat.
Proof.
  intros Hc Hd.
  assert (H : (length hs <= length (seq 0 (length p)))%nat).
  { apply submseteq_length, NoDup_submseteq; [exact Hd|].
    intros h Hh. destruct (chain_allocated _ _ _ _ Hc Hh) as (r & Hr).
    apply elem_of_seq. apply lookup_lt_Some in Hr. lia. }
  now rewrite length_seq in H.
Qed.

(** ** The reports of one insert *)

Section Reports.
Variable decode : Z -> quote.
Variable order : limit_order_message.t.

Lemma matched_refl (b : book) : matched decode order [] b b.
Proof.
  unfold matched, fills_reports. simpl. rewrite app_nil_r.
  repeat split; auto with book.
Qed.

Lemma matched_trans (fs1 fs2 : list fill) (b1 b2 b3 : book) :
  matched decode order fs1 b1 b2 -> matched decode order fs2 b2 b3 ->
  matched decode order (fs1 ++ fs2) b1 b3.
Proof.
  unfold matched, fills_reports.
  intros (R1 & F1 & L1 & P1 & N1 & V1) (R2 & F2 & L2 & P2 & N2 & V2).
  repeat split.
  - rewrite R2, R1, map_app, concat_app, app_assoc. reflexivity.
  - apply Forall_app. split; [exact F1|].
    eapply Forall_impl; [exact F2|]. intros f. now apply fill_of_shrinks.
  - apply Forall_app. split; [exact L1|].
    eapply Forall_impl; [exact L2|]. simpl. intros f. rewrite N1. auto.
  - eapply pool_shrinks_trans; eauto.
  - congruence.
  - congruence.
Qed.

(** A change of a cursor alone, or of the levels alone, is no execution. *)
Lemma matched_frame (fs : list fill) (b b1 b2 : book) :
  matched decode order fs b b1 ->
  reports b2 = reports b1 -> pool_ b2 = pool_ b1 ->
  length (limits_ b2) = length (limits_ b1) ->
  valid_limits b2 = valid_limits b1 ->
  matched decode order fs b b2.
Proof.
  unfold matched. intros (R & F & L & P & N & V) HR HP HN HV.
  rewrite HR, HP, HN, HV. auto 10.
Qed.

(** One pass of the loop of [match_at_level] is one execution. *)
Lemma match_pass_matched
  (next : record_pointer -> N -> book -> result (book * N)) (level : Z) :
  (forall ao remainder_ b,
     ensures (next ao remainder_ b)
       (fun br => exists fs, matched decode order fs b (fst br)
                             /\ Forall (fun f => fill_level f = level) fs
                             /\ (snd br <= remainder_)%N)
       (fun _ => False)) ->
  forall ao remainder_ b,
    ensures (match_pass decode next order level ao remainder_ b)
      (fun br => exists fs, matched decode order fs b (fst br)
                            /\ Forall (fun f => fill_level f = level) fs
                            /\ (snd br <= remainder_)%N)
      (fun _ => False).
Proof.
  intros Hnext ao remainder_ b. unfold match_pass.
  destruct (remainder_ =? 0)%N; simpl.
  { exists []. split; [apply matched_refl|]. split; [constructor|lia]. }
  step_with block_at_ensures.
  intros [h r] [_ Hh]. simpl in Hh.
  step_with level_at_ensures.
  intros lv [Hl0 Hlv].
  set (size := if (remainder_ <? quantity r)%N then remainder_
               else quantity r).
  assert (Hstep : forall lv' q' b2,
    (q' <= quantity r)%N -> (size <= quantity r)%N ->
    b2 = emplace_back
           (emplace_back
              (set_limits
                 (set_pool b
                    (<[h := Some {| quantity := q'; owner := owner r;
                                    successor := successor r |}]>
                       (pool_ b)))
                 (set_level (limits_ b) level lv'))
              (aggressor_report order size (decode level)))
           (supplier_report order size (decode level) h (owner r)) ->
    matched decode order [Fill level size h (owner r)] b b2).
  { intros lv' q' b2 Hq Hs ->. unfold matched, fills_reports. simpl.
    rewrite <- app_assoc. simpl.
    repeat split.
    - constructor; [|constructor]. exists r. simpl. auto.
    - constructor; [|constructor]. simpl.
      apply lookup_lt_Some in Hlv. lia.
    - eapply pool_shrinks_update; [exact Hh|].
      unfold shrinks. simpl. auto.
    - apply set_level_length. }
  assert (Hlevel : Forall (fun f => fill_level f = level)
                     [Fill level size h (owner r)]).
  { constructor; [reflexivity|constructor]. }
  assert (Hrec : forall b2 rem',
    matched decode order [Fill level size h (owner r)] b b2 ->
    (rem' <= remainder_)%N ->
    ensures (next (successor r) rem' b2)
      (fun br => exists fs, matched decode order fs b (fst br)
                            /\ Forall (fun f => fill_level f = level) fs
                            /\ (snd br <= remainder_)%N)
      (fun _ => False)).
  { intros b2 rem' Hm Hr. eapply ensures_weaken; [apply Hnext| |auto].
    intros [b' r'] (fs & Hm' & Hf & Hr'). simpl in *.
    eexists. split; [eapply matched_trans; eauto|].
    split; [apply Forall_app; auto|lia]. }
  destruct (N.ltb_spec remainder_ (quantity r)) as [Hlt|Hge]; simpl.
  - subst size.
    specialize (Hstep lv (quantity r - remainder_)%N _ ltac:(lia)
                  ltac:(lia) eq_refl).
    destruct (successor r) as [s|] eqn:Hs; [apply Hrec; [exact Hstep|lia]|].
    destruct (N.eqb_spec (quantity r - remainder_) 0); [lia|]. simpl.
    eexists. split; [exact Hstep|]. split; [exact Hlevel|lia].
  - subst size.
    specialize (Hstep (successor r, snd lv) 0%N _ ltac:(lia)
                  ltac:(lia) eq_refl).
    destruct (successor r) as [s|] eqn:Hs; [apply Hrec; [exact Hstep|lia]|].
    simpl. destruct (limit_order_message.side order).
    + step_with advance_ask_ensures. intros a _.
      simpl. eexists. split; [|split; [exact Hlevel|lia]].
      eapply matched_frame; [exact Hstep| | | |]; simpl; auto.
      now rewrite set_level_length.
    + step_with advance_bid_ensures. intros a _.
      simpl. eexists. split; [|split; [exact Hlevel|lia]].
      eapply matched_frame; [exact Hstep| | | |]; simpl; auto.
      now rewrite set_level_length.
Qed.

Lemma match_loop_matched (fuel : nat) (level : Z) (ao : record_pointer)
  (remainder_ : N) (b : book) :
  ensures (match_loop decode fuel order level ao remainder_ b)
    (fun br => exists fs, matched decode order fs b (fst br)
                          /\ Forall (fun f => fill_level f = level) fs
                          /\ (snd br <= remainder_)%N)
    (fun _ => False).
Proof.
  revert ao remainder_ b.
  induction fuel as [|fuel IH]; simpl; apply match_pass_matched.
  - intros ao remainder_ b. exact I.
  - exact IH.
Qed.

Lemma match_at_level_matched (remainder_ : N) (level : Z) (b : book) :
  ensures (match_at_level decode order remainder_ level b)
    (fun br => exists fs, matched decode order fs b (fst br)
                          /\ Forall (fun f => fill_level f = level) fs
                          /\ (snd br <= remainder_)%N)
    (fun _ => False).
Proof.
  unfold match_at_level.
  step_with level_at_ensures. intros lv _.
  apply match_loop_matched.
Qed.

Lemma buyer_aggressor_matched (n : nat) (al : Z) (remainder_ : N) (b : book) :
  ensures (buyer_aggressor decode n order al remainder_ b)
    (fun br => exists fs, matched decode order fs b (fst br)
                          /\ (snd br <= remainder_)%N)
    (fun _ => False).
Proof.
  revert al remainder_ b.
  induction n as [|n IH]; intros al remainder_ b; simpl.
  { exists []. split; [apply matched_refl|lia]. }
  destruct (remainder_ =? 0)%N; simpl.
  { exists []. split; [apply matched_refl|lia]. }
  step_with level_at_ensures. intros lv _.
  destruct (has_value (fst lv)); [|apply IH].
  step_with match_at_level_matched.
  intros [b1 r1] (fs1 & H1 & _ & Hr1). simpl in *.
  eapply ensures_weaken; [apply IH| |auto].
  intros [b2 r2] (fs2 & H2 & Hr2). simpl in *.
  exists (fs1 ++ fs2). split; [eapply matched_trans; eauto|lia].
Qed.

Lemma seller_aggressor_matched (n : nat) (bl : Z) (remainder_ : N) (b : book) :
  ensures (seller_aggressor decode n order bl remainder_ b)
    (fun br => exists fs, matched decode order fs b (fst br)
                          /\ (snd br <= remainder_)%N)
    (fun _ => False).
Proof.
  revert bl remainder_ b.
  induction n as [|n IH]; intros bl remainder_ b; simpl.
  { exists []. split; [apply matched_refl|lia]. }
  destruct (remainder_ =? 0)%N; simpl.
  { exists []. split; [apply matched_refl|lia]. }
  step_with level_at_ensures. intros lv _.
  destruct (has_value (fst lv)); [|apply IH].
  step_with match_at_level_matched.
  intros [b1 r1] (fs1 & H1 & _ & Hr1). simpl in *.
  eapply ensures_weaken; [apply IH| |auto].
  intros [b2 r2] (fs2 & H2 & Hr2). simpl in *.
  exists (fs1 ++ fs2). split; [eapply matched_trans; eauto|lia].
Qed.

(** The end of [insert] adds at most one report, and leaves the reports
    alone when the pool is exhausted. *)
Lemma place_closing (limit_index_ : Z) (remainder_ : N) (b : book) :
  ensures (place order limit_index_ remainder_ b)
    (fun b' => exists tail, reports b' = reports b ++ tail
                            /\ closing order tail)
    (fun b' => b' = b).
Proof.
  unfold place.
  destruct (remainder_ =? 0)%N; simpl.
  { exists []. rewrite app_nil_r. split; [reflexivity|now left]. }
  destruct (is_immediate_or_cancel _); simpl.
  { eexists. split; [reflexivity|]. right. do 3 eexists.
    split; [reflexivity|discriminate]. }
  destruct (block_pool.emplace _ _) as [[h pool']|]; simpl; [|reflexivity].
  step_with level_at_ensures. intros lv _.
  assert (Hc : closing order
                 [order_report execution_report.placement order remainder_
                               (Z.of_nat h)]).
  { right. do 3 eexists. split; [reflexivity|discriminate]. }
  eapply ensures_bind with
    (P' := fun b2 => reports b2 = reports b ++
             [order_report execution_report.placement order remainder_
                           (Z.of_nat h)]).
  - destruct (has_value (fst lv)); simpl; [|reflexivity].
    step_with block_at_ensures.
    intros [t last] _. simpl. reflexivity.
  - intros b2 Hb2. destruct (limit_order_message.side order); simpl; eauto.
Qed.

Lemma ask_ensures (b : book) (Q : book -> Prop) :
  ensures (ask decode b)
    (fun a => exists lv,
       0 <= best_ask_ b
       /\ limits_ b !! Z.to_nat (best_ask_ b) = Some lv
       /\ a = if has_value (fst lv) then Some (decode (best_ask_ b))
              else None)
    Q.
Proof.
  unfold ask. step_with level_at_ensures.
  intros lv [H0 Hlv]. destruct (has_value (fst lv)) eqn:E; simpl;
    exists lv; rewrite E; auto.
Qed.

Lemma bid_ensures (b : book) (Q : book -> Prop) :
  ensures (bid decode b)
    (fun a => exists lv,
       0 <= best_bid_ b
       /\ limits_ b !! Z.to_nat (best_bid_ b) = Some lv
       /\ a = if has_value (fst lv) then Some (decode (best_bid_ b))
              else None)
    Q.
Proof.
  unfold bid. step_with level_at_ensures.
  intros lv [H0 Hlv]. destruct (has_value (fst lv)) eqn:E; simpl;
    exists lv; rewrite E; auto.
Qed.

Lemma insert_inserted (encode : quote -> option Z) (b : book) :
  ensures (insert encode decode b order)
    (inserted decode order b) (inserted decode order b).
Proof.
  assert (Hone : forall state q i,
            state <> execution_report.match_ ->
            inserted decode order b
              (emplace_back b (order_report state order q i))).
  { intros state q i Hs. exists [], [order_report state order q i].
    simpl. repeat split; auto. right. eauto. }
  assert (Hplace : forall fs i r b1,
            matched decode order fs b b1 ->
            ensures (place order i r b1)
              (inserted decode order b) (inserted decode order b)).
  { intros fs i r b1 (R & F & L & _).
    eapply ensures_weaken; [apply place_closing| |].
    - intros b' (tail & Ht & Hc). exists fs, tail.
      rewrite Ht, R, <- app_assoc. auto.
    - intros b' ->. exists fs, []. rewrite app_nil_r.
      repeat split; auto. now left. }
  unfold insert.
  destruct (negb _ || _); simpl; [apply Hone; discriminate|].
  destruct (encode _) as [limit_index_|]; simpl; [|exact I].
  destruct (negb _); simpl; [exact I|].
  assert (Hun : ensures
            (if is_immediate_or_cancel (limit_order_message.lifetime order)
                || is_fill_or_kill (limit_order_message.lifetime order)
             then Returns
                    (emplace_back b
                       (order_report execution_report.cancel order
                          (limit_order_message.quantity order)
                          no_identifier))
             else place order limit_index_
                    (limit_order_message.quantity order) b)
            (inserted decode order b) (inserted decode order b)).
  { destruct (_ || _); simpl; [apply Hone; discriminate|].
    eapply Hplace. apply matched_refl. }
  destruct (limit_order_message.side order).
  - step_with ask_ensures. intros a _.
    destruct a as [best|]; [|exact Hun].
    destruct (quote_geb _ _); [|exact Hun].
    eapply ensures_bind.
    + eapply ensures_weaken; [apply buyer_aggressor_matched| |].
      * intros br H. exact H.
      * intros b' [].
    + intros [b1 r1] (fs & Hm & _). simpl in *. eapply Hplace; eauto.
  - step_with bid_ensures. intros a _.
    destruct a as [best|]; [|exact Hun].
    eapply ensures_bind.
    + eapply ensures_weaken; [apply seller_aggressor_matched| |].
      * intros br H. exact H.
      * intros b' [].
    + intros [b1 r1] (fs & Hm & _). simpl in *. eapply Hplace; eauto.
Qed.

End Reports.

(** ** The queues through one insert *)

Section Queues.
Variable decode : Z -> quote.
Variable order : limit_order_message.t.

Lemma match_pass_consumes
  (next : record_pointer -> N -> book -> result (book * N)) (level : Z) :
  (forall ao b,
     ensures (next ao 0%N b) (fun br => br = (b, 0%N)) (fun _ => False)) ->
  (forall ao remainder_ b lv hs,
     limits_ b !! Z.to_nat level = Some lv ->
     fst lv = ao ->
     level_queue (pool_ b) lv hs ->
     ensures (next ao remainder_ b)
       (fun br => consumed decode order b level hs (fst br) (snd br))
       (fun _ => False)) ->
  forall ao remainder_ b lv hs,
    limits_ b !! Z.to_nat level = Some lv ->
    fst lv = ao ->
    level_queue (pool_ b) lv hs ->
    ensures (match_pass decode next order level ao remainder_ b)
      (fun br => consumed decode order b level hs (fst br) (snd br))
      (fun _ => False).
Proof.
  intros Hdone Hnext ao remainder_ b lv hs Hlv Hao Hq. unfold match_pass.
  destruct (remainder_ =? 0)%N; simpl.
  { exists 0%nat, lv, [], 0%nat.
    rewrite drop_0, list_insert_id by exact Hlv.
    unfold fills_reports. simpl. rewrite app_nil_r.
    split; [reflexivity|]. split; [exact Hq|].
    split; [auto with book|].
    split; [intros h Hh; inversion Hh|]. auto. }
  step_with block_at_ensures.
  intros [h r] [Hptr Hh]. simpl in Hptr, Hh.
  unfold level_at. destruct (Z.leb_spec 0 level) as [_|]; [|exact I].
  rewrite Hlv. simpl.
  destruct Hq as [Hc Hl]. rewrite Hao, Hptr in Hc.
  inversion Hc as [|h' r0 hs' Hr0 Hc']; subst hs h'.
  rewrite Hh in Hr0. inversion Hr0; subst r0. clear Hr0.
  pose proof (lookup_lt_Some _ _ _ Hlv) as Hlt.
  destruct (N.ltb_spec remainder_ (quantity r)) as [Hpart|Hfull]; simpl.
  - (* the resting order is larger: it stays at the head *)
    set (r' := {| quantity := (quantity r - remainder_)%N;
                  owner := owner r; successor := successor r |}).
    set (b2 :=
           emplace_back
             (emplace_back
                (set_limits (set_pool b (<[h := Some r']> (pool_ b)))
                            (set_level (limits_ b) level lv))
                (aggressor_report order remainder_ (decode level)))
             (supplier_report order remainder_ (decode level) h (owner r))).
    assert (Hp : pool_shrinks (pool_ b) (<[h := Some r']> (pool_ b))).
    { eapply pool_shrinks_update; [exact Hh|].
      unfold shrinks. simpl. repeat split; lia. }
    assert (Hres : consumed decode order b level (h :: hs') b2 0%N).
    { exists 0%nat, lv, [Fill level remainder_ h (owner r)], 1%nat.
      split; [reflexivity|]. split.
      { rewrite drop_0. eapply level_queue_shrinks; [exact Hp|].
        split; [|exact Hl]. rewrite Hao, Hptr. exact Hc. }
      split; [exact Hp|].
      split; [intros h0 H0; inversion H0|]. split.
      { intros h0 H0. simpl in H0. rewrite take_0 in H0. simpl.
        apply list_lookup_insert_ne. intros ->. apply H0. constructor. }
      split; [simpl; now rewrite <- app_assoc|].
      split; [simpl; now rewrite take_0|]. auto. }
    destruct (successor r) as [s|] eqn:Hs.
    + (* nothing is left of the order: the next pass returns at once *)
      eapply ensures_weaken; [apply Hdone| |auto].
      intros br ->. exact Hres.
    + destruct (N.eqb_spec (quantity r - remainder_) 0); [lia|]. simpl.
      exact Hres.
  - (* the resting order is exhausted: the head moves on *)
    set (r' := {| quantity := 0%N; owner := owner r;
                  successor := successor r |}).
    set (f := Fill level (quantity r) h (owner r)).
    assert (Hp : pool_shrinks (pool_ b) (<[h := Some r']> (pool_ b))).
    { eapply pool_shrinks_update; [exact Hh|].
      unfold shrinks. simpl. repeat split; lia. }
    assert (Hz : quantity_at (<[h := Some r']> (pool_ b)) h = Some 0%N).
    { unfold quantity_at. rewrite list_lookup_insert_eq; [reflexivity|].
      eapply lookup_lt_Some; eauto. }
    destruct (successor r) as [s|] eqn:Hs.
    + assert (Hne : exists s' hs'', hs' = s' :: hs'').
      { inversion Hc'; subst. eauto. }
      destruct Hne as (s' & hs'' & ->).
      eapply ensures_weaken;
        [eapply (Hnext _ _ _ (Some s, snd lv))| |auto].
      * simpl. unfold set_level. apply list_lookup_insert_eq. exact Hlt.
      * reflexivity.
      * split; simpl.
        -- eapply chain_shrinks; [exact Hp|exact Hc'].
        -- rewrite Hl. apply last_cons_cons.
      * intros [b' rem']
          (m & lv' & fs & e & Hl' & Hq' & Hp' & Hz' & Hf' & Hr' & Hb' & He').
        simpl in *.
        exists (S m), lv', (f :: fs), e. split.
        { rewrite Hl'. unfold set_level. apply list_insert_insert_eq. }
        split; [exact Hq'|].
        split; [eapply pool_shrinks_trans; eauto|].
        split.
        { intros h0 H0. simpl in H0. apply elem_of_cons in H0 as [->|H0].
          - eapply quantity_at_zero_shrinks; eauto.
          - apply Hz'. exact H0. }
        split.
        { intros h0 H0. apply not_elem_of_cons in H0 as [Hne H0].
          rewrite (Hf' h0 H0). apply list_lookup_insert_ne. congruence. }
        split.
        { rewrite Hr'. unfold fills_reports. simpl.
          rewrite <- !app_assoc. reflexivity. }
        split; [simpl; now rewrite Hb'|exact He'].
    + inversion Hc'; subst hs'. simpl.
      assert (Hres : forall b2,
                pool_ b2 = <[h := Some r']> (pool_ b) ->
                limits_ b2 =
                  set_level (set_level (limits_ b) level (None, snd lv))
                            level (None, None) ->
                reports b2 =
                  (reports b
                   ++ [aggressor_report order (quantity r) (decode level)])
                  ++ [supplier_report order (quantity r) (decode level) h
                        (owner r)] ->
                consumed decode order b level [h] b2
                         (remainder_ - quantity r)%N).
      { intros b2 Hp2 Hl2 Hr2. exists 1%nat, (None, None), [f], 0%nat.
        rewrite Hp2, Hl2, Hr2.
        split; [apply list_insert_insert_eq|].
        split; [split; [constructor|reflexivity]|].
        split; [exact Hp|]. split.
        { intros h0 H0. simpl in H0. apply list_elem_of_singleton in H0.
          subst. exact Hz. }
        split.
        { intros h0 H0. simpl in H0.
          apply list_lookup_insert_ne. intros ->. apply H0. constructor. }
        split; [now rewrite <- app_assoc|]. auto. }
      destruct (limit_order_message.side order).
      * step_with advance_ask_ensures. intros a _.
        simpl. apply Hres; reflexivity.
      * step_with advance_bid_ensures. intros a _.
        simpl. apply Hres; reflexivity.
Qed.

(** With nothing left of the order, the loop returns at once. *)
Lemma match_loop_done (fuel : nat) (level : Z) (ao : record_pointer)
  (b : book) :
  match_loop decode fuel order level ao 0%N b = Returns (b, 0%N).
Proof. destruct fuel; reflexivity. Qed.

Lemma match_loop_consumes (fuel : nat) (level : Z) (ao : record_pointer)
  (remainder_ : N) (b : book) (lv : limit_type) (hs : list index) :
  limits_ b !! Z.to_nat level = Some lv ->
  fst lv = ao ->
  level_queue (pool_ b) lv hs ->
  ensures (match_loop decode fuel order level ao remainder_ b)
    (fun br => consumed decode order b level hs (fst br) (snd br))
    (fun _ => False).
Proof.
  revert ao remainder_ b lv hs.
  induction fuel as [|fuel IH]; simpl; apply match_pass_consumes.
  - intros ao b. exact I.
  - intros ao remainder_ b lv hs _ _ _. exact I.
  - intros ao b. now rewrite match_loop_done.
  - exact IH.
Qed.

Lemma match_at_level_consumes (remainder_ : N) (level : Z) (b : book)
  (lv : limit_type) (hs : list index) :
  limits_ b !! Z.to_nat level = Some lv ->
  level_queue (pool_ b) lv hs ->
  ensures (match_at_level decode order remainder_ level b)
    (fun br => consumed decode order b level hs (fst br) (snd br))
    (fun _ => False).
Proof.
  intros Hlv Hq. unfold match_at_level, level_at.
  destruct (Z.leb_spec 0 level) as [_|]; [|exact I].
  rewrite Hlv. simpl. eapply match_loop_consumes; eauto.
Qed.

Lemma matching_start (b : book) (qs : list (list index)) (remainder_ : N) :
  intact b qs -> matching decode order b qs b qs [] remainder_.
Proof.
  intros Hi. split; [exact Hi|]. split; [apply Hi|].
  split; [auto with book|]. split; [|split].
  - apply Forall2_same_length_lookup_2; [reflexivity|].
    intros i x y Hx Hy. rewrite Hx in Hy. inversion Hy; subst.
    exists 0%nat. rewrite drop_0, take_0. repeat split; auto.
    intros h Hh. inversion Hh.
  - unfold fills_reports. simpl. now rewrite app_nil_r.
  - apply Forall2_same_length_lookup_2; [reflexivity|].
    intros i x y Hx Hy. rewrite Hx in Hy. inversion Hy; subst.
    exists 0%nat. unfold in_order. rewrite drop_0, take_0. auto.
Qed.

Lemma matching_frame (b : book) (qs : list (list index)) (b1 b2 : book)
  (qs1 : list (list index)) (fs : list fill) (remainder_ : N) :
  matching decode order b qs b1 qs1 fs remainder_ ->
  pool_ b2 = pool_ b1 -> limits_ b2 = limits_ b1 ->
  reports b2 = reports b1 ->
  matching decode order b qs b2 qs1 fs remainder_.
Proof.
  unfold matching, intact, drained. intros H Hp Hl Hr.
  rewrite Hp, Hl, Hr. exact H.
Qed.

(** When nothing is left of the order, no execution follows. *)
Lemma matching_done (b : book) (qs : list (list index)) (b1 : book)
  (qs1 : list (list index)) (fs : list fill) (remainder_ : N) :
  matching decode order b qs b1 qs1 fs remainder_ ->
  matching decode order b qs b1 qs1 fs 0%N.
Proof.
  intros (Hi & Hd & Hp & Hs & Hr & Ho). repeat split; try apply Hi; auto.
  eapply Forall2_impl; [exact Ho|]. intros q q1 (n & Hn & _).
  exists n. split; [exact Hn|]. intros H. now contradiction H.
Qed.

(** One call of [match_at_level] keeps the course of the executions. *)
Lemma matching_step (b : book) (qs : list (list index)) (b1 : book)
  (qs1 : list (list index)) (fs1 : list fill) (remainder_ : N) (level : Z)
  (hs : list index) (b2 : book) (remainder' : N) :
  matching decode order b qs b1 qs1 fs1 remainder_ ->
  remainder_ <> 0%N ->
  qs1 !! Z.to_nat level = Some hs ->
  consumed decode order b1 level hs b2 remainder' ->
  exists qs2 fs2, matching decode order b qs b2 qs2 fs2 remainder'.
Proof.
  intros ((Hq1 & Hd1) & Hd & Hp1 & Hs1 & Hr1 & Ho1) Hrem Hhs
         (m & lv' & fs & e & Hl2 & Hq2 & Hp2 & Hz2 & Hf2 & Hr2 & Hb2 & He2).
  set (j := Z.to_nat level) in *.
  exists (<[j := drop m hs]> qs1), (fs1 ++ fs).
  pose proof (concat_NoDup_level _ _ _ Hd1 Hhs) as Hdhs.
  split; [split|]; [| |split; [|split; [|split; [|split]]]].
  - rewrite Hl2. apply Forall2_insert; [|exact Hq2].
    eapply Forall2_impl; [exact Hq1|]. intros lv q.
    now apply level_queue_shrinks.
  - now apply concat_NoDup_drop.
  - exact Hd.
  - eapply pool_shrinks_trans; eauto.
  - apply Forall2_same_length_lookup_2.
    { rewrite length_insert. exact (Forall2_length _ _ _ Hs1). }
    intros i q q2 Hq Hq2'.
    destruct (Forall2_lookup_l _ _ _ _ _ Hs1 Hq)
      as (q1 & Hq1' & k & -> & Hz & Hu).
    destruct (decide (i = j)) as [->|Hne].
    + rewrite list_lookup_insert_eq in Hq2'
        by (eapply lookup_lt_Some; eauto).
      inversion Hq2'; subst q2. rewrite Hq1' in Hhs. inversion Hhs; subst hs.
      exists (k + m)%nat. rewrite drop_drop. split; [reflexivity|]. split.
      * intros h Hh. rewrite <- take_take_drop in Hh.
        apply elem_of_app in Hh as [Hh|Hh].
        -- eapply quantity_at_zero_shrinks; eauto.
        -- now apply Hz2.
      * intros h Hh. rewrite <- (Hu h).
        -- unfold quantity_at. rewrite Hf2; [reflexivity|].
           intros Ht. replace (S (k + m)) with (k + S m)%nat in Hh by lia.
           rewrite <- drop_drop in Hh.
           exact (NoDup_take_drop_apart _ _ _ _ Hdhs Ht Hh).
        -- replace (S (k + m)) with (S k + m)%nat in Hh by lia.
           rewrite <- drop_drop in Hh.
           eapply elem_of_drop_list; eauto.
    + rewrite list_lookup_insert_ne in Hq2' by congruence.
      rewrite Hq1' in Hq2'. inversion Hq2'; subst q2.
      exists k. split; [reflexivity|]. split.
      * intros h Hh. eapply quantity_at_zero_shrinks; eauto.
      * intros h Hh. rewrite <- (Hu h Hh).
        unfold quantity_at. rewrite Hf2; [reflexivity|].
        intros Ht. apply elem_of_take_list in Ht.
        apply elem_of_drop_S in Hh.
        exact (concat_NoDup_apart _ _ _ _ _ _ Hd1 Hq1' Hhs Hne Hh Ht).
  - rewrite Hr2, Hr1. unfold fills_reports.
    rewrite map_app, concat_app, app_assoc. reflexivity.
  - apply Forall2_same_length_lookup_2.
    { rewrite length_insert. exact (Forall2_length _ _ _ Ho1). }
    intros i q q2 Hq Hq2'.
    destruct (Forall2_lookup_l _ _ _ _ _ Ho1 Hq)
      as (q1 & Hq1' & n & Hn & Hcur).
    specialize (Hcur Hrem). subst q1.
    unfold in_order in *. rewrite map_app, filter_app, Hn, Hb2.
    destruct (decide (i = j)) as [->|Hne].
    + rewrite list_lookup_insert_eq in Hq2'
        by (eapply lookup_lt_Some; eauto).
      inversion Hq2'; subst q2. rewrite Hq1' in Hhs. inversion Hhs; subst hs.
      exists (n + (m + e))%nat. split.
      * rewrite filter_all; [apply take_take_drop|].
        intros h Hh. apply elem_of_take_list in Hh.
        eapply elem_of_drop_list; eauto.
      * intros Hrem'. destruct He2 as [->|[_ ?]]; [|contradiction].
        rewrite Nat.add_0_r, drop_drop. reflexivity.
    + rewrite list_lookup_insert_ne in Hq2' by congruence.
      rewrite Hq1' in Hq2'. inversion Hq2'; subst q2.
      exists n. split; [|reflexivity].
      rewrite filter_none; [apply app_nil_r|].
      intros h Hh Hin. apply elem_of_take_list in Hh.
      destruct (Forall2_lookup_r _ _ _ _ _ Hs1 Hhs)
        as (qj & Hqj & kj & -> & _).
      apply elem_of_drop_list in Hh.
      exact (concat_NoDup_apart _ _ _ _ _ _ Hd Hq Hqj Hne Hin Hh).
Qed.

Lemma buyer_aggressor_matching (n : nat) (al : Z) (remainder_ : N) (b : book)
  (qs : list (list index)) (b1 : book) (qs1 : list (list index))
  (fs1 : list fill) :
  matching decode order b qs b1 qs1 fs1 remainder_ ->
  ensures (buyer_aggressor decode n order al remainder_ b1)
    (fun br => exists qs2 fs2,
                 matching decode order b qs (fst br) qs2 fs2 (snd br))
    (fun _ => False).
Proof.
  revert al remainder_ b1 qs1 fs1.
  induction n as [|n IH]; intros al remainder_ b1 qs1 fs1 Hm; simpl;
    [eauto|].
  destruct (N.eqb_spec remainder_ 0) as [|Hrem]; simpl; [eauto|].
  step_with level_at_ensures. intros lv [H0 Hlv].
  destruct (has_value (fst lv)); [|eapply IH; eauto].
  pose proof Hm as ((Hq1 & Hd1) & _).
  destruct (Forall2_lookup_l _ _ _ _ _ Hq1 Hlv) as (hs & Hhs & Hq).
  eapply ensures_bind; [eapply match_at_level_consumes; eauto|].
  intros [b2 r2] Hc. simpl in Hc.
  destruct (matching_step _ _ _ _ _ _ _ _ _ _ Hm Hrem Hhs Hc)
    as (qs2 & fs2 & Hm2).
  eapply IH; eauto.
Qed.

Lemma seller_aggressor_matching (n : nat) (bl : Z) (remainder_ : N) (b : book)
  (qs : list (list index)) (b1 : book) (qs1 : list (list index))
  (fs1 : list fill) :
  matching decode order b qs b1 qs1 fs1 remainder_ ->
  ensures (seller_aggressor decode n order bl remainder_ b1)
    (fun br => exists qs2 fs2,
                 matching decode order b qs (fst br) qs2 fs2 (snd br))
    (fun _ => False).
Proof.
  revert bl remainder_ b1 qs1 fs1.
  induction n as [|n IH]; intros bl remainder_ b1 qs1 fs1 Hm; simpl;
    [eauto|].
  destruct (N.eqb_spec remainder_ 0) as [|Hrem]; simpl; [eauto|].
  step_with level_at_ensures. intros lv [H0 Hlv].
  destruct (has_value (fst lv)); [|eapply IH; eauto].
  pose proof Hm as ((Hq1 & Hd1) & _).
  destruct (Forall2_lookup_l _ _ _ _ _ Hq1 Hlv) as (hs & Hhs & Hq).
  eapply ensures_bind; [eapply match_at_level_consumes; eauto|].
  intros [b2 r2] Hc. simpl in Hc.
  destruct (matching_step _ _ _ _ _ _ _ _ _ _ Hm Hrem Hhs Hc)
    as (qs2 & fs2 & Hm2).
  eapply IH; eauto.
Qed.

Lemma matching_queues_served (b : book) (qs : list (list index)) (b1 : book)
  (qs1 : list (list index)) (fs : list fill) (remainder_ : N) :
  matching decode order b qs b1 qs1 fs remainder_ ->
  queues_served b qs b1 qs1.
Proof.
  intros (Hi & _ & _ & Hs & _). split; [exact Hi|].
  eapply Forall2_impl; [exact Hs|]. intros q q1 (k & -> & Hz & Hu).
  exists k, []. rewrite app_nil_r. repeat split; auto.
  intros h Hh. inversion Hh.
Qed.

(** The queues after the executions, with the closing report [tail]. *)
Lemma settle (b : book) (qs : list (list index)) (b1 b2 : book)
  (qs1 qs2 : list (list index)) (fs : list fill) (remainder_ : N)
  (tail : list execution_report.t) :
  matching decode order b qs b1 qs1 fs remainder_ ->
  queues_served b qs b2 qs2 ->
  reports b2 = reports b1 ++ tail ->
  closing order tail ->
  settled decode order b qs b2 qs2 fs.
Proof.
  intros (_ & _ & _ & _ & Hr & Ho) Hq Hr2 Hc. split; [exact Hq|]. split.
  - exists tail. rewrite Hr2, Hr, <- app_assoc. auto.
  - apply Forall_forall. intros q Hin.
    apply list_elem_of_lookup in Hin as (i & Hi).
    destruct (Forall2_lookup_l _ _ _ _ _ Ho Hi) as (q1 & _ & n & Hn & _).
    eauto.
Qed.

Lemma queues_served_frame (b : book) (qs : list (list index)) (b1 b2 : book)
  (qs1 : list (list index)) :
  queues_served b qs b1 qs1 ->
  pool_ b2 = pool_ b1 -> limits_ b2 = limits_ b1 ->
  queues_served b qs b2 qs1.
Proof.
  unfold queues_served, intact, served. intros H Hp Hl.
  rewrite Hp, Hl. exact H.
Qed.

Lemma settled_frame (b : book) (qs : list (list index)) (b1 b2 : book)
  (qs1 : list (list index)) (fs : list fill) :
  settled decode order b qs b1 qs1 fs ->
  pool_ b2 = pool_ b1 -> limits_ b2 = limits_ b1 ->
  reports b2 = reports b1 ->
  settled decode order b qs b2 qs1 fs.
Proof.
  unfold settled. intros (Hq & Hr & Ho) Hp Hl Hr2. rewrite Hr2.
  split; [eapply queues_served_frame; eauto|]. auto.
Qed.

(** A new block [h] put behind the queue [hs] of the level [j]. *)
Lemma append_served (b : book) (qs : list (list index)) (b1 b2 : book)
  (qs1 : list (list index)) (fs : list fill) (remainder_ : N) (j : nat)
  (hs : list index) (h : index) (lv2 : limit_type) :
  matching decode order b qs b1 qs1 fs remainder_ ->
  qs1 !! j = Some hs ->
  pool_ b1 !! h = Some None ->
  level_queue (pool_ b2) lv2 (hs ++ [h]) ->
  limits_ b2 = <[j := lv2]> (limits_ b1) ->
  (forall h0 r, pool_ b1 !! h0 = Some (Some r) ->
     exists r', pool_ b2 !! h0 = Some (Some r')
                /\ quantity r' = quantity r
                /\ (h0 ∉ hs -> r' = r)) ->
  queues_served b qs b2 (<[j := hs ++ [h]]> qs1).
Proof.
  intros ((Hq1 & Hd1) & _ & Hp1 & Hs1 & _) Hhs Hfree Hq2 Hl2 Hkeep.
  assert (Hfresh : forall i q, qs1 !! i = Some q -> h ∉ q).
  { intros i q Hq Hin.
    destruct (Forall2_lookup_r _ _ _ _ _ Hq1 Hq) as (lv & _ & Hc & _).
    destruct (chain_allocated _ _ _ _ Hc Hin) as (r & Hr). congruence. }
  assert (Hquantity : forall h0 n, quantity_at (pool_ b1) h0 = Some n ->
                                   quantity_at (pool_ b2) h0 = Some n).
  { unfold quantity_at. intros h0 n Hn.
    destruct (pool_ b1 !! h0) as [[r|]|] eqn:E; try discriminate.
    destruct (Hkeep h0 r E) as (r' & -> & Hr' & _). congruence. }
  split; [split|].
  - rewrite Hl2. apply Forall2_same_length_lookup_2.
    { rewrite !length_insert. exact (Forall2_length _ _ _ Hq1). }
    intros i lv q Hlv Hq. destruct (decide (i = j)) as [->|Hne].
    + rewrite list_lookup_insert_eq in Hq
        by (eapply lookup_lt_Some; eauto).
      rewrite list_lookup_insert_eq in Hlv
        by (rewrite (Forall2_length _ _ _ Hq1); eapply lookup_lt_Some; eauto).
      inversion Hlv; inversion Hq; subst. exact Hq2.
    + rewrite list_lookup_insert_ne in Hlv by congruence.
      rewrite list_lookup_insert_ne in Hq by congruence.
      destruct (Forall2_lookup_lr _ _ _ _ _ _ Hq1 Hlv Hq) as [Hc Hl].
      split; [|exact Hl]. eapply chain_agree; [exact Hc|].
      intros h0 H0. destruct (chain_allocated _ _ _ _ Hc H0) as (r & Hr).
      destruct (Hkeep h0 r Hr) as (r' & Hr' & _ & Hsame).
      rewrite Hr', Hr, Hsame; [reflexivity|].
      intros Hin. exact (concat_NoDup_apart _ _ _ _ _ _ Hd1 Hq Hhs Hne H0 Hin).
  - apply concat_NoDup_snoc; auto.
    intros Hin. apply list_elem_of_In, in_concat in Hin as (q & Hq & Hin).
    apply list_elem_of_In, list_elem_of_lookup in Hq as (i & Hq).
    apply (Hfresh i q Hq). now apply list_elem_of_In.
  - apply Forall2_same_length_lookup_2.
    { rewrite length_insert. exact (Forall2_length _ _ _ Hs1). }
    intros i q q2 Hq Hq2'.
    destruct (Forall2_lookup_l _ _ _ _ _ Hs1 Hq)
      as (q1 & Hq1' & k & -> & Hz & Hu).
    assert (Hrest : forall h0, h0 ∈ drop (S k) q ->
              quantity_at (pool_ b2) h0 = quantity_at (pool_ b) h0).
    { intros h0 H0. rewrite <- (Hu h0 H0).
      destruct (Forall2_lookup_r _ _ _ _ _ Hq1 Hq1') as (lv & _ & Hc & _).
      destruct (chain_allocated _ _ _ _ Hc (elem_of_drop_S _ _ _ _ H0))
        as (r & Hr).
      rewrite (Hquantity h0 (quantity r)); unfold quantity_at;
        rewrite Hr; reflexivity. }
    destruct (decide (i = j)) as [->|Hne].
    + rewrite list_lookup_insert_eq in Hq2'
        by (eapply lookup_lt_Some; eauto).
      inversion Hq2'; subst q2. rewrite Hq1' in Hhs. inversion Hhs; subst hs.
      exists k, [h].
      split; [reflexivity|]. split; [simpl; lia|]. split; [|auto].
      intros h0 H0. apply list_elem_of_singleton in H0. subst h0.
      eapply pool_shrinks_free; eauto.
    + rewrite list_lookup_insert_ne in Hq2' by congruence.
      rewrite Hq1' in Hq2'. inversion Hq2'; subst q2.
      exists k, []. rewrite app_nil_r.
      split; [reflexivity|]. split; [simpl; lia|].
      split; [intros h0 H0; inversion H0|]. auto.
Qed.

Lemma place_settled (limit_index_ : Z) (remainder_ : N) (b : book)
  (qs : list (list index)) (b1 : book) (qs1 : list (list index))
  (fs : list fill) :
  matching decode order b qs b1 qs1 fs remainder_ ->
  ensures (place order limit_index_ remainder_ b1)
    (fun b' => exists qs', settled decode order b qs b' qs' fs)
    (fun b' => exists qs', settled decode order b qs b' qs' fs).
Proof.
  intros Hm. pose proof (matching_queues_served _ _ _ _ _ _ Hm) as Hs0.
  assert (Hcancel : forall q,
            closing order
              [order_report execution_report.cancel order q no_identifier]).
  { intros q. right. do 3 eexists. split; [reflexivity|discriminate]. }
  assert (Hstay : exists qs', settled decode order b qs b1 qs' fs).
  { exists qs1.
    eapply settle;
      [exact Hm|exact Hs0|symmetry; apply app_nil_r|now left]. }
  unfold place.
  destruct (remainder_ =? 0)%N; simpl; [exact Hstay|].
  destruct (is_immediate_or_cancel _); simpl.
  { exists qs1.
    eapply settle;
      [exact Hm|eapply queues_served_frame; eauto|reflexivity
      |apply Hcancel]. }
  unfold block_pool.emplace.
  destruct (block_pool.first_free (pool_ b1)) as [h|] eqn:Hff; simpl;
    [|exact Hstay].
  apply first_free_lookup in Hff.
  step_with level_at_ensures.
  intros [f t] [H0 Hlv]. simpl in Hlv.
  pose proof Hm as ((Hq1 & Hd1) & _).
  destruct (Forall2_lookup_l _ _ _ _ _ Hq1 Hlv) as (hs & Hhs & Hc & Hl).
  simpl in Hc, Hl.
  pose proof (lookup_lt_Some _ _ _ Hff) as Hlt.
  set (new := {| quantity := remainder_;
                 owner := limit_order_message.owner order;
                 successor := None |}).
  set (report := order_report execution_report.placement order remainder_
                              (Z.of_nat h)).
  assert (Hplaced : closing order [report]).
  { right. do 3 eexists. split; [reflexivity|discriminate]. }
  assert (Hnew : <[h := Some new]> (pool_ b1) !! h = Some (Some new)).
  { now apply list_lookup_insert_eq. }
  assert (Hfresh : h ∉ hs).
  { intros Hin. destruct (chain_allocated _ _ _ _ Hc Hin) as (r & Hr).
    congruence. }
  eapply ensures_bind with
    (P' := fun b2 =>
             settled decode order b qs b2
               (<[Z.to_nat limit_index_ := hs ++ [h]]> qs1) fs).
  - destruct f as [x|]; simpl.
    + step_with block_at_ensures.
      intros [t' last_] [Ht Hlast]. simpl in Ht, Hlast.
      rewrite Hl in Ht. apply last_Some in Ht as (hs0 & ->).
      assert (Hne : t' <> h).
      { intros ->. apply Hfresh. apply elem_of_app. right. constructor. }
      rewrite list_lookup_insert_ne in Hlast by congruence.
      simpl. eapply settle; [exact Hm| |reflexivity|exact Hplaced].
      eapply (append_served b qs b1 _ qs1 fs remainder_ _
                (hs0 ++ [t']) h (Some x, Some h));
        eauto; simpl.
      * split; simpl.
        -- rewrite <- app_assoc. simpl.
           eapply chain_append; eauto.
           ++ now apply chain_update_other.
           ++ eapply concat_NoDup_level; eauto.
           ++ rewrite list_lookup_insert_ne by congruence. exact Hlast.
        -- symmetry. apply last_snoc.
      * intros h0 r Hr. destruct (decide (h0 = t')) as [->|Hne'].
        -- rewrite list_lookup_insert_eq
             by (rewrite length_insert; eapply lookup_lt_Some; eauto).
           eexists. split; [reflexivity|]. simpl.
           rewrite Hlast in Hr. inversion Hr; subst r.
           split; [reflexivity|]. intros Hn. exfalso. apply Hn.
           apply elem_of_app. right. constructor.
        -- rewrite list_lookup_insert_ne by congruence.
           rewrite list_lookup_insert_ne by congruence. eauto.
    + inversion Hc; subst hs. simpl.
      eapply settle; [exact Hm| |reflexivity|exact Hplaced].
      eapply (append_served b qs b1 _ qs1 fs remainder_ _
                [] h (Some h, Some h));
        eauto; simpl.
      * split; simpl; [|reflexivity].
        econstructor; [exact Hnew|]. constructor.
      * intros h0 r Hr. rewrite list_lookup_insert_ne by congruence. eauto.
  - intros b2 Hb2.
    destruct (limit_order_message.side order); simpl;
      eexists; eapply settled_frame; eauto.
Qed.

(** One [insert] on a book with intact queues. *)
Lemma insert_settled (encode : quote -> option Z) (b : book)
  (qs : list (list index)) :
  intact b qs ->
  ensures (insert encode decode b order)
    (fun b' => exists qs' fs, settled decode order b qs b' qs' fs)
    (fun b' => exists qs' fs, settled decode order b qs b' qs' fs).
Proof.
  intros Hi.
  pose proof (matching_start b qs
                (limit_order_message.quantity order) Hi) as Hm.
  pose proof (matching_queues_served _ _ _ _ _ _ Hm) as Hs.
  assert (Hone : forall state q i,
            state <> execution_report.match_ ->
            exists qs' fs,
              settled decode order b qs
                (emplace_back b (order_report state order q i)) qs' fs).
  { intros state q i Hstate. exists qs, [].
    eapply settle; [exact Hm| |reflexivity|].
    - eapply queues_served_frame; eauto.
    - right. eauto. }
  assert (Hplace : forall i r b1 qs1 fs,
            matching decode order b qs b1 qs1 fs r ->
            ensures (place order i r b1)
              (fun b' => exists qs' fs, settled decode order b qs b' qs' fs)
              (fun b' => exists qs' fs, settled decode order b qs b' qs' fs)).
  { intros i r b1 qs1 fs H1.
    eapply ensures_weaken; [eapply place_settled; exact H1| |];
      intros b' (qs' & H'); eauto. }
  unfold insert.
  destruct (negb _ || _); simpl; [apply Hone; discriminate|].
  destruct (encode _) as [limit_index_|]; simpl; [|exact I].
  destruct (negb _); simpl; [exact I|].
  assert (Hun : ensures
            (if is_immediate_or_cancel (limit_order_message.lifetime order)
                || is_fill_or_kill (limit_order_message.lifetime order)
             then Returns
                    (emplace_back b
                       (order_report execution_report.cancel order
                          (limit_order_message.quantity order)
                          no_identifier))
             else place order limit_index_
                    (limit_order_message.quantity order) b)
            (fun b' => exists qs' fs, settled decode order b qs b' qs' fs)
            (fun b' => exists qs' fs, settled decode order b qs b' qs' fs)).
  { destruct (_ || _); simpl; [apply Hone; discriminate|].
    eapply Hplace; eauto. }
  destruct (limit_order_message.side order).
  - step_with ask_ensures. intros a _.
    destruct a as [best|]; [|exact Hun].
    destruct (quote_geb _ _); [|exact Hun].
    eapply ensures_bind.
    + eapply ensures_weaken;
        [eapply buyer_aggressor_matching; exact Hm| |].
      * intros br H. exact H.
      * intros b' [].
    + intros [b1 r1] (qs1 & fs1 & Hm1). simpl in *. eapply Hplace; eauto.
  - step_with bid_ensures. intros a _.
    destruct a as [best|]; [|exact Hun].
    eapply ensures_bind.
    + eapply ensures_weaken;
        [eapply seller_aggressor_matching; exact Hm| |].
      * intros br H. exact H.
      * intros b' [].
    + intros [b1 r1] (qs1 & fs1 & Hm1). simpl in *. eapply Hplace; eauto.
Qed.

End Queues.

(** The queues of a new book are empty, hence intact. *)
Lemma new_book_intact (max_orders_ : nat) (minimum maximum : quote)
  (b : book) :
  new_book max_orders_ minimum maximum = Some b ->
  intact b (replicate (length (limits_ b)) []).
Proof.
  unfold new_book. destruct (_ || _); [discriminate|].
  intros H. inversion H; subst b; clear H. simpl.
  rewrite length_replicate.
  generalize (Z.to_nat (span minimum maximum)). intros n. split.
  - induction n as [|n IH]; simpl; constructor; auto.
    split; [constructor|reflexivity].
  - induction n as [|n IH]; simpl; [constructor|exact IH].
Qed.

(** Calls of [insert] alone, on a new book, leave its queues intact. *)
Lemma inserts_intact (max_orders_ : nat) (minimum maximum : quote)
  (orders : list limit_order_message.t) (b : book) :
  final (inserts (new_book max_orders_ minimum maximum) orders) = Some b ->
  exists qs, intact b qs.
Proof.
  unfold inserts.
  destruct (new_book max_orders_ minimum maximum) as [b0|] eqn:E;
    [|discriminate].
  apply new_book_intact in E.
  assert (H0 : ensures (Returns b0) (fun b => exists qs, intact b qs)
                 (fun b => exists qs, intact b qs)) by (simpl; eauto).
  revert H0. generalize (Returns b0). clear E.
  induction orders as [|order orders IH]; intros r Hr Hf; simpl in *.
  - destruct r; simpl in *; inversion Hf; subst; exact Hr.
  - apply (IH (do b1 <- r; book_insert b1 order)); [|exact Hf].
    eapply ensures_bind; [exact Hr|].
    intros b1 (qs1 & H1). unfold book_insert.
    eapply ensures_weaken; [eapply insert_settled; exact H1| |];
      intros b2 (qs2 & fs2 & (H2 & _) & _); eauto.
Qed.

(** ** Enough fuel *)

Lemma terminates_bind {A B : Type} (m : result A) (k : A -> result B) :
  terminates m -> (forall a, m = Returns a -> terminates (k a)) ->
  terminates (bind m k).
Proof.
  unfold terminates. destruct m as [a|b|f]; simpl; intros Hm Hk.
  - now apply Hk.
  - discriminate.
  - intros H. apply Hm. inversion H. reflexivity.
Qed.

Lemma level_at_terminates (l : list limit_type) (i : Z) :
  terminates (level_at l i).
Proof.
  unfold terminates, level_at.
  destruct (0 <=? i); [|discriminate].
  destruct (l !! Z.to_nat i); discriminate.
Qed.

Lemma advance_ask_terminates (n : nat) (l : list limit_type) (a : Z) :
  terminates (advance_ask n l a).
Proof.
  revert a. induction n as [|n IH]; intros a; simpl; [discriminate|].
  apply terminates_bind; [apply level_at_terminates|]. intros lv _.
  destruct (_ || _); [discriminate|apply IH].
Qed.

Lemma advance_bid_terminates (n : nat) (l : list limit_type) (a : Z) :
  terminates (advance_bid n l a).
Proof.
  revert a. induction n as [|n IH]; intros a; simpl; [discriminate|].
  apply terminates_bind; [apply level_at_terminates|]. intros lv _.
  destruct (_ || _); [discriminate|apply IH].
Qed.

(** One pass of the loop ends when the passes that follow end on chains of
    at most [n] blocks. *)
Lemma match_pass_terminates (decode : Z -> quote)
  (next : record_pointer -> N -> book -> result (book * N)) (n : nat)
  (order : limit_order_message.t) (level : Z) (ao : record_pointer)
  (remainder_ : N) (b : book) (hs : list index) :
  (forall s remainder' b' hs',
     chain (pool_ b') (Some s) hs' -> (length hs' <= n)%nat ->
     terminates (next (Some s) remainder' b')) ->
  chain (pool_ b) ao hs ->
  (length hs <= S n)%nat ->
  terminates (match_pass decode next order level ao remainder_ b).
Proof.
  intros Hnext Hc Hn. unfold match_pass.
  destruct (remainder_ =? 0)%N; [discriminate|].
  unfold block_at. destruct ao as [h|]; [|discriminate].
  inversion Hc as [|h' r hs' Hh Hc']; subst.
  unfold block_pool.get. rewrite Hh. simpl.
  apply terminates_bind; [apply level_at_terminates|]. intros lv _.
  assert (Hrec : forall s q' lv' rep1 rep2 rem',
    successor r = Some s ->
    (q' <= quantity r)%N ->
    terminates
      (next (Some s) rem'
         (emplace_back
            (emplace_back
               (set_limits
                  (set_pool b
                     (<[h := Some {| quantity := q'; owner := owner r;
                                     successor := successor r |}]>
                        (pool_ b)))
                  (set_level (limits_ b) level lv'))
               rep1) rep2))).
  { intros s q' lv' rep1 rep2 rem' Hs Hq.
    eapply Hnext; [|simpl in Hn; apply le_S_n; exact Hn].
    simpl. rewrite <- Hs. eapply chain_shrinks; [|exact Hc'].
    eapply pool_shrinks_update; [exact Hh|].
    unfold shrinks. simpl. auto. }
  destruct (remainder_ <? quantity r)%N; simpl.
  - destruct (successor r) as [s|] eqn:Hs; [apply (Hrec s); auto; lia|].
    destruct (_ =? 0)%N; [|discriminate].
    destruct (limit_order_message.side order);
      (apply terminates_bind;
       [apply advance_ask_terminates || apply advance_bid_terminates|]);
      discriminate.
  - destruct (successor r) as [s|] eqn:Hs; [apply (Hrec s); auto; lia|].
    simpl.
    destruct (limit_order_message.side order);
      (apply terminates_bind;
       [apply advance_ask_terminates || apply advance_bid_terminates|]);
      discriminate.
Qed.

(** The loop of [match_at_level] ends on a chain that ends: the fuel is
    enough when the chain has at most one block more. *)
Lemma match_loop_terminates (decode : Z -> quote) (fuel : nat)
  (order : limit_order_message.t) (level : Z) (ao : record_pointer)
  (remainder_ : N) (b : book) (hs : list index) :
  chain (pool_ b) ao hs ->
  (length hs <= S fuel)%nat ->
  terminates (match_loop decode fuel order level ao remainder_ b).
Proof.
  revert ao remainder_ b hs.
  induction fuel as [|fuel IH]; intros ao remainder_ b hs Hc Hn; simpl;
    eapply match_pass_terminates; eauto.
  intros s remainder' b' hs' Hc' Hn'. inversion Hc'; subst.
  simpl in Hn'. lia.
Qed.

(** On a book with intact queues the fuel of [match_at_level], the size of
    the pool, is enough. *)
Lemma match_at_level_terminates (decode : Z -> quote)
  (order : limit_order_message.t) (remainder_ : N) (level : Z) (b : book)
  (qs : list (list index)) :
  intact b qs ->
  terminates (match_at_level decode order remainder_ level b).
Proof.
  intros (Hq & Hd). unfold match_at_level.
  apply terminates_bind; [apply level_at_terminates|].
  intros lv Hlv. unfold level_at in Hlv.
  destruct (0 <=? level); [|discriminate].
  destruct (limits_ b !! Z.to_nat level) as [lv'|] eqn:E; [|discriminate].
  inversion Hlv; subst lv'.
  destruct (Forall2_lookup_l _ _ _ _ _ Hq E) as (hs & Hhs & Hc & _).
  eapply match_loop_terminates; [exact Hc|].
  apply Nat.le_le_succ_r. eapply chain_length; [exact Hc|].
  eapply concat_NoDup_level; eauto.
Qed.

(** ** Accounts of quantity *)

Lemma total_app (fs1 fs2 : list fill) :
  total (fs1 ++ fs2) = (total fs1 + total fs2)%N.
Proof.
  induction fs1 as [|f fs1 IH]; simpl; [reflexivity|]. rewrite IH. lia.
Qed.

Lemma resting_insert (p : list (option record)) (h : index)
  (x y : option record) :
  p !! h = Some x ->
  (resting (<[h := y]> p) + weight x = resting p + weight y)%N.
Proof.
  revert h. induction p as [|z p IH]; intros h Hh; [discriminate|].
  destruct h as [|h]; simpl in *.
  - inversion Hh; subst. lia.
  - specialize (IH h Hh). lia.
Qed.

Lemma free_blocks_insert (p : list (option record)) (h : index)
  (x y : option record) :
  p !! h = Some x ->
  (free_blocks (<[h := y]> p) + vacancy x
   = free_blocks p + vacancy y)%nat.
Proof.
  revert h. induction p as [|z p IH]; intros h Hh; [discriminate|].
  destruct h as [|h]; simpl in *.
  - inversion Hh; subst. lia.
  - specialize (IH h Hh). lia.
Qed.

Lemma pool_shrinks_free_blocks (p p' : list (option record)) :
  pool_shrinks p p' -> free_blocks p' = free_blocks p.
Proof.
  unfold pool_shrinks. induction 1 as [|x y l k Hxy _ IH]; [reflexivity|].
  simpl. rewrite IH. destruct Hxy; reflexivity.
Qed.

Lemma pool_shrinks_first_free (p p' : list (option record)) :
  pool_shrinks p p' -> block_pool.first_free p' = block_pool.first_free p.
Proof.
  unfold pool_shrinks. induction 1 as [|x y l k Hxy _ IH]; [reflexivity|].
  destruct Hxy; simpl; [|reflexivity]. now rewrite IH.
Qed.

Lemma first_free_None (p : list (option record)) (h : index) :
  block_pool.first_free p = None -> p !! h <> Some None.
Proof.
  revert h. induction p as [|[r|] p IH]; intros h H; simpl in *.
  - discriminate.
  - destruct h as [|h]; simpl; [discriminate|]. apply IH.
    destruct (block_pool.first_free p); [discriminate|reflexivity].
  - discriminate.
Qed.

Lemma ascending_app (l1 l2 : list Z) :
  ascending l1 -> ascending l2 ->
  (forall x y, x ∈ l1 -> y ∈ l2 -> x <= y) ->
  ascending (l1 ++ l2).
Proof.
  intros H1 H2 H12 i j x y Hij Hi Hj.
  destruct (lookup_app_Some l1 l2 i x) as [[Hx|[Hli Hx]] _]; [exact Hi| |];
    destruct (lookup_app_Some l1 l2 j y) as [[Hy|[Hlj Hy]] _];
    try exact Hj.
  - eapply H1; eauto.
  - apply H12; eapply list_elem_of_lookup_2; eauto.
  - apply lookup_lt_Some in Hy. lia.
  - eapply (H2 (i - length l1)%nat (j - length l1)%nat); eauto. lia.
Qed.

Lemma descending_app (l1 l2 : list Z) :
  descending l1 -> descending l2 ->
  (forall x y, x ∈ l1 -> y ∈ l2 -> y <= x) ->
  descending (l1 ++ l2).
Proof.
  intros H1 H2 H12 i j x y Hij Hi Hj.
  destruct (lookup_app_Some l1 l2 i x) as [[Hx|[Hli Hx]] _]; [exact Hi| |];
    destruct (lookup_app_Some l1 l2 j y) as [[Hy|[Hlj Hy]] _];
    try exact Hj.
  - eapply H1; eauto.
  - apply H12; eapply list_elem_of_lookup_2; eauto.
  - apply lookup_lt_Some in Hy. lia.
  - eapply (H2 (i - length l1)%nat (j - length l1)%nat); eauto. lia.
Qed.

Lemma constant_ascending (c : Z) (l : list Z) :
  Forall (fun x => x = c) l -> ascending l /\ descending l.
Proof.
  intros H. rewrite Forall_lookup in H.
  split; intros i j x y _ Hi Hj;
    rewrite (H i x Hi), (H j y Hj); lia.
Qed.

(** ** The loops that move the cursors *)

(** The loop for [best_ask_] passes only levels that are empty and not the
    last one. *)
Lemma advance_ask_passes (n : nat) (l : list limit_type) (a : Z) :
  ensures (advance_ask n l a)
    (fun a' =>
       a <= a' <= a + Z.of_nat n
       /\ (forall i, a <= i < a' ->
             0 <= i /\ i <> back l
             /\ exists lv, l !! Z.to_nat i = Some lv /\ fst lv = None)
       /\ (a' < a + Z.of_nat n ->
             0 <= a'
             /\ exists lv, l !! Z.to_nat a' = Some lv
                           /\ (has_value (fst lv) = true \/ a' = back l)))
    (fun _ => False).
Proof.
  revert a. induction n as [|n IH]; intros a; simpl.
  { split; [lia|]. split; intros; lia. }
  step_with level_at_ensures. intros lv [H0 Hlv].
  destruct (has_value (fst lv)) eqn:Hv; simpl.
  { split; [lia|]. split; [intros; lia|]. intros _. split; [exact H0|].
    exists lv. auto. }
  destruct (Z.eqb_spec a (back l)) as [Hb|Hb]; simpl.
  { split; [lia|]. split; [intros; lia|]. intros _. split; [exact H0|].
    exists lv. auto. }
  eapply ensures_weaken; [apply IH| |auto].
  intros a' (Hr & Hp & Hs). split; [lia|]. split.
  - intros i Hi. destruct (Z.eq_dec i a) as [->|Hne].
    + split; [exact H0|]. split; [exact Hb|]. exists lv. split; [exact Hlv|].
      destruct (fst lv); [discriminate|reflexivity].
    + apply Hp. lia.
  - intros Hlt. apply Hs. lia.
Qed.

(** The loop for [best_bid_] passes only levels that are empty and not the
    first one. *)
Lemma advance_bid_passes (n : nat) (l : list limit_type) (a : Z) :
  ensures (advance_bid n l a)
    (fun a' =>
       a - Z.of_nat n <= a' <= a
       /\ (forall i, a' < i <= a ->
             0 < i
             /\ exists lv, l !! Z.to_nat i = Some lv /\ fst lv = None)
       /\ (a - Z.of_nat n < a' ->
             0 <= a'
             /\ exists lv, l !! Z.to_nat a' = Some lv
                           /\ (has_value (fst lv) = true \/ a' = 0)))
    (fun _ => False).
Proof.
  revert a. induction n as [|n IH]; intros a; simpl.
  { split; [lia|]. split; intros; lia. }
  step_with level_at_ensures. intros lv [H0 Hlv].
  destruct (has_value (fst lv)) eqn:Hv; simpl.
  { split; [lia|]. split; [intros; lia|]. intros _. split; [exact H0|].
    exists lv. auto. }
  destruct (Z.eqb_spec a 0) as [Hb|Hb]; simpl.
  { split; [lia|]. split; [intros; lia|]. intros _. split; [exact H0|].
    exists lv. auto. }
  eapply ensures_weaken; [apply IH| |auto].
  intros a' (Hr & Hp & Hs). split; [lia|]. split.
  - intros i Hi. destruct (Z.eq_dec i a) as [->|Hne].
    + split; [lia|]. exists lv. split; [exact Hlv|].
      destruct (fst lv); [discriminate|reflexivity].
    + apply Hp. lia.
  - intros Hlt. apply Hs. lia.
Qed.

(** ** The accounts of one insert *)

Section Accounts.
Variable decode : Z -> quote.
Variable order : limit_order_message.t.

Lemma executed_refl (b : book) (remainder_ : N) :
  executed decode order [] b b remainder_ remainder_.
Proof.
  unfold executed, fills_reports. simpl. rewrite app_nil_r.
  repeat split; auto with book; try lia.
  destruct (limit_order_message.side order); split; reflexivity || lia.
Qed.

Lemma executed_trans (fs1 fs2 : list fill) (b1 b2 b3 : book)
  (r1 r2 r3 : N) :
  executed decode order fs1 b1 b2 r1 r2 ->
  executed decode order fs2 b2 b3 r2 r3 ->
  executed decode order (fs1 ++ fs2) b1 b3 r1 r3.
Proof.
  unfold executed, fills_reports.
  intros (R1 & T1 & W1 & P1 & N1 & V1 & K1 & C1)
         (R2 & T2 & W2 & P2 & N2 & V2 & K2 & C2).
  rewrite total_app. repeat split; try lia; try congruence.
  - rewrite R2, R1, map_app, concat_app, app_assoc. reflexivity.
  - eapply pool_shrinks_trans; eauto.
  - destruct (limit_order_message.side order); split; lia.
Qed.

(** A change of the levels, or of a cursor in its direction, is no
    execution. *)
Lemma executed_frame (fs : list fill) (b b1 b2 : book) (r r' : N) :
  executed decode order fs b b1 r r' ->
  reports b2 = reports b1 -> pool_ b2 = pool_ b1 ->
  length (limits_ b2) = length (limits_ b1) ->
  valid_limits b2 = valid_limits b1 -> ticks b2 = ticks b1 ->
  match limit_order_message.side order with
  | limit_order_message.buy =>
      best_bid_ b2 = best_bid_ b1 /\ best_ask_ b1 <= best_ask_ b2
  | limit_order_message.sell =>
      best_ask_ b2 = best_ask_ b1 /\ best_bid_ b2 <= best_bid_ b1
  end ->
  executed decode order fs b b2 r r'.
Proof.
  unfold executed. intros (R & T & W & P & N & V & K & C) HR HP HN HV HK HC.
  rewrite HR, HP, HN, HV, HK. repeat split; auto.
  destruct (limit_order_message.side order); split; lia.
Qed.

(** One pass of the loop of [match_at_level] takes from the order what it
    takes from the block. *)
Lemma match_pass_executed
  (next : record_pointer -> N -> book -> result (book * N)) (level : Z) :
  (forall ao remainder_ b,
     ensures (next ao remainder_ b)
       (fun br => exists fs,
          executed decode order fs b (fst br) remainder_ (snd br)
          /\ Forall (fun f => fill_level f = level) fs)
       (fun _ => False)) ->
  forall ao remainder_ b,
    ensures (match_pass decode next order level ao remainder_ b)
      (fun br => exists fs,
         executed decode order fs b (fst br) remainder_ (snd br)
         /\ Forall (fun f => fill_level f = level) fs)
      (fun _ => False).
Proof.
  intros Hnext ao remainder_ b. unfold match_pass.
  destruct (remainder_ =? 0)%N; simpl.
  { exists []. split; [apply executed_refl|constructor]. }
  step_with block_at_ensures.
  intros [h r] [_ Hh]. simpl in Hh.
  step_with level_at_ensures.
  intros lv [Hl0 Hlv].
  set (size := if (remainder_ <? quantity r)%N then remainder_
               else quantity r).
  assert (Hstep : forall lv' q' rem' b2,
    (q' + size = quantity r)%N -> (rem' + size = remainder_)%N ->
    b2 = emplace_back
           (emplace_back
              (set_limits
                 (set_pool b
                    (<[h := Some {| quantity := q'; owner := owner r;
                                    successor := successor r |}]>
                       (pool_ b)))
                 (set_level (limits_ b) level lv'))
              (aggressor_report order size (decode level)))
           (supplier_report order size (decode level) h (owner r)) ->
    executed decode order [Fill level size h (owner r)] b b2
             remainder_ rem').
  { intros lv' q' rem' b2 Hq Hs ->. unfold executed, fills_reports. simpl.
    rewrite <- app_assoc. simpl.
    pose proof (resting_insert (pool_ b) h (Some r)
                  (Some {| quantity := q'; owner := owner r;
                           successor := successor r |}) Hh) as Hw.
    simpl in Hw.
    repeat split; try lia.
    - eapply pool_shrinks_update; [exact Hh|].
      unfold shrinks. simpl. repeat split; lia.
    - apply set_level_length.
    - destruct (limit_order_message.side order); split; reflexivity || lia. }
  assert (Hlevel : Forall (fun f => fill_level f = level)
                     [Fill level size h (owner r)]).
  { constructor; [reflexivity|constructor]. }
  assert (Hrec : forall b2 rem',
    executed decode order [Fill level size h (owner r)] b b2
             remainder_ rem' ->
    ensures (next (successor r) rem' b2)
      (fun br => exists fs,
         executed decode order fs b (fst br) remainder_ (snd br)
         /\ Forall (fun f => fill_level f = level) fs)
      (fun _ => False)).
  { intros b2 rem' Hm. eapply ensures_weaken; [apply Hnext| |auto].
    intros [b' r'] (fs & Hm' & Hf). simpl in *.
    eexists. split; [eapply executed_trans; eauto|].
    apply Forall_app; auto. }
  destruct (N.ltb_spec remainder_ (quantity r)) as [Hlt|Hge]; simpl.
  - subst size.
    specialize (Hstep lv (quantity r - remainder_)%N 0%N _ ltac:(lia)
                  ltac:(lia) eq_refl).
    destruct (successor r) as [s|] eqn:Hs; [apply Hrec; exact Hstep|].
    destruct (N.eqb_spec (quantity r - remainder_) 0); [lia|]. simpl.
    eexists. split; [exact Hstep|exact Hlevel].
  - subst size.
    specialize (Hstep (successor r, snd lv) 0%N
                  (remainder_ - quantity r)%N _ ltac:(lia)
                  ltac:(lia) eq_refl).
    destruct (successor r) as [s|] eqn:Hs; [apply Hrec; exact Hstep|].
    simpl. destruct (limit_order_message.side order) eqn:Hside.
    + step_with advance_ask_passes. intros a (Ha & _).
      simpl. eexists. split; [|exact Hlevel].
      eapply executed_frame; [exact Hstep| | | | | |]; simpl; auto.
      * now rewrite set_level_length.
      * rewrite Hside. split; [reflexivity|lia].
    + step_with advance_bid_passes. intros a (Ha & _).
      simpl. eexists. split; [|exact Hlevel].
      eapply executed_frame; [exact Hstep| | | | | |]; simpl; auto.
      * now rewrite set_level_length.
      * rewrite Hside. split; [reflexivity|lia].
Qed.

Lemma match_loop_executed (fuel : nat) (level : Z) (ao : record_pointer)
  (remainder_ : N) (b : book) :
  ensures (match_loop decode fuel order level ao remainder_ b)
    (fun br => exists fs,
       executed decode order fs b (fst br) remainder_ (snd br)
       /\ Forall (fun f => fill_level f = level) fs)
    (fun _ => False).
Proof.
  revert ao remainder_ b.
  induction fuel as [|fuel IH]; simpl; apply match_pass_executed.
  - intros ao remainder_ b. exact I.
  - exact IH.
Qed.

Lemma match_at_level_executed (remainder_ : N) (level : Z) (b : book) :
  ensures (match_at_level decode order remainder_ level b)
    (fun br => exists fs,
       executed decode order fs b (fst br) remainder_ (snd br)
       /\ Forall (fun f => fill_level f = level) fs)
    (fun _ => False).
Proof.
  unfold match_at_level.
  step_with level_at_ensures. intros lv _.
  apply match_loop_executed.
Qed.

(** The buyer takes the levels from [al] upwards, the seller from [bl]
    downwards. *)
Lemma buyer_aggressor_executed (n : nat) (al : Z) (remainder_ : N)
  (b : book) :
  ensures (buyer_aggressor decode n order al remainder_ b)
    (fun br => exists fs,
       executed decode order fs b (fst br) remainder_ (snd br)
       /\ Forall (fun f => al <= fill_level f < al + Z.of_nat n) fs
       /\ ascending (map fill_level fs))
    (fun _ => False).
Proof.
  revert al remainder_ b.
  assert (Hnil : forall al m b remainder_,
    exists fs,
      executed decode order fs b b remainder_ remainder_
      /\ Forall (fun f => al <= fill_level f < al + Z.of_nat m) fs
      /\ ascending (map fill_level fs)).
  { intros al m b remainder_. exists [].
    split; [apply executed_refl|]. split; [constructor|].
    intros i j x y _ Hi. discriminate. }
  induction n as [|n IH]; intros al remainder_ b; simpl; [apply Hnil|].
  destruct (remainder_ =? 0)%N; simpl; [apply Hnil|].
  step_with level_at_ensures. intros lv _.
  destruct (has_value (fst lv)).
  - step_with match_at_level_executed.
    intros [b1 r1] (fs1 & H1 & L1). simpl in *.
    eapply ensures_weaken; [apply IH| |auto].
    intros [b2 r2] (fs2 & H2 & L2 & A2). simpl in *.
    exists (fs1 ++ fs2). split; [eapply executed_trans; eauto|]. split.
    + apply Forall_app. split.
      * eapply Forall_impl; [exact L1|]. simpl. intros f ->. lia.
      * eapply Forall_impl; [exact L2|]. simpl. intros f. lia.
    + rewrite map_app. apply ascending_app; [|exact A2|].
      * apply (constant_ascending al). apply Forall_map.
        exact L1.
      * intros x y Hx Hy.
        apply list_elem_of_fmap in Hx as (f & -> & Hf).
        apply list_elem_of_fmap in Hy as (g & -> & Hg).
        rewrite Forall_forall in L1, L2.
        rewrite (L1 f Hf). specialize (L2 g Hg). lia.
  - eapply ensures_weaken; [apply IH| |auto].
    intros [b2 r2] (fs2 & H2 & L2 & A2). simpl in *.
    exists fs2. split; [exact H2|]. split; [|exact A2].
    eapply Forall_impl; [exact L2|]. simpl. intros f. lia.
Qed.

Lemma seller_aggressor_executed (n : nat) (bl : Z) (remainder_ : N)
  (b : book) :
  ensures (seller_aggressor decode n order bl remainder_ b)
    (fun br => exists fs,
       executed decode order fs b (fst br) remainder_ (snd br)
       /\ Forall (fun f => bl - Z.of_nat n < fill_level f <= bl) fs
       /\ descending (map fill_level fs))
    (fun _ => False).
Proof.
  revert bl remainder_ b.
  assert (Hnil : forall bl m b remainder_,
    exists fs,
      executed decode order fs b b remainder_ remainder_
      /\ Forall (fun f => bl - Z.of_nat m < fill_level f <= bl) fs
      /\ descending (map fill_level fs)).
  { intros bl m b remainder_. exists [].
    split; [apply executed_refl|]. split; [constructor|].
    intros i j x y _ Hi. discriminate. }
  induction n as [|n IH]; intros bl remainder_ b; simpl; [apply Hnil|].
  destruct (remainder_ =? 0)%N; simpl; [apply Hnil|].
  step_with level_at_ensures. intros lv _.
  destruct (has_value (fst lv)).
  - step_with match_at_level_executed.
    intros [b1 r1] (fs1 & H1 & L1). simpl in *.
    eapply ensures_weaken; [apply IH| |auto].
    intros [b2 r2] (fs2 & H2 & L2 & A2). simpl in *.
    exists (fs1 ++ fs2). split; [eapply executed_trans; eauto|]. split.
    + apply Forall_app. split.
      * eapply Forall_impl; [exact L1|]. simpl. intros f ->. lia.
      * eapply Forall_impl; [exact L2|]. simpl. intros f. lia.
    + rewrite map_app. apply descending_app; [|exact A2|].
      * apply (constant_ascending bl). apply Forall_map.
        exact L1.
      * intros x y Hx Hy.
        apply list_elem_of_fmap in Hx as (f & -> & Hf).
        apply list_elem_of_fmap in Hy as (g & -> & Hg).
        rewrite Forall_forall in L1, L2.
        rewrite (L1 f Hf). specialize (L2 g Hg). lia.
  - eapply ensures_weaken; [apply IH| |auto].
    intros [b2 r2] (fs2 & H2 & L2 & A2). simpl in *.
    exists fs2. split; [exact H2|]. split; [|exact A2].
    eapply Forall_impl; [exact L2|]. simpl. intros f. lia.
Qed.

End Accounts.

(** ** The levels through the executions *)

Lemma ensures_and {A : Type} (r : result A) (P P' : A -> Prop)
  (Q Q' : book -> Prop) :
  ensures r P Q -> ensures r P' Q' ->
  ensures r (fun a => P a /\ P' a) (fun b => Q b /\ Q' b).
Proof. destruct r; simpl; auto. Qed.

Section Levels.
Variable decode : Z -> quote.
Variable order : limit_order_message.t.

(** One pass of the loop of [match_at_level] changes no other level, and
    the loop ends with the order used up or with the level reset. *)
Lemma match_pass_sweeps
  (next : record_pointer -> N -> book -> result (book * N)) (level : Z) :
  (forall ao remainder_ b,
     ensures (next ao remainder_ b)
       (fun br =>
          (forall i, i <> Z.to_nat level ->
                     limits_ (fst br) !! i = limits_ b !! i)
          /\ (snd br = 0%N
              \/ limits_ (fst br) !! Z.to_nat level = Some (None, None)))
       (fun _ => False)) ->
  forall ao remainder_ b,
    ensures (match_pass decode next order level ao remainder_ b)
      (fun br =>
         (forall i, i <> Z.to_nat level ->
                    limits_ (fst br) !! i = limits_ b !! i)
         /\ (snd br = 0%N
             \/ limits_ (fst br) !! Z.to_nat level = Some (None, None)))
      (fun _ => False).
Proof.
  intros Hnext ao remainder_ b. unfold match_pass.
  destruct (N.eqb_spec remainder_ 0) as [->|Hrem]; simpl; [auto|].
  step_with block_at_ensures.
  intros [h r] _.
  step_with level_at_ensures.
  intros lv [Hl0 Hlv].
  assert (Hlen : (Z.to_nat level < length (limits_ b))%nat)
    by (eapply lookup_lt_Some; eauto).
  assert (Hrec : forall b2 rem',
    (forall i, i <> Z.to_nat level -> limits_ b2 !! i = limits_ b !! i) ->
    ensures (next (successor r) rem' b2)
      (fun br =>
         (forall i, i <> Z.to_nat level ->
                    limits_ (fst br) !! i = limits_ b !! i)
         /\ (snd br = 0%N
             \/ limits_ (fst br) !! Z.to_nat level = Some (None, None)))
      (fun _ => False)).
  { intros b2 rem' Hfr. eapply ensures_weaken; [apply Hnext| |auto].
    intros [b' r'] (Hfr' & Hd). simpl in *. split; [|exact Hd].
    intros i Hi. rewrite Hfr' by exact Hi. now apply Hfr. }
  assert (Hother : forall lv' i, i <> Z.to_nat level ->
            set_level (limits_ b) level lv' !! i = limits_ b !! i).
  { intros lv' i Hi. unfold set_level.
    apply list_lookup_insert_ne. congruence. }
  destruct (N.ltb_spec remainder_ (quantity r)) as [Hlt|Hge]; simpl.
  - destruct (successor r) as [s|] eqn:Hs;
      [apply Hrec; simpl; apply Hother|].
    destruct (N.eqb_spec (quantity r - remainder_) 0); [lia|]. simpl.
    split; [apply Hother|auto].
  - destruct (successor r) as [s|] eqn:Hs;
      [apply Hrec; simpl; apply Hother|].
    simpl.
    assert (Hreset : forall lv' i,
      i <> Z.to_nat level ->
      set_level (set_level (limits_ b) level lv') level (None, None) !! i
      = limits_ b !! i).
    { intros lv' i Hi. unfold set_level.
      rewrite !list_lookup_insert_ne by congruence. reflexivity. }
    assert (Hnone : forall lv',
      set_level (set_level (limits_ b) level lv') level (None, None)
        !! Z.to_nat level = Some (None, None)).
    { intros lv'. unfold set_level. apply list_lookup_insert_eq.
      now rewrite length_insert. }
    destruct (limit_order_message.side order).
    + step_with advance_ask_ensures. intros a _. simpl.
      split; [apply Hreset|right; apply Hnone].
    + step_with advance_bid_ensures. intros a _. simpl.
      split; [apply Hreset|right; apply Hnone].
Qed.

Lemma match_loop_sweeps (fuel : nat) (level : Z) (ao : record_pointer)
  (remainder_ : N) (b : book) :
  ensures (match_loop decode fuel order level ao remainder_ b)
    (fun br =>
       (forall i, i <> Z.to_nat level ->
                  limits_ (fst br) !! i = limits_ b !! i)
       /\ (snd br = 0%N
           \/ limits_ (fst br) !! Z.to_nat level = Some (None, None)))
    (fun _ => False).
Proof.
  revert ao remainder_ b.
  induction fuel as [|fuel IH]; simpl; apply match_pass_sweeps.
  - intros ao remainder_ b. exact I.
  - exact IH.
Qed.

Lemma match_at_level_sweeps (remainder_ : N) (level : Z) (b : book) :
  ensures (match_at_level decode order remainder_ level b)
    (fun br =>
       (forall i, i <> Z.to_nat level ->
                  limits_ (fst br) !! i = limits_ b !! i)
       /\ (snd br = 0%N
           \/ limits_ (fst br) !! Z.to_nat level = Some (None, None)))
    (fun _ => False).
Proof.
  unfold match_at_level.
  step_with level_at_ensures. intros lv _.
  apply match_loop_sweeps.
Qed.

Lemma buyer_aggressor_done (n : nat) (al : Z) (b : book) :
  buyer_aggressor decode n order al 0%N b = Returns (b, 0%N).
Proof. destruct n; reflexivity. Qed.

Lemma seller_aggressor_done (n : nat) (bl : Z) (b : book) :
  seller_aggressor decode n order bl 0%N b = Returns (b, 0%N).
Proof. destruct n; reflexivity. Qed.

(** The buyer leaves no level that it has visited with an order, unless
    the order is used up. *)
Lemma buyer_aggressor_sweeps (n : nat) (al : Z) (remainder_ : N)
  (b : book) :
  ensures (buyer_aggressor decode n order al remainder_ b)
    (fun br =>
       (forall i, Z.of_nat i < al \/ al + Z.of_nat n <= Z.of_nat i ->
                  limits_ (fst br) !! i = limits_ b !! i)
       /\ (snd br = 0%N
           \/ forall j, al <= j < al + Z.of_nat n ->
                        vacant (limits_ (fst br)) j))
    (fun _ => False).
Proof.
  revert al remainder_ b.
  induction n as [|n IH]; intros al remainder_ b; simpl.
  { split; [auto|]. right. intros; lia. }
  destruct (N.eqb_spec remainder_ 0) as [->|Hrem]; simpl; [auto|].
  step_with level_at_ensures. intros lv [H0 Hlv].
  destruct (has_value (fst lv)) eqn:Hv.
  - step_with match_at_level_sweeps.
    intros [b1 r1] (Hfr1 & Hd1). simpl in *.
    destruct Hd1 as [->|Hnone].
    { rewrite buyer_aggressor_done. simpl. split; [|auto].
      intros i Hi. apply Hfr1. lia. }
    eapply ensures_weaken; [apply IH| |auto].
    intros [b2 r2] (Hfr2 & Hd2). simpl in *. split.
    + intros i Hi. rewrite Hfr2 by lia. apply Hfr1. lia.
    + destruct Hd2 as [->|Hvac]; [auto|]. right. intros j Hj.
      destruct (Z.eq_dec j al) as [->|Hne]; [|apply Hvac; lia].
      exists (None, None). split; [|reflexivity].
      rewrite Hfr2 by lia. exact Hnone.
  - eapply ensures_weaken; [apply IH| |auto].
    intros [b2 r2] (Hfr2 & Hd2). simpl in *. split.
    + intros i Hi. apply Hfr2. lia.
    + destruct Hd2 as [->|Hvac]; [auto|]. right. intros j Hj.
      destruct (Z.eq_dec j al) as [->|Hne]; [|apply Hvac; lia].
      exists lv. split; [rewrite Hfr2 by lia; exact Hlv|].
      destruct (fst lv); [discriminate|reflexivity].
Qed.

Lemma seller_aggressor_sweeps (n : nat) (bl : Z) (remainder_ : N)
  (b : book) :
  ensures (seller_aggressor decode n order bl remainder_ b)
    (fun br =>
       (forall i, bl < Z.of_nat i \/ Z.of_nat i <= bl - Z.of_nat n ->
                  limits_ (fst br) !! i = limits_ b !! i)
       /\ (snd br = 0%N
           \/ forall j, bl - Z.of_nat n < j <= bl ->
                        vacant (limits_ (fst br)) j))
    (fun _ => False).
Proof.
  revert bl remainder_ b.
  induction n as [|n IH]; intros bl remainder_ b; simpl.
  { split; [auto|]. right. intros; lia. }
  destruct (N.eqb_spec remainder_ 0) as [->|Hrem]; simpl; [auto|].
  step_with level_at_ensures. intros lv [H0 Hlv].
  destruct (has_value (fst lv)) eqn:Hv.
  - step_with match_at_level_sweeps.
    intros [b1 r1] (Hfr1 & Hd1). simpl in *.
    destruct Hd1 as [->|Hnone].
    { rewrite seller_aggressor_done. simpl. split; [|auto].
      intros i Hi. apply Hfr1. lia. }
    eapply ensures_weaken; [apply IH| |auto].
    intros [b2 r2] (Hfr2 & Hd2). simpl in *. split.
    + intros i Hi. rewrite Hfr2 by lia. apply Hfr1. lia.
    + destruct Hd2 as [->|Hvac]; [auto|]. right. intros j Hj.
      destruct (Z.eq_dec j bl) as [->|Hne]; [|apply Hvac; lia].
      exists (None, None). split; [|reflexivity].
      rewrite Hfr2 by lia. exact Hnone.
  - eapply ensures_weaken; [apply IH| |auto].
    intros [b2 r2] (Hfr2 & Hd2). simpl in *. split.
    + intros i Hi. apply Hfr2. lia.
    + destruct Hd2 as [->|Hvac]; [auto|]. right. intros j Hj.
      destruct (Z.eq_dec j bl) as [->|Hne]; [|apply Hvac; lia].
      exists lv. split; [rewrite Hfr2 by lia; exact Hlv|].
      destruct (fst lv); [discriminate|reflexivity].
Qed.

End Levels.

Section Closing.
Variable decode : Z -> quote.
Variable order : limit_order_message.t.

Lemma keeps_refl (x : option record) : option_Forall2 keeps x x.
Proof. destruct x; constructor. split; reflexivity. Qed.

(** The end of [insert]: what is left of the order is cancelled or placed,
    and the pool is exhausted only when it has no free block. *)
Lemma place_closes (limit_index_ : Z) (fs : list fill) (remainder_ : N)
  (b : book) :
  ensures (place order limit_index_ remainder_ b)
    (closes order limit_index_ fs remainder_ b)
    (fun b' => b' = b /\ remainder_ <> 0%N
               /\ limit_order_message.lifetime order
                  <> limit_order_message.immediate_or_cancel
               /\ block_pool.first_free (pool_ b) = None).
Proof.
  unfold place, closes.
  destruct (N.eqb_spec remainder_ 0) as [->|Hr]; simpl; [left; auto|].
  destruct (is_immediate_or_cancel (limit_order_message.lifetime order))
    eqn:Hl; simpl.
  { right. left. split; [exact Hr|]. split; [reflexivity|]. left.
    destruct (limit_order_message.lifetime order); auto; discriminate. }
  assert (Hn : limit_order_message.lifetime order
               <> limit_order_message.immediate_or_cancel).
  { intros E. rewrite E in Hl. discriminate. }
    unfold block_pool.emplace.
    destruct (block_pool.first_free (pool_ b)) as [h|] eqn:Hf; simpl;
      [|repeat split; auto].
    pose proof (first_free_lookup _ _ Hf) as Hh.
    step_with level_at_ensures. intros lv [H0 Hlv]. simpl in Hlv.
    set (new := {| quantity := remainder_;
                   owner := limit_order_message.owner order;
                   successor := None |}).
    pose proof (resting_insert (pool_ b) h None (Some new) Hh) as Hw.
    simpl in Hw.
    eapply ensures_bind with
      (P' := fun b2 =>
         rests order limit_index_ remainder_ h b
           (match limit_order_message.side order with
            | limit_order_message.buy =>
                set_best_bid b2 (Z.max (best_bid_ b2) limit_index_)
            | limit_order_message.sell =>
                set_best_ask b2 (Z.min (best_ask_ b2) limit_index_)
            end)).
    + destruct (has_value (fst lv)) eqn:Hv; simpl.
      * step_with block_at_ensures. intros [t last] [_ Ht].
        simpl in Ht. unfold rests.
        assert (Hlen : (h < length (pool_ b))%nat)
          by (eapply lookup_lt_Some; eauto).
        split; [exact Hf|]. split.
        { destruct (limit_order_message.side order); reflexivity. }
        split.
        { destruct (decide (t = h)) as [->|Hne].
          - rewrite list_lookup_insert_eq in Ht by exact Hlen.
            inversion Ht; subst last.
            eexists. split.
            + destruct (limit_order_message.side order); simpl;
                apply list_lookup_insert_eq; now rewrite length_insert.
            + simpl. auto.
          - exists new. split; [|simpl; auto].
            destruct (limit_order_message.side order); simpl;
              (rewrite list_lookup_insert_ne by exact Hne;
               apply list_lookup_insert_eq; exact Hlen). }
        split.
        { destruct (limit_order_message.side order); simpl;
            now rewrite !length_insert. }
        split.
        { intros h' x Hne Hx.
          assert (Hx' : <[h := Some new]> (pool_ b) !! h' = Some x)
            by (rewrite list_lookup_insert_ne by congruence; exact Hx).
          destruct (decide (t = h')) as [->|Hne'].
          - rewrite Hx' in Ht. inversion Ht; subst x.
            eexists. split.
            + destruct (limit_order_message.side order); simpl;
                (apply list_lookup_insert_eq; rewrite length_insert;
                 eapply lookup_lt_Some; eauto).
            + constructor. split; reflexivity.
          - exists x. split; [|apply keeps_refl].
            destruct (limit_order_message.side order); simpl;
              (rewrite list_lookup_insert_ne by exact Hne'; exact Hx'). }
        split.
        { pose proof (resting_insert (<[h := Some new]> (pool_ b)) t
                        (Some last)
                        (Some {| quantity := quantity last;
                                 owner := owner last;
                                 successor := Some h |}) Ht) as Hw'.
          simpl in Hw'.
          destruct (limit_order_message.side order); simpl; lia. }
        split; [exact H0|]. split.
        { exists lv, (fst lv). rewrite Hv.
          destruct (limit_order_message.side order); simpl; auto. }
        split.
        { destruct (limit_order_message.side order); simpl; auto. }
        pose proof (free_blocks_insert (pool_ b) h None (Some new) Hh)
          as Hv1.
        pose proof (free_blocks_insert (<[h := Some new]> (pool_ b)) t
                      (Some last)
                      (Some {| quantity := quantity last;
                               owner := owner last;
                               successor := Some h |}) Ht) as Hv2.
        simpl in Hv1, Hv2.
        destruct (limit_order_message.side order); simpl; lia.
      * unfold rests.
        assert (Hlen : (h < length (pool_ b))%nat)
          by (eapply lookup_lt_Some; eauto).
        split; [exact Hf|]. split.
        { destruct (limit_order_message.side order); reflexivity. }
        split.
        { exists new. split; [|simpl; auto].
          destruct (limit_order_message.side order); simpl;
            apply list_lookup_insert_eq; exact Hlen. }
        split.
        { destruct (limit_order_message.side order); simpl;
            now rewrite length_insert. }
        split.
        { intros h' x Hne Hx. exists x. split; [|apply keeps_refl].
          destruct (limit_order_message.side order); simpl;
            (rewrite list_lookup_insert_ne by congruence; exact Hx). }
        split.
        { destruct (limit_order_message.side order); simpl; lia. }
        split; [exact H0|]. split.
        { exists lv, (Some h). rewrite Hv.
          destruct (limit_order_message.side order); simpl; auto. }
        split.
        { destruct (limit_order_message.side order); simpl; auto. }
        pose proof (free_blocks_insert (pool_ b) h None (Some new) Hh)
          as Hv1.
        simpl in Hv1.
        destruct (limit_order_message.side order); simpl; lia.
    + intros b2 Hb2.
      destruct (limit_order_message.side order) eqn:Hs; simpl;
        right; right; (split; [exact Hr|]); (split; [exact Hn|]);
        exists h; exact Hb2.
Qed.

End Closing.

Section Outcome.
Variable encode : quote -> option Z.
Variable decode : Z -> quote.
Variable order : limit_order_message.t.

Lemma within_limit_nil (side_ : side_t) (best limit_index_ : Z) :
  within_limit side_ best limit_index_ [].
Proof.
  destruct side_; (split; [constructor|]); intros i j x y _ Hi;
    discriminate.
Qed.

(** [insert] accounts for the order: it is reported invalid, or it is
    executed from the best price on and closed; when the pool is exhausted
    the executions stand and the rest of the order is dropped. *)
Lemma insert_accounted (b : book) :
  ensures (insert encode decode b order)
    (accounted encode decode order b) (exhausted encode decode order b).
Proof.
  unfold insert.
  destruct (negb (contains (valid_limits b)
                    (limit_order_message.limit order))) eqn:Hc; simpl.
  { left. split; [|reflexivity]. left.
    now apply negb_true_iff in Hc. }
  apply negb_false_iff in Hc.
  destruct (N.leb_spec (limit_order_message.quantity order) 0) as [Hq|Hq];
    simpl.
  { left. split; [|reflexivity]. right. lia. }
  destruct (encode (limit_order_message.limit order)) as [limit_index_|]
    eqn:He; simpl; [|exact I].
  destruct (Z.leb_spec 0 limit_index_) as [H0|]; simpl; [|exact I].
  destruct (Z.ltb_spec limit_index_ (Z.of_nat (length (limits_ b))))
    as [Hn|]; simpl; [|exact I].
  assert (Hnone : ~ engaged decode order b ->
                  entered encode decode order b limit_index_ [] b
                    (limit_order_message.quantity order)).
  { intros Hne. unfold entered.
    split; [exact Hc|]. split; [lia|]. split; [exact He|].
    split; [lia|]. split; [apply executed_refl|].
    split; [apply within_limit_nil|]. intros Hen. contradiction. }
  assert (Hplace : forall fs b1 r1,
            entered encode decode order b limit_index_ fs b1 r1 ->
            ensures (place order limit_index_ r1 b1)
              (accounted encode decode order b)
              (exhausted encode decode order b)).
  { intros fs b1 r1 Hent.
    eapply ensures_weaken; [apply (place_closes order limit_index_ fs)| |].
    - intros b' Hcl. right. exists limit_index_, fs, b1, r1. auto.
    - intros b' (-> & Hr & Hl & Hf). exists limit_index_, fs, r1. auto. }
  assert (Hun : ~ engaged decode order b ->
          ensures
            (if is_immediate_or_cancel (limit_order_message.lifetime order)
                || is_fill_or_kill (limit_order_message.lifetime order)
             then Returns
                    (emplace_back b
                       (order_report execution_report.cancel order
                          (limit_order_message.quantity order)
                          no_identifier))
             else place order limit_index_
                    (limit_order_message.quantity order) b)
            (accounted encode decode order b)
            (exhausted encode decode order b)).
  { intros Hne.
    destruct (_ || _) eqn:Hl; simpl; [|eapply Hplace; exact (Hnone Hne)].
    right. exists limit_index_, [], b, (limit_order_message.quantity order).
    split; [exact (Hnone Hne)|]. right. left. split; [lia|].
    split; [reflexivity|].
    destruct (limit_order_message.lifetime order); auto; discriminate. }
  unfold engaged in Hnone, Hun.
  destruct (limit_order_message.side order) eqn:Hside.
  - pose proof (ask_ensures decode b (fun _ => False)) as Hask.
    destruct (ask decode b) as [a|bx|f] eqn:Ea; simpl in *;
      [|contradiction|exact I].
    destruct a as [best|];
      [|apply Hun; intros (best & Hb & _); discriminate].
    destruct (quote_geb _ _) eqn:Hg;
      [|apply Hun; intros (best' & Hb & Hg'); inversion Hb; subst;
        congruence].
    eapply ensures_bind.
    + eapply ensures_weaken;
        [apply ensures_and;
         [apply buyer_aggressor_executed|apply buyer_aggressor_sweeps]| |].
      * intros br H. exact H.
      * intros b' [[] _].
    + intros [b1 r1] ((fs & Hx & Hlv & Hasc) & (Hfr & Hsw)). simpl in *.
      eapply Hplace. unfold entered. rewrite Hside.
      split; [exact Hc|]. split; [lia|]. split; [exact He|].
      split; [lia|]. split; [exact Hx|]. split; [split; [|exact Hasc]|].
      * eapply Forall_impl; [exact Hlv|]. simpl. intros f. lia.
      * intros _ Hr1 j Hj. destruct Hsw as [->|Hsw]; [contradiction|].
        apply Hsw. lia.
  - pose proof (bid_ensures decode b (fun _ => False)) as Hbid.
    destruct (bid decode b) as [a|bx|f] eqn:Ea; simpl in *;
      [|contradiction|exact I].
    destruct a as [best|];
      [|apply Hun; intros (best & Hb); discriminate].
    eapply ensures_bind.
    + eapply ensures_weaken;
        [apply ensures_and;
         [apply seller_aggressor_executed|apply seller_aggressor_sweeps]| |].
      * intros br H. exact H.
      * intros b' [[] _].
    + intros [b1 r1] ((fs & Hx & Hlv & Hasc) & (Hfr & Hsw)). simpl in *.
      eapply Hplace. unfold entered. rewrite Hside.
      split; [exact Hc|]. split; [lia|]. split; [exact He|].
      split; [lia|]. split; [exact Hx|]. split; [split; [|exact Hasc]|].
      * eapply Forall_impl; [exact Hlv|]. simpl. intros f. lia.
      * intros _ Hr1 j Hj. destruct Hsw as [->|Hsw]; [contradiction|].
        apply Hsw. lia.
Qed.

End Outcome.

(** ** What [insert] returns *)

Lemma insert_returns (encode : quote -> option Z) (decode : Z -> quote)
  (order : limit_order_message.t) (b b' : book) :
  insert encode decode b order = Returns b' ->
  accounted encode decode order b b'.
Proof.
  intros H. eapply ensures_returns; [apply insert_accounted|exact H].
Qed.

Lemma insert_throws (encode : quote -> option Z) (decode : Z -> quote)
  (order : limit_order_message.t) (b b' : book) :
  insert encode decode b order = Throws b' ->
  exhausted encode decode order b b'.
Proof.
  intros H. eapply ensures_throws; [apply insert_accounted|exact H].
Qed.

Lemma final_insert (encode : quote -> option Z) (decode : Z -> quote)
  (order : limit_order_message.t) (b b' : book) :
  final (insert encode decode b order) = Some b' ->
  accounted encode decode order b b' \/ exhausted encode decode order b b'.
Proof.
  intros H. destruct (insert encode decode b order) as [b1|b1|f] eqn:E;
    simpl in H; inversion H; subst.
  - left. now apply insert_returns.
  - right. now apply insert_throws.
Qed.

(** The reports of a book that [insert] returns, with the units they
    account for. *)
Lemma accounted_reports (encode : quote -> option Z) (decode : Z -> quote)
  (order : limit_order_message.t) (b b' : book) :
  accounted encode decode order b b' ->
  exists fs tail,
    reports b' = reports b ++ fills_reports decode order fs ++ tail
    /\ closing order tail
    /\ (total fs + reported tail = limit_order_message.quantity order)%N
    /\ (resting (pool_ b') + total fs
        = resting (pool_ b) + placed tail)%N
    /\ (forall limit_index_,
          encode (limit_order_message.limit order) = Some limit_index_ ->
          within_limit (limit_order_message.side order)
            (match limit_order_message.side order with
             | limit_order_message.buy => best_ask_ b
             | limit_order_message.sell => best_bid_ b
             end) limit_index_ fs)
    /\ (limit_order_message.lifetime order
        = limit_order_message.immediate_or_cancel ->
        Forall (fun r => execution_report.state r
                         <> execution_report.placement) tail)
    /\ (Forall (fun r => execution_report.state r
                         <> execution_report.placement) tail ->
        pool_shrinks (pool_ b) (pool_ b')).
Proof.
  intros [[Hi ->]|(idx & fs & b1 & r1 & Hent & Hcl)].
  - exists [], [order_report execution_report.invalid order
                  (limit_order_message.quantity order) no_identifier].
    simpl. split; [reflexivity|]. split.
    { right. do 3 eexists. split; [reflexivity|discriminate]. }
    split; [lia|]. split; [lia|]. split.
    { intros idx _. apply within_limit_nil. }
    split; [|auto with book].
    intros _. constructor; [discriminate|constructor].
  - destruct Hent as (Hc & Hq & He & Hidx & Hx & Hw & _).
    destruct Hx as (R & T & W & P & N & V & K & C).
    assert (Hw' : forall limit_index_,
              encode (limit_order_message.limit order) = Some limit_index_ ->
              within_limit (limit_order_message.side order)
                (match limit_order_message.side order with
                 | limit_order_message.buy => best_ask_ b
                 | limit_order_message.sell => best_bid_ b
                 end) limit_index_ fs).
    { intros i Hi. rewrite He in Hi. inversion Hi; subst. exact Hw. }
    destruct Hcl as [[-> ->]|[(Hr & -> & Hl)|(Hr & Hl & h & Hrest)]].
    + exists fs, []. rewrite app_nil_r. simpl.
      split; [exact R|]. split; [now left|]. split; [lia|].
      split; [lia|]. split; [exact Hw'|]. split; [constructor|auto].
    + exists fs, [order_report execution_report.cancel order r1
                    no_identifier].
      simpl. split; [rewrite R, <- app_assoc; reflexivity|]. split.
      { right. do 3 eexists. split; [reflexivity|discriminate]. }
      split; [lia|]. split; [lia|]. split; [exact Hw'|].
      split; [|auto]. intros _. constructor; [discriminate|constructor].
    + destruct Hrest as (Hf & Hrep & _ & _ & _ & Hres & _).
      exists fs, [order_report execution_report.placement order r1
                    (Z.of_nat h)].
      simpl. split; [rewrite Hrep, R, <- app_assoc; reflexivity|]. split.
      { right. do 3 eexists. split; [reflexivity|discriminate]. }
      split; [lia|]. split; [lia|]. split; [exact Hw'|].
      split; [intros E; contradiction|]. intros E.
      inversion E as [|x l Hx]; subst. now contradiction Hx.
Qed.

Lemma exhausted_reports (encode : quote -> option Z) (decode : Z -> quote)
  (order : limit_order_message.t) (b b' : book) :
  exhausted encode decode order b b' ->
  exists fs,
    reports b' = reports b ++ fills_reports decode order fs
    /\ (total fs < limit_order_message.quantity order)%N
    /\ (resting (pool_ b') + total fs = resting (pool_ b))%N
    /\ (forall limit_index_,
          encode (limit_order_message.limit order) = Some limit_index_ ->
          within_limit (limit_order_message.side order)
            (match limit_order_message.side order with
             | limit_order_message.buy => best_ask_ b
             | limit_order_message.sell => best_bid_ b
             end) limit_index_ fs)
    /\ pool_shrinks (pool_ b) (pool_ b')
    /\ block_pool.first_free (pool_ b) = None
    /\ limit_order_message.lifetime order
       <> limit_order_message.immediate_or_cancel.
Proof.
  intros (idx & fs & r1 & Hent & Hr & Hl & Hf).
  destruct Hent as (Hc & Hq & He & Hidx & Hx & Hw & _).
  destruct Hx as (R & T & W & P & N & V & K & C).
  exists fs. split; [exact R|]. split; [lia|]. split; [exact W|]. split.
  { intros i Hi. rewrite He in Hi. inversion Hi; subst. exact Hw. }
  split; [exact P|]. split; [|exact Hl].
  rewrite <- Hf. symmetry. now apply pool_shrinks_first_free.
Qed.

(** ** What [insert] keeps *)

(** The blocks through executions. *)
Lemma pool_shrinks_blocks (p p' : list (option record)) :
  pool_shrinks p p' ->
  length p' = length p
  /\ (forall h r, p !! h = Some (Some r) ->
        exists r', p' !! h = Some (Some r')
                   /\ owner r' = owner r
                   /\ (quantity r' <= quantity r)%N)
  /\ (forall h, p !! h = Some None -> p' !! h = Some None).
Proof.
  intros H. split; [now apply pool_shrinks_length|]. split.
  - intros h r Hh. destruct (pool_shrinks_lookup _ _ _ _ H Hh)
      as (r' & Hr' & Ho & _ & Hq). eauto.
  - intros h Hh. destruct (Forall2_lookup_l _ _ _ _ _ H Hh)
      as (y & Hy & Hrel). inversion Hrel; subst. exact Hy.
Qed.

Lemma kept_refl (side_ : side_t) (b : book) : kept side_ b b.
Proof.
  unfold kept. repeat split; auto; try (destruct side_; lia).
  intros h r Hh. exists r. split; [exact Hh|]. split; [reflexivity|lia].
Qed.

(** A report more keeps the book. *)
Lemma kept_report (side_ : side_t) (b b1 : book) (r : execution_report.t) :
  kept side_ b b1 -> kept side_ b (emplace_back b1 r).
Proof. intros H. exact H. Qed.

Lemma executed_kept (decode : Z -> quote) (order : limit_order_message.t)
  (fs : list fill) (remainder_ r1 : N) (b b1 : book) :
  executed decode order fs b b1 remainder_ r1 ->
  kept (limit_order_message.side order) b b1.
Proof.
  intros (R & T & W & P & N & V & K & C).
  destruct (pool_shrinks_blocks _ _ P) as (Pl & Pa & Pf).
  split; [exact N|]. split; [exact V|]. split; [exact K|]. split.
  { destruct (limit_order_message.side order); lia. }
  split; [exact Pl|]. split; [exact Pa|]. intros h Hh. left. auto.
Qed.

(** The book through the executions and the end of [insert]. *)
Lemma closes_kept (decode : Z -> quote) (order : limit_order_message.t)
  (limit_index_ : Z) (fs : list fill) (remainder_ r1 : N) (b b1 b' : book) :
  executed decode order fs b b1 remainder_ r1 ->
  closes order limit_index_ fs r1 b1 b' ->
  kept (limit_order_message.side order) b b'.
Proof.
  intros Hx Hcl. pose proof (executed_kept _ _ _ _ _ _ _ Hx) as Hk.
  destruct Hcl as [[-> ->]|[(Hr & -> & Hl)|(Hr & Hl & h & Hrest)]];
    [exact Hk|exact Hk|].
  destruct Hx as (R & T & W & P & N & V & K & C).
  destruct (pool_shrinks_blocks _ _ P) as (Pl & Pa & Pf).
  destruct Hrest as (Hf & _ & (rh & Hh & _) & Hlen & Hoth & _ & _
                     & (lv & head & _ & _ & Hlim) & Hv & Hk' & Hcur & _).
  split; [rewrite Hlim, length_insert; exact N|].
  split; [congruence|]. split; [congruence|]. split.
  { destruct (limit_order_message.side order); lia. }
  split; [congruence|].
  rewrite (pool_shrinks_first_free _ _ P) in Hf.
  pose proof (first_free_lookup _ _ Hf) as Hfree.
  split.
  - intros h' r Hr'. destruct (Pa h' r Hr') as (r1' & Hr1 & Ho & Hq).
    assert (Hne : h' <> h).
    { intros ->. rewrite (Pf h Hfree) in Hr1. discriminate. }
    destruct (Hoth h' _ Hne Hr1) as (y & Hy & Hrel).
    inversion Hrel as [r0 r2 [Ho2 Hq2]|]; subst.
    exists r2. split; [exact Hy|]. split; [congruence|lia].
  - intros h' Hh'. destruct (decide (h' = h)) as [->|Hne]; [right; exact Hf|].
    left. destruct (Hoth h' _ Hne (Pf h' Hh')) as (y & Hy & Hrel).
    inversion Hrel; subst. exact Hy.
Qed.

Lemma insert_kept (encode : quote -> option Z) (decode : Z -> quote)
  (order : limit_order_message.t) (b b' : book) :
  final (insert encode decode b order) = Some b' ->
  kept (limit_order_message.side order) b b'.
Proof.
  intros H. apply final_insert in H.
  destruct H as [[[Hi ->]|(idx & fs & b1 & r1 & Hent & Hcl)]
                |(idx & fs & r1 & Hent & Hr & Hl & Hf)].
  - apply kept_report, kept_refl.
  - destruct Hent as (_ & _ & _ & _ & Hx & _).
    eapply closes_kept; eauto.
  - destruct Hent as (_ & _ & _ & _ & Hx & _).
    eapply executed_kept; eauto.
Qed.

(** ** Reports at the end of the list *)

Lemma last_fills_reports (decode : Z -> quote)
  (order : limit_order_message.t) (rs : list execution_report.t)
  (fs : list fill) :
  fs <> [] ->
  exists r, last (rs ++ fills_reports decode order fs) = Some r
            /\ execution_report.state r = execution_report.match_.
Proof.
  intros Hne. destruct fs as [|f fs _] using rev_ind; [contradiction|].
  unfold fills_reports. rewrite map_app, concat_app. simpl.
  eexists. split.
  - change [aggressor_report order (fill_size f) (decode (fill_level f));
            supplier_report order (fill_size f) (decode (fill_level f))
              (fill_block f) (fill_supplier f)]
      with ([aggressor_report order (fill_size f) (decode (fill_level f))]
            ++ [supplier_report order (fill_size f) (decode (fill_level f))
                  (fill_block f) (fill_supplier f)]).
    rewrite !app_assoc. apply last_snoc.
  - reflexivity.
Qed.

(** The book that [insert] returns with a placement as its last report:
    the order was executed and what was left of it was placed. *)
Lemma accounted_placement (encode : quote -> option Z) (decode : Z -> quote)
  (order : limit_order_message.t) (b b' : book)
  (r : execution_report.t) :
  accounted encode decode order b b' ->
  last (reports b') = Some r ->
  execution_report.state r = execution_report.placement ->
  exists limit_index_ fs b1 remainder_ h,
    entered encode decode order b limit_index_ fs b1 remainder_
    /\ remainder_ <> 0%N
    /\ rests order limit_index_ remainder_ h b1 b'
    /\ r = order_report execution_report.placement order remainder_
             (Z.of_nat h).
Proof.
  intros [[Hi ->]|(idx & fs & b1 & r1 & Hent & Hcl)] Hlast Hstate.
  - simpl in Hlast. rewrite last_snoc in Hlast. inversion Hlast; subst r.
    discriminate.
  - pose proof Hent as (_ & Hq & _ & _ & Hx & _).
    destruct Hx as (R & T & _).
    destruct Hcl as [[-> ->]|[(Hr & -> & Hl)|(Hr & Hl & h & Hrest)]].
    + assert (Hne : fs <> []).
      { intros ->. simpl in T. lia. }
      destruct (last_fills_reports decode order (reports b) fs Hne)
        as (r' & Hr' & Hs').
      rewrite R, Hr' in Hlast. inversion Hlast; subst r'. congruence.
    + simpl in Hlast. rewrite last_snoc in Hlast. inversion Hlast; subst r.
      discriminate.
    + exists idx, fs, b1, r1, h. split; [exact Hent|]. split; [exact Hr|].
      split; [exact Hrest|].
      destruct Hrest as (_ & Hrep & _). rewrite Hrep, last_snoc in Hlast.
      now inversion Hlast.
Qed.

(** ** Chains through a freed block *)

Lemma chain_freed (p : list (option record)) (ptr : record_pointer)
  (hs hs' : list index) (h : index) :
  chain p ptr hs -> h ∈ hs -> ~ chain (<[h := None]> p) ptr hs'.
Proof.
  intros Hc. revert hs'.
  induction Hc as [|h0 r hs0 Hh0 Hc IH]; intros hs' Hin Hc'.
  - inversion Hin.
  - inversion Hc' as [|h1 r' hs1 Hh1 Hc1]; subst.
    destruct (decide (h0 = h)) as [->|Hne].
    + rewrite list_lookup_insert_eq in Hh1
        by (eapply lookup_lt_Some; eauto).
      discriminate.
    + rewrite list_lookup_insert_ne in Hh1 by congruence.
      rewrite Hh0 in Hh1. inversion Hh1; subst r'.
      apply (IH hs1); [|exact Hc1].
      apply elem_of_cons in Hin as [->|Hin]; [contradiction|exact Hin].
Qed.

(** ** No fault on intact queues *)

Lemma safe_bind {A B : Type} (m : result A) (k : A -> result B) :
  safe m -> (forall a, m = Returns a -> safe (k a)) -> safe (bind m k).
Proof.
  destruct m as [a|b|f]; simpl; intros Hm Hk; auto.
Qed.

Lemma level_at_returns (l : list limit_type) (i : Z) :
  0 <= i < Z.of_nat (length l) ->
  exists lv, level_at l i = Returns lv /\ l !! Z.to_nat i = Some lv.
Proof.
  intros Hi. unfold level_at.
  destruct (Z.leb_spec 0 i); [|lia].
  destruct (l !! Z.to_nat i) as [lv|] eqn:E; [eauto|].
  apply lookup_ge_None in E. lia.
Qed.

Lemma level_at_inv (l : list limit_type) (i : Z) (lv : limit_type) :
  level_at l i = Returns lv -> 0 <= i /\ l !! Z.to_nat i = Some lv.
Proof.
  intros H.
  exact (ensures_returns _ _ (fun _ => False) _ (level_at_ensures l i _) H).
Qed.

Lemma advance_ask_safe (n : nat) (l : list limit_type) (a : Z) :
  0 <= a ->
  (n <> 0%nat -> a + Z.of_nat n <= Z.of_nat (length l)) ->
  safe (advance_ask n l a).
Proof.
  revert a. induction n as [|n IH]; intros a Ha Hn; simpl; [exact I|].
  destruct (level_at_returns l a) as (lv & -> & _); [lia|]. simpl.
  destruct (_ || _); [exact I|]. apply IH; lia.
Qed.

Lemma advance_bid_safe (n : nat) (l : list limit_type) (a : Z) :
  (n <> 0%nat -> a < Z.of_nat (length l) /\ Z.of_nat n - 1 <= a) ->
  safe (advance_bid n l a).
Proof.
  revert a. induction n as [|n IH]; intros a Hn; simpl; [exact I|].
  destruct (level_at_returns l a) as (lv & -> & _); [lia|]. simpl.
  destruct (_ || _); [exact I|]. apply IH; lia.
Qed.

Section Safety.
Variable decode : Z -> quote.
Variable order : limit_order_message.t.

(** One pass of the loop is safe at an allocated block when the passes
    that follow are safe on the rest of the chain. *)
Lemma match_pass_safe
  (next : record_pointer -> N -> book -> result (book * N)) (n : nat)
  (level : Z) (h : index) (remainder_ : N) (b : book) (hs : list index) :
  (forall s remainder' b' hs',
     chain (pool_ b') (Some s) hs' -> (length hs' <= n)%nat ->
     0 <= level < Z.of_nat (length (limits_ b')) ->
     movable (limit_order_message.side order) b' ->
     safe (next (Some s) remainder' b')) ->
  chain (pool_ b) (Some h) hs ->
  (length hs <= S n)%nat ->
  0 <= level < Z.of_nat (length (limits_ b)) ->
  movable (limit_order_message.side order) b ->
  safe (match_pass decode next order level (Some h) remainder_ b).
Proof.
  intros Hnext Hc Hn Hlevel Hmov. unfold match_pass.
  destruct (remainder_ =? 0)%N; [exact I|].
  unfold block_at.
  inversion Hc as [|h' r hs' Hh Hc']; subst.
  unfold block_pool.get. rewrite Hh. simpl.
  destruct (level_at_returns (limits_ b) level Hlevel) as (lv & -> & Hlv).
  simpl.
  assert (Hrec : forall s q' lv' rep1 rep2 rem',
    successor r = Some s ->
    (q' <= quantity r)%N ->
    safe
      (next (Some s) rem'
         (emplace_back
            (emplace_back
               (set_limits
                  (set_pool b
                     (<[h := Some {| quantity := q'; owner := owner r;
                                     successor := successor r |}]>
                        (pool_ b)))
                  (set_level (limits_ b) level lv'))
               rep1) rep2))).
  { intros s q' lv' rep1 rep2 rem' Hs Hq.
    eapply Hnext.
    - simpl. rewrite <- Hs. eapply chain_shrinks; [|exact Hc'].
      eapply pool_shrinks_update; [exact Hh|].
      unfold shrinks. simpl. auto.
    - simpl in Hn. apply le_S_n. exact Hn.
    - simpl. now rewrite set_level_length.
    - unfold movable in *. simpl. rewrite set_level_length. exact Hmov. }
  assert (Hadv : forall lv' p' rep1 rep2,
    safe
      (match limit_order_message.side order with
       | limit_order_message.buy =>
           do a <- advance_ask
                     (Z.to_nat (back (set_level (set_level (limits_ b)
                                        level lv') level (None, None))
                                - best_ask_ b))
                     (set_level (set_level (limits_ b) level lv') level
                        (None, None))
                     (best_ask_ b + 1);
           Returns
             (set_best_ask
                (set_limits
                   (emplace_back
                      (emplace_back
                         (set_limits (set_pool b p')
                            (set_level (limits_ b) level lv')) rep1) rep2)
                   (set_level (set_level (limits_ b) level lv') level
                      (None, None))) a,
              (remainder_ - quantity r)%N)
       | limit_order_message.sell =>
           do a <- advance_bid (Z.to_nat (best_bid_ b))
                     (set_level (set_level (limits_ b) level lv') level
                        (None, None))
                     (best_bid_ b - 1);
           Returns
             (set_best_bid
                (set_limits
                   (emplace_back
                      (emplace_back
                         (set_limits (set_pool b p')
                            (set_level (limits_ b) level lv')) rep1) rep2)
                   (set_level (set_level (limits_ b) level lv') level
                      (None, None))) a,
              (remainder_ - quantity r)%N)
       end)).
  { intros lv' p' rep1 rep2. unfold movable in Hmov.
    destruct (limit_order_message.side order).
    - apply safe_bind; [|intros; exact I].
      apply advance_ask_safe; [lia|].
      unfold back. rewrite !set_level_length. lia.
    - apply safe_bind; [|intros; exact I].
      apply advance_bid_safe. rewrite !set_level_length. lia. }
  destruct (N.ltb_spec remainder_ (quantity r)) as [Hlt|_]; simpl.
  - destruct (successor r) as [s|] eqn:Hs; [apply (Hrec s); auto; lia|].
    destruct (N.eqb_spec (quantity r - remainder_) 0); [lia|exact I].
  - destruct (successor r) as [s|] eqn:Hs; [apply (Hrec s); auto; lia|].
    simpl. apply Hadv.
Qed.

(** The loop of [match_at_level] is safe on a chain that ends, from an
    allocated block on. *)
Lemma match_loop_safe (fuel : nat) (level : Z) (h : index) (remainder_ : N)
  (b : book) (hs : list index) :
  chain (pool_ b) (Some h) hs ->
  (length hs <= S fuel)%nat ->
  0 <= level < Z.of_nat (length (limits_ b)) ->
  movable (limit_order_message.side order) b ->
  safe (match_loop decode fuel order level (Some h) remainder_ b).
Proof.
  revert h remainder_ b hs.
  induction fuel as [|fuel IH]; intros h remainder_ b hs Hc Hn Hl Hm;
    simpl; eapply match_pass_safe; eauto.
  intros s remainder' b' hs' Hc' Hn'. inversion Hc'; subst.
  simpl in Hn'. lia.
Qed.

(** [match_at_level] is safe at a level that holds an order, on a book
    with intact queues. *)
Lemma match_at_level_safe (remainder_ : N) (level : Z) (b : book)
  (qs : list (list index)) (lv : limit_type) :
  intact b qs ->
  0 <= level ->
  limits_ b !! Z.to_nat level = Some lv ->
  has_value (fst lv) = true ->
  movable (limit_order_message.side order) b ->
  safe (match_at_level decode order remainder_ level b).
Proof.
  intros (Hq & Hd) H0 Hlv Hv Hm. unfold match_at_level.
  assert (Hlevel : 0 <= level < Z.of_nat (length (limits_ b))).
  { apply lookup_lt_Some in Hlv. lia. }
  destruct (level_at_returns _ _ Hlevel) as (lv' & -> & Hlv').
  rewrite Hlv in Hlv'. inversion Hlv'; subst lv'. simpl.
  destruct (Forall2_lookup_l _ _ _ _ _ Hq Hlv) as (hs & Hhs & Hc & _).
  destruct (fst lv) as [h|] eqn:Hf; [|discriminate].
  eapply match_loop_safe; [exact Hc| |exact Hlevel|exact Hm].
  apply Nat.le_le_succ_r. eapply chain_length; [exact Hc|].
  eapply concat_NoDup_level; eauto.
Qed.

(** What [match_at_level] returns on a book with intact queues: a book
    with intact queues, a ladder of the same length, and a cursor that can
    be moved again. *)
Lemma match_at_level_intact (remainder_ : N) (level : Z) (b : book)
  (qs : list (list index)) (lv : limit_type) (b' : book) (remainder' : N) :
  intact b qs ->
  remainder_ <> 0%N ->
  limits_ b !! Z.to_nat level = Some lv ->
  movable (limit_order_message.side order) b ->
  match_at_level decode order remainder_ level b
  = Returns (b', remainder') ->
  (exists qs', intact b' qs')
  /\ length (limits_ b') = length (limits_ b)
  /\ movable (limit_order_message.side order) b'.
Proof.
  intros Hi Hrem Hlv Hm H.
  pose proof Hi as (Hq & _).
  destruct (Forall2_lookup_l _ _ _ _ _ Hq Hlv) as (hs & Hhs & Hlq).
  pose proof (ensures_returns _ _ _ _
                (match_at_level_consumes decode order remainder_ level b
                   lv hs Hlv Hlq) H) as Hc.
  simpl in Hc.
  destruct (matching_step decode order _ _ _ _ _ _ _ _ _ _
              (matching_start decode order b qs remainder_ Hi)
              Hrem Hhs Hc) as (qs2 & fs2 & (Hi2 & _)).
  pose proof (ensures_returns _ _ _ _
                (match_at_level_executed decode order remainder_ level b) H)
    as (fs & (_ & _ & _ & _ & N & _ & _ & C) & _).
  simpl in N, C.
  split; [eauto|]. split; [exact N|].
  unfold movable in *. rewrite N.
  destruct (limit_order_message.side order); lia.
Qed.

Lemma buyer_aggressor_safe (n : nat) (al : Z) (remainder_ : N) (b : book)
  (qs : list (list index)) :
  intact b qs ->
  0 <= al ->
  al + Z.of_nat n <= Z.of_nat (length (limits_ b)) ->
  movable (limit_order_message.side order) b ->
  safe (buyer_aggressor decode n order al remainder_ b).
Proof.
  revert al remainder_ b qs.
  induction n as [|n IH]; intros al remainder_ b qs Hi H0 Hn Hm; simpl;
    [exact I|].
  destruct (N.eqb_spec remainder_ 0) as [|Hrem]; [exact I|].
  destruct (level_at_returns (limits_ b) al) as (lv & -> & Hlv); [lia|].
  simpl. destruct (has_value (fst lv)) eqn:Hv.
  - apply safe_bind; [eapply match_at_level_safe; eauto|].
    intros [b1 r1] H1.
    destruct (match_at_level_intact _ _ _ _ _ _ _ Hi Hrem Hlv Hm H1)
      as ((qs1 & Hi1) & N1 & Hm1).
    eapply (IH _ _ _ qs1); [exact Hi1|lia|lia|exact Hm1].
  - eapply (IH _ _ _ qs); [exact Hi|lia|lia|exact Hm].
Qed.

Lemma seller_aggressor_safe (n : nat) (bl : Z) (remainder_ : N) (b : book)
  (qs : list (list index)) :
  intact b qs ->
  bl < Z.of_nat (length (limits_ b)) ->
  Z.of_nat n <= bl + 1 ->
  movable (limit_order_message.side order) b ->
  safe (seller_aggressor decode n order bl remainder_ b).
Proof.
  revert bl remainder_ b qs.
  induction n as [|n IH]; intros bl remainder_ b qs Hi Hb Hn Hm; simpl;
    [exact I|].
  destruct (N.eqb_spec remainder_ 0) as [|Hrem]; [exact I|].
  destruct (level_at_returns (limits_ b) bl) as (lv & -> & Hlv); [lia|].
  simpl. destruct (has_value (fst lv)) eqn:Hv.
  - apply safe_bind; [eapply match_at_level_safe; eauto; lia|].
    intros [b1 r1] H1.
    destruct (match_at_level_intact _ _ _ _ _ _ _ Hi Hrem Hlv Hm H1)
      as ((qs1 & Hi1) & N1 & Hm1).
    eapply (IH _ _ _ qs1); [exact Hi1|lia|lia|exact Hm1].
  - eapply (IH _ _ _ qs); [exact Hi|lia|lia|exact Hm].
Qed.

(** The end of [insert] is safe on a book with intact queues. *)
Lemma place_safe (limit_index_ : Z) (remainder_ : N) (b : book)
  (qs : list (list index)) :
  intact b qs ->
  0 <= limit_index_ < Z.of_nat (length (limits_ b)) ->
  safe (place order limit_index_ remainder_ b).
Proof.
  intros (Hq & _) Hidx. unfold place.
  destruct (remainder_ =? 0)%N; [exact I|].
  destruct (is_immediate_or_cancel _); [exact I|].
  unfold block_pool.emplace.
  destruct (block_pool.first_free (pool_ b)) as [h|] eqn:Hf; [|exact I].
  simpl.
  destruct (level_at_returns (limits_ b) limit_index_ Hidx)
    as (lv & -> & Hlv).
  simpl.
  destruct (Forall2_lookup_l _ _ _ _ _ Hq Hlv) as (hs & _ & Hc & Hlast).
  apply safe_bind.
  - destruct (has_value (fst lv)) eqn:Hv; [|exact I].
    assert (Ht : exists t, snd lv = Some t /\ t ∈ hs).
    { inversion Hc as [E|h0 r0 hs0 Hh0 Hc0 E]; subst.
      - rewrite <- E in Hv. discriminate.
      - rewrite Hlast. destruct (last (h0 :: hs0)) as [t|] eqn:El.
        + exists t. split; [reflexivity|].
          apply last_Some in El as (l' & El). rewrite El.
          apply elem_of_app. right. apply list_elem_of_singleton.
          reflexivity.
        + apply last_None in El. discriminate. }
    destruct Ht as (t & Ht & Hin). rewrite Ht.
    destruct (chain_allocated _ _ _ _ Hc Hin) as (rt & Hrt).
    unfold block_at, block_pool.get.
    assert (Hne : h <> t).
    { intros ->. apply first_free_lookup in Hf. congruence. }
    simpl. rewrite list_lookup_insert_ne by exact Hne. rewrite Hrt.
    exact I.
  - intros b2 _. destruct (limit_order_message.side order); exact I.
Qed.

End Safety.

(** ** Units through a sequence of calls *)

Lemma unplaced_app (rs1 rs2 : list execution_report.t) :
  unplaced (rs1 ++ rs2) = (unplaced rs1 + unplaced rs2)%N.
Proof.
  induction rs1 as [|r rs1 IH]; simpl; [reflexivity|].
  rewrite IH. destruct (execution_report.state r); lia.
Qed.

Lemma unplaced_fills (decode : Z -> quote) (order : limit_order_message.t)
  (fs : list fill) :
  unplaced (fills_reports decode order fs) = (2 * total fs)%N.
Proof.
  induction fs as [|f fs IH]; simpl; [reflexivity|].
  unfold fills_reports in IH. rewrite IH. lia.
Qed.

Lemma unplaced_placed (rs : list execution_report.t) :
  (unplaced rs + placed rs = reported rs)%N.
Proof.
  induction rs as [|r rs IH]; simpl; [reflexivity|].
  destruct (execution_report.state r); lia.
Qed.

(** One call that returns keeps the units: what was submitted rests or is
    reported. *)
Lemma call_conserves (b b' : book) (op : operation) :
  call b op = Returns b' ->
  (resting (pool_ b') + unplaced (reports b')
   = resting (pool_ b) + unplaced (reports b) + submitted [op])%N.
Proof.
  destruct op as [order|h]; simpl; intros H.
  - apply insert_returns in H.
    destruct (accounted_reports _ _ _ _ _ H)
      as (fs & tail & R & _ & T & W & _).
    rewrite R, !unplaced_app, unplaced_fills.
    pose proof (unplaced_placed tail). lia.
  - unfold cancel in H.
    destruct (block_pool.get (pool_ b) h) as [r|] eqn:Hg; [|discriminate].
    inversion H; subst b'; clear H. simpl.
    unfold block_pool.get in Hg.
    destruct (pool_ b !! h) as [x|] eqn:Hh; [|discriminate].
    simpl in Hg. subst x.
    pose proof (resting_insert (pool_ b) h (Some r) None Hh) as Hw.
    simpl in Hw. unfold block_pool.erase.
    rewrite unplaced_app. simpl. lia.
Qed.

Lemma submitted_app (ops1 ops2 : list operation) :
  submitted (ops1 ++ ops2) = (submitted ops1 + submitted ops2)%N.
Proof.
  induction ops1 as [|op ops1 IH]; simpl; [reflexivity|].
  rewrite IH. destruct op; lia.
Qed.

Lemma calls_snoc (b : book) (ops : list operation) (op : operation) :
  calls b (ops ++ [op]) = do b1 <- calls b ops; call b1 op.
Proof. unfold calls. now rewrite foldl_app. Qed.

(** ** Blocks through a sequence of calls *)

Lemma placements_app (rs1 rs2 : list execution_report.t) :
  placements (rs1 ++ rs2) = (placements rs1 + placements rs2)%nat.
Proof.
  induction rs1 as [|r rs1 IH]; simpl; [reflexivity|].
  rewrite IH. destruct (execution_report.state r); lia.
Qed.

Lemma placements_fills (decode : Z -> quote) (order : limit_order_message.t)
  (fs : list fill) :
  placements (fills_reports decode order fs) = 0%nat.
Proof.
  induction fs as [|f fs IH]; simpl; [reflexivity|].
  unfold fills_reports in IH. exact IH.
Qed.

(** One call that returns takes a block for a placement and gives one back
    for a cancellation. *)
Lemma call_blocks (b b' : book) (op : operation) :
  call b op = Returns b' ->
  (free_blocks (pool_ b') + placements (reports b')
   = free_blocks (pool_ b) + placements (reports b) + cancelled [op])%nat.
Proof.
  destruct op as [order|h]; simpl; intros H.
  - apply insert_returns in H.
    destruct H as [[Hi ->]|(idx & fs & b1 & r1 & Hent & Hcl)].
    + simpl. rewrite placements_app. simpl. lia.
    + destruct Hent as (_ & _ & _ & _ & Hx & _).
      destruct Hx as (R & _ & _ & P & _).
      apply pool_shrinks_free_blocks in P.
      assert (R1 : placements (reports b1) = placements (reports b)).
      { rewrite R, placements_app, placements_fills. lia. }
      destruct Hcl as [[-> ->]|[(Hr & -> & Hl)|(Hr & Hl & h & Hrest)]].
      * lia.
      * simpl. rewrite placements_app. simpl. lia.
      * destruct Hrest as (_ & Hrep & _ & _ & _ & _ & _ & _ & _ & _ & _
                           & Hfree).
        rewrite Hrep, placements_app. simpl. lia.
  - unfold cancel in H.
    destruct (block_pool.get (pool_ b) h) as [r|] eqn:Hg; [|discriminate].
    inversion H; subst b'; clear H. simpl.
    unfold block_pool.get in Hg.
    destruct (pool_ b !! h) as [x|] eqn:Hh; [|discriminate].
    simpl in Hg. subst x.
    pose proof (free_blocks_insert (pool_ b) h (Some r) None Hh) as Hv.
    simpl in Hv. unfold block_pool.erase.
    rewrite placements_app. simpl. lia.
Qed.

Lemma cancelled_app (ops1 ops2 : list operation) :
  cancelled (ops1 ++ ops2) = (cancelled ops1 + cancelled ops2)%nat.
Proof.
  induction ops1 as [|op ops1 IH]; simpl; [reflexivity|].
  rewrite IH. destruct op; lia.
Qed.

(** ** The bounds of the cursors *)

(** One call that returns keeps [best_ask_] from the levels below the
    ladder and [best_bid_] from the levels above it. *)
Lemma call_bounds (b b' : book) (op : operation) :
  final (call b op) = Some b' ->
  length (limits_ b') = length (limits_ b)
  /\ (0 <= best_ask_ b -> 0 <= best_ask_ b')
  /\ (best_bid_ b < Z.of_nat (length (limits_ b)) ->
      best_bid_ b' < Z.of_nat (length (limits_ b))).
Proof.
  destruct op as [order|h]; simpl; intros H.
  - unfold book_insert in H. apply final_insert in H.
    destruct H as [[[Hi ->]|(idx & fs & b1 & r1 & Hent & Hcl)]
                  |(idx & fs & r1 & Hent & Hr & Hl & Hf)].
    + simpl. auto.
    + destruct Hent as (_ & _ & _ & Hidx & Hx & _).
      destruct Hx as (_ & _ & _ & _ & N & _ & _ & C).
      destruct Hcl as [[-> ->]|[(Hr & -> & Hl)|(Hr & Hl & h & Hrest)]];
        simpl.
      * split; [exact N|].
        destruct (limit_order_message.side order); split; lia.
      * split; [exact N|].
        destruct (limit_order_message.side order); split; lia.
      * destruct Hrest as (_ & _ & _ & _ & _ & _ & _
                           & (lv & head & _ & _ & Hlim) & _ & _ & Hcur & _).
        split; [rewrite Hlim, length_insert; exact N|].
        destruct (limit_order_message.side order); split; lia.
    + destruct Hent as (_ & _ & _ & Hidx & Hx & _).
      destruct Hx as (_ & _ & _ & _ & N & _ & _ & C).
      split; [exact N|].
      destruct (limit_order_message.side order); split; lia.
  - unfold cancel in H. destruct (block_pool.get (pool_ b) h);
      simpl in H; inversion H; subst. simpl. auto.
Qed.

(** ** The executions of one insert, block by block *)

Lemma taken_app (fs1 fs2 : list fill) (h : index) :
  taken (fs1 ++ fs2) h = (taken fs1 h + taken fs2 h)%N.
Proof.
  induction fs1 as [|f fs1 IH]; simpl; [reflexivity|].
  rewrite IH. destruct (decide (fill_block f = h)); lia.
Qed.

Lemma linked_shrinks (p p' : list (option record)) (ptr : record_pointer)
  (h : index) :
  pool_shrinks p p' -> linked p' ptr h -> linked p ptr h.
Proof.
  intros Hp. induction 1 as [h0 r' Hh|h0 r' h' Hh _ IH].
  - destruct (Forall2_lookup_r _ _ _ _ _ Hp Hh) as (x & Hx & Hrel).
    inversion Hrel as [r0 r1 Hs|]; subst. eapply linked_here; eauto.
  - destruct (Forall2_lookup_r _ _ _ _ _ Hp Hh) as (x & Hx & Hrel).
    inversion Hrel as [r0 r1 (_ & Hs & _)|]; subst.
    eapply linked_next; [exact Hx|]. rewrite <- Hs. exact IH.
Qed.

Section Traces.
Variable decode : Z -> quote.
Variable order : limit_order_message.t.

Lemma traced_refl (b : book) (remainder_ : N) :
  traced decode order [] b b remainder_ remainder_.
Proof.
  unfold traced, fills_reports. simpl. rewrite app_nil_r.
  split; [reflexivity|]. split; [lia|]. split; [constructor|].
  split; [auto with book|]. split; [|reflexivity].
  intros h x Hh. unfold quantity_at. rewrite Hh.
  split; [f_equal; lia|lia].
Qed.

Lemma traced_trans (fs1 fs2 : list fill) (b1 b2 b3 : book)
  (r1 r2 r3 : N) :
  traced decode order fs1 b1 b2 r1 r2 ->
  traced decode order fs2 b2 b3 r2 r3 ->
  traced decode order (fs1 ++ fs2) b1 b3 r1 r3.
Proof.
  unfold traced, fills_reports.
  intros (R1 & T1 & F1 & P1 & Q1 & N1) (R2 & T2 & F2 & P2 & Q2 & N2).
  rewrite total_app.
  split; [rewrite R2, R1, map_app, concat_app, app_assoc; reflexivity|].
  split; [lia|]. split.
  { apply Forall_app. split; [exact F1|].
    eapply Forall_impl; [exact F2|]. intros f. now apply fill_of_shrinks. }
  split; [eapply pool_shrinks_trans; eauto|]. split; [|congruence].
  intros h x Hh. destruct (Q1 h x Hh) as (Hq1 & Ht1).
  unfold quantity_at in Hq1.
  destruct (pool_ b2 !! h) as [[x2|]|] eqn:Hh2; try discriminate.
  inversion Hq1 as [Hx2].
  destruct (Q2 h x2 Hh2) as (Hq2 & Ht2).
  rewrite taken_app. rewrite Hq2. split; [f_equal; lia|lia].
Qed.

(** A change of the levels or of a cursor is no execution. *)
Lemma traced_frame (fs : list fill) (b b1 b2 : book) (r r' : N) :
  traced decode order fs b b1 r r' ->
  reports b2 = reports b1 -> pool_ b2 = pool_ b1 ->
  length (limits_ b2) = length (limits_ b1) ->
  traced decode order fs b b2 r r'.
Proof.
  unfold traced. intros (R & T & F & P & Q & N) HR HP HN.
  rewrite HR, HP, HN. auto 10.
Qed.

(** One pass of the loop of [match_at_level] is one execution, on the
    block it stands on. *)
Lemma match_pass_traced
  (next : record_pointer -> N -> book -> result (book * N)) (level : Z) :
  (forall ao remainder_ b,
     ensures (next ao remainder_ b)
       (fun br => exists fs,
          traced decode order fs b (fst br) remainder_ (snd br)
          /\ Forall (fun f => fill_level f = level
                              /\ linked (pool_ b) ao (fill_block f)) fs)
       (fun _ => False)) ->
  forall ao remainder_ b,
    ensures (match_pass decode next order level ao remainder_ b)
      (fun br => exists fs,
         traced decode order fs b (fst br) remainder_ (snd br)
         /\ Forall (fun f => fill_level f = level
                             /\ linked (pool_ b) ao (fill_block f)) fs)
      (fun _ => False).
Proof.
  intros Hnext ao remainder_ b. unfold match_pass.
  destruct (remainder_ =? 0)%N; simpl.
  { exists []. split; [apply traced_refl|constructor]. }
  step_with block_at_ensures.
  intros [h r] [Hao Hh]. simpl in Hao, Hh. subst ao.
  step_with level_at_ensures.
  intros lv [Hl0 Hlv].
  set (size := if (remainder_ <? quantity r)%N then remainder_
               else quantity r).
  assert (Hstep : forall lv' q' rem' b2,
    (q' + size = quantity r)%N -> (rem' + size = remainder_)%N ->
    b2 = emplace_back
           (emplace_back
              (set_limits
                 (set_pool b
                    (<[h := Some {| quantity := q'; owner := owner r;
                                    successor := successor r |}]>
                       (pool_ b)))
                 (set_level (limits_ b) level lv'))
              (aggressor_report order size (decode level)))
           (supplier_report order size (decode level) h (owner r)) ->
    traced decode order [Fill level size h (owner r)] b b2
           remainder_ rem').
  { intros lv' q' rem' b2 Hq Hs ->. unfold traced, fills_reports. simpl.
    rewrite <- app_assoc. simpl.
    split; [reflexivity|]. split; [lia|]. split.
    { constructor; [|constructor]. exists r. simpl.
      split; [exact Hh|]. split; [reflexivity|lia]. }
    split.
    { eapply pool_shrinks_update; [exact Hh|].
      unfold shrinks. simpl. repeat split; lia. }
    split; [|apply set_level_length].
    intros h' x Hx. unfold quantity_at.
    destruct (decide (h = h')) as [<-|Hne].
    - rewrite list_lookup_insert_eq by (eapply lookup_lt_Some; eauto).
      rewrite Hh in Hx. inversion Hx; subst x. simpl.
      split; [f_equal; lia|lia].
    - rewrite list_lookup_insert_ne by exact Hne. rewrite Hx.
      split; [f_equal; lia|lia]. }
  assert (Hlevel : Forall (fun f => fill_level f = level
                                    /\ linked (pool_ b) (Some h)
                                         (fill_block f))
                     [Fill level size h (owner r)]).
  { constructor; [|constructor]. simpl. split; [reflexivity|].
    eapply linked_here; eauto. }
  assert (Hrec : forall b2 rem',
    traced decode order [Fill level size h (owner r)] b b2
           remainder_ rem' ->
    ensures (next (successor r) rem' b2)
      (fun br => exists fs,
         traced decode order fs b (fst br) remainder_ (snd br)
         /\ Forall (fun f => fill_level f = level
                             /\ linked (pool_ b) (Some h) (fill_block f))
                   fs)
      (fun _ => False)).
  { intros b2 rem' Hm. eapply ensures_weaken; [apply Hnext| |auto].
    intros [b' r'] (fs & Hm' & Hf). simpl in *.
    eexists. split; [eapply traced_trans; eauto|].
    apply Forall_app. split; [exact Hlevel|].
    eapply Forall_impl; [exact Hf|]. simpl. intros f [Hl Hk].
    split; [exact Hl|]. eapply linked_next; [exact Hh|].
    destruct Hm as (_ & _ & _ & P & _).
    eapply linked_shrinks; eauto. }
  destruct (N.ltb_spec remainder_ (quantity r)) as [Hlt|Hge]; simpl.
  - subst size.
    specialize (Hstep lv (quantity r - remainder_)%N 0%N _ ltac:(lia)
                  ltac:(lia) eq_refl).
    destruct (successor r) as [s|] eqn:Hs; [apply Hrec; exact Hstep|].
    destruct (N.eqb_spec (quantity r - remainder_) 0); [lia|]. simpl.
    eexists. split; [exact Hstep|exact Hlevel].
  - subst size.
    specialize (Hstep (successor r, snd lv) 0%N
                  (remainder_ - quantity r)%N _ ltac:(lia)
                  ltac:(lia) eq_refl).
    destruct (successor r) as [s|] eqn:Hs; [apply Hrec; exact Hstep|].
    simpl. destruct (limit_order_message.side order) eqn:Hside.
    + step_with advance_ask_ensures. intros a _.
      simpl. eexists. split; [|exact Hlevel].
      eapply traced_frame; [exact Hstep| | |]; simpl; auto.
      now rewrite set_level_length.
    + step_with advance_bid_ensures. intros a _.
      simpl. eexists. split; [|exact Hlevel].
      eapply traced_frame; [exact Hstep| | |]; simpl; auto.
      now rewrite set_level_length.
Qed.

Lemma match_loop_traced (fuel : nat) (level : Z) (ao : record_pointer)
  (remainder_ : N) (b : book) :
  ensures (match_loop decode fuel order level ao remainder_ b)
    (fun br => exists fs,
       traced decode order fs b (fst br) remainder_ (snd br)
       /\ Forall (fun f => fill_level f = level
                           /\ linked (pool_ b) ao (fill_block f)) fs)
    (fun _ => False).
Proof.
  revert ao remainder_ b.
  induction fuel as [|fuel IH]; simpl; apply match_pass_traced.
  - intros ao remainder_ b. exact I.
  - exact IH.
Qed.

Lemma match_at_level_traced (remainder_ : N) (level : Z) (b : book) :
  ensures (match_at_level decode order remainder_ level b)
    (fun br => exists fs,
       traced decode order fs b (fst br) remainder_ (snd br)
       /\ Forall (fun f => fill_level f = level /\ at_level b f) fs)
    (fun _ => False).
Proof.
  unfold match_at_level.
  step_with level_at_ensures. intros lv [H0 Hlv].
  eapply ensures_weaken; [apply match_loop_traced| |auto].
  intros [b' r'] (fs & Ht & Hf). exists fs. split; [exact Ht|].
  eapply Forall_impl; [exact Hf|]. simpl. intros f [Hl Hk].
  split; [exact Hl|]. unfold at_level. rewrite Hl. eauto.
Qed.

(** An execution at a level of a later book is at that level of [b], when
    the level and the allocated blocks are those of [b]. *)
Lemma at_level_earlier (b b1 : book) (f : fill) :
  pool_shrinks (pool_ b) (pool_ b1) ->
  limits_ b1 !! Z.to_nat (fill_level f)
  = limits_ b !! Z.to_nat (fill_level f) ->
  at_level b1 f -> at_level b f.
Proof.
  intros Hp Hl (H0 & lv & Hlv & Hk). split; [exact H0|].
  exists lv. split; [congruence|]. eapply linked_shrinks; eauto.
Qed.

Lemma ensures_both {A : Type} (r : result A) (P P' : A -> Prop) :
  ensures r P (fun _ => False) -> ensures r P' (fun _ => False) ->
  ensures r (fun a => P a /\ P' a) (fun _ => False).
Proof. destruct r; simpl; auto. Qed.

Lemma buyer_aggressor_traced (n : nat) (al : Z) (remainder_ : N)
  (b : book) :
  ensures (buyer_aggressor decode n order al remainder_ b)
    (fun br => exists fs,
       traced decode order fs b (fst br) remainder_ (snd br)
       /\ Forall (fun f => al <= fill_level f /\ at_level b f) fs)
    (fun _ => False).
Proof.
  revert al remainder_ b.
  induction n as [|n IH]; intros al remainder_ b; simpl.
  { exists []. split; [apply traced_refl|constructor]. }
  destruct (remainder_ =? 0)%N; simpl.
  { exists []. split; [apply traced_refl|constructor]. }
  step_with level_at_ensures. intros lv [H0 Hlv].
  destruct (has_value (fst lv)).
  - eapply ensures_bind.
    { apply ensures_both;
        [apply match_at_level_traced|apply match_at_level_sweeps]. }
    intros [b1 r1] ((fs1 & H1 & L1) & (Hfr & _)). simpl in *.
    eapply ensures_weaken; [apply IH| |auto].
    intros [b2 r2] (fs2 & H2 & L2). simpl in *.
    exists (fs1 ++ fs2). split; [eapply traced_trans; eauto|].
    apply Forall_app. split.
    + eapply Forall_impl; [exact L1|]. simpl. intros f [Hl Hk].
      split; [lia|exact Hk].
    + eapply Forall_impl; [exact L2|]. simpl. intros f [Hl Hk].
      split; [lia|]. destruct H1 as (_ & _ & _ & P1 & _).
      eapply at_level_earlier; [exact P1| |exact Hk].
      apply Hfr. destruct Hk as (Hk0 & _). lia.
  - eapply ensures_weaken; [apply IH| |auto].
    intros [b2 r2] (fs2 & H2 & L2). exists fs2. split; [exact H2|].
    eapply Forall_impl; [exact L2|]. simpl. intros f [Hl Hk].
    split; [lia|exact Hk].
Qed.

Lemma seller_aggressor_traced (n : nat) (bl : Z) (remainder_ : N)
  (b : book) :
  ensures (seller_aggressor decode n order bl remainder_ b)
    (fun br => exists fs,
       traced decode order fs b (fst br) remainder_ (snd br)
       /\ Forall (fun f => fill_level f <= bl /\ at_level b f) fs)
    (fun _ => False).
Proof.
  revert bl remainder_ b.
  induction n as [|n IH]; intros bl remainder_ b; simpl.
  { exists []. split; [apply traced_refl|constructor]. }
  destruct (remainder_ =? 0)%N; simpl.
  { exists []. split; [apply traced_refl|constructor]. }
  step_with level_at_ensures. intros lv [H0 Hlv].
  destruct (has_value (fst lv)).
  - eapply ensures_bind.
    { apply ensures_both;
        [apply match_at_level_traced|apply match_at_level_sweeps]. }
    intros [b1 r1] ((fs1 & H1 & L1) & (Hfr & _)). simpl in *.
    eapply ensures_weaken; [apply IH| |auto].
    intros [b2 r2] (fs2 & H2 & L2). simpl in *.
    exists (fs1 ++ fs2). split; [eapply traced_trans; eauto|].
    apply Forall_app. split.
    + eapply Forall_impl; [exact L1|]. simpl. intros f [Hl Hk].
      split; [lia|exact Hk].
    + eapply Forall_impl; [exact L2|]. simpl. intros f [Hl Hk].
      split; [lia|]. destruct H1 as (_ & _ & _ & P1 & _).
      eapply at_level_earlier; [exact P1| |exact Hk].
      apply Hfr. destruct Hk as (Hk0 & _). lia.
  - eapply ensures_weaken; [apply IH| |auto].
    intros [b2 r2] (fs2 & H2 & L2). exists fs2. split; [exact H2|].
    eapply Forall_impl; [exact L2|]. simpl. intros f [Hl Hk].
    split; [lia|exact Hk].
Qed.

Variable encode : quote -> option Z.

(** [insert] accounts for its executions on both sides: in the reports, in
    the blocks and in the order. *)
Lemma insert_paired (b : book) :
  ensures (insert encode decode b order)
    (fun b' => exists fs tail,
       paired decode order b b' fs tail
       /\ (total fs + reported tail
           = limit_order_message.quantity order)%N)
    (fun b' => exists fs tail, paired decode order b b' fs tail).
Proof.
  assert (Hone : forall state q i b1 fs r1,
    traced decode order fs b b1 (limit_order_message.quantity order) r1 ->
    Forall (at_level b) fs -> state <> execution_report.match_ ->
    q = r1 ->
    (forall h x, pool_ b !! h = Some (Some x) ->
       quantity_at (pool_ b1) h = Some (quantity x - taken fs h)%N
       /\ (taken fs h <= quantity x)%N) ->
    forall b', reports b' = reports b1 ++ [order_report state order q i] ->
    (forall h x, pool_ b !! h = Some (Some x) ->
       quantity_at (pool_ b') h = quantity_at (pool_ b1) h) ->
    exists fs tail,
      paired decode order b b' fs tail
      /\ (total fs + reported tail
          = limit_order_message.quantity order)%N).
  { intros state q i b1 fs r1 (R & T & F & P & Q & N) L Hs -> _ b' R' Q'.
    exists fs, [order_report state order r1 i]. split.
    - unfold paired. rewrite R', R, <- app_assoc.
      split; [reflexivity|]. split; [right; eauto|].
      split; [exact F|]. split; [exact L|]. split; [|simpl; lia].
      intros h x Hh. rewrite (Q' h x Hh). auto.
    - simpl. lia. }
  assert (Hplace : forall limit_index_ fs b1 r1,
    traced decode order fs b b1 (limit_order_message.quantity order) r1 ->
    Forall (at_level b) fs ->
    ensures (place order limit_index_ r1 b1)
      (fun b' => exists fs tail,
         paired decode order b b' fs tail
         /\ (total fs + reported tail
             = limit_order_message.quantity order)%N)
      (fun b' => exists fs tail, paired decode order b b' fs tail)).
  { intros limit_index_ fs b1 r1 Ht L.
    assert (Hnil : paired decode order b b1 fs []).
    { destruct Ht as (R & T & F & P & Q & N). unfold paired.
      rewrite app_nil_r. simpl.
      split; [exact R|]. split; [left; reflexivity|].
      split; [exact F|]. split; [exact L|]. split; [exact Q|lia]. }
    eapply ensures_weaken; [apply (place_closes order limit_index_ fs)| |].
    - intros b' [(-> & ->)|[(Hr & -> & _)|(Hr & _ & h & Hrest)]].
      + exists fs, []. split; [exact Hnil|].
        destruct Ht as (_ & T & _). simpl. lia.
      + eapply Hone; eauto; [discriminate|apply Ht].
      + destruct Hrest as (Hf & R' & _ & _ & K & _).
        eapply Hone; eauto; [discriminate|apply Ht|].
        intros h' x Hh'. destruct Ht as (_ & _ & _ & _ & Q & _).
        destruct (Q h' x Hh') as (Hq & _). unfold quantity_at in *.
        destruct (pool_ b1 !! h') as [[y|]|] eqn:Hy; try discriminate.
        assert (Hne : h' <> h).
        { intros ->. rewrite (first_free_lookup _ _ Hf) in Hy.
          discriminate. }
        destruct (K h' (Some y) Hne Hy) as (y' & Hy' & Hk).
        rewrite Hy'. inversion Hk as [? y2 [_ Hk2]|]; subst. simpl.
        now rewrite Hk2.
    - intros b' (-> & _). exists fs, []. exact Hnil. }
  unfold insert.
  assert (Hrefl := traced_refl b (limit_order_message.quantity order)).
  destruct (negb (contains (valid_limits b)
                    (limit_order_message.limit order))
            || (limit_order_message.quantity order <=? 0)%N); simpl.
  { eapply Hone; eauto; [discriminate|apply Hrefl]. }
  destruct (encode (limit_order_message.limit order)) as [limit_index_|];
    simpl; [|exact I].
  destruct (negb _); simpl; [exact I|].
  assert (Hun : ensures
            (if is_immediate_or_cancel (limit_order_message.lifetime order)
                || is_fill_or_kill (limit_order_message.lifetime order)
             then Returns
                    (emplace_back b
                       (order_report execution_report.cancel order
                          (limit_order_message.quantity order)
                          no_identifier))
             else place order limit_index_
                    (limit_order_message.quantity order) b)
            (fun b' => exists fs tail,
               paired decode order b b' fs tail
               /\ (total fs + reported tail
                   = limit_order_message.quantity order)%N)
            (fun b' => exists fs tail, paired decode order b b' fs tail)).
  { destruct (_ || _); simpl; [|eapply Hplace; eauto].
    eapply Hone; eauto; [discriminate|apply Hrefl]. }
  destruct (limit_order_message.side order).
  - pose proof (ask_ensures decode b (fun _ => False)) as Hask.
    destruct (ask decode b) as [a|bx|f] eqn:Ea; simpl in *;
      [|contradiction|exact I].
    destruct a as [best|]; [|exact Hun].
    destruct (quote_geb _ _); [|exact Hun].
    eapply ensures_bind;
      [eapply ensures_weaken;
       [apply buyer_aggressor_traced|intros br H; exact H|intros b' []]|].
    intros [b1 r1] (fs & Ht & L). simpl in *.
    eapply Hplace; [exact Ht|].
    eapply Forall_impl; [exact L|]. simpl. intros f [_ Hk]. exact Hk.
  - pose proof (bid_ensures decode b (fun _ => False)) as Hbid.
    destruct (bid decode b) as [a|bx|f] eqn:Ea; simpl in *;
      [|contradiction|exact I].
    destruct a as [best|]; [|exact Hun].
    eapply ensures_bind;
      [eapply ensures_weaken;
       [apply seller_aggressor_traced|intros br H; exact H|intros b' []]|].
    intros [b1 r1] (fs & Ht & L). simpl in *.
    eapply Hplace; [exact Ht|].
    eapply Forall_impl; [exact L|]. simpl. intros f [_ Hk]. exact Hk.
Qed.

End Traces.

(** A block from which executions take units has an execution of its
    own. *)
Lemma taken_positive (fs : list fill) (h : index) :
  taken fs h <> 0%N ->
  exists f, f ∈ fs /\ fill_block f = h /\ (0 < fill_size f)%N.
Proof.
  induction fs as [|f fs IH]; simpl; [congruence|].
  intros Ht. destruct (decide (fill_block f = h)) as [E|E].
  - destruct (N.eq_dec (fill_size f) 0%N) as [Z|Z].
    + rewrite Z in Ht. simpl in Ht. destruct (IH Ht) as (g & Hg & Hb & Hs).
      exists g. split; [now apply list_elem_of_further|auto].
    + exists f. split; [apply list_elem_of_here|]. split; [exact E|lia].
  - destruct (IH Ht) as (g & Hg & Hb & Hs).
    exists g. split; [now apply list_elem_of_further|auto].
Qed.

(** The two reports of an execution are adjacent. *)
Lemma fills_reports_adjacent (decode : Z -> quote)
  (order : limit_order_message.t) (fs : list fill) (f : fill) :
  f ∈ fs ->
  exists i,
    fills_reports decode order fs !! i
    = Some (aggressor_report order (fill_size f) (decode (fill_level f)))
    /\ fills_reports decode order fs !! S i
       = Some (supplier_report order (fill_size f) (decode (fill_level f))
                 (fill_block f) (fill_supplier f)).
Proof.
  induction 1 as [f fs|f g fs _ (i & Ha & Hs)].
  - exists 0%nat. split; reflexivity.
  - exists (S (S i)). split; [exact Ha|exact Hs].
Qed.

(** ** The queues and the record of the placements *)

Lemma placed_at_app (encode : quote -> option Z) (l : Z)
  (rs1 rs2 : list execution_report.t) :
  placed_at encode l (rs1 ++ rs2)
  = placed_at encode l rs1 ++ placed_at encode l rs2.
Proof. apply omap_app. Qed.

Lemma placed_at_fills (encode : quote -> option Z) (decode : Z -> quote)
  (order : limit_order_message.t) (l : Z) (fs : list fill) :
  placed_at encode l (fills_reports decode order fs) = [].
Proof. induction fs as [|f fs IH]; [reflexivity|exact IH]. Qed.

Lemma placed_at_report (encode : quote -> option Z)
  (order : limit_order_message.t) (l : Z)
  (state : execution_report.state_t) (q : N) (i : Z) :
  state <> execution_report.placement ->
  placed_at encode l [order_report state order q i] = [].
Proof. intros H. destruct state; try reflexivity. contradiction. Qed.

Lemma placed_at_placement (encode : quote -> option Z)
  (order : limit_order_message.t) (l idx : Z) (q : N) (h : index) :
  encode (limit_order_message.limit order) = Some idx ->
  placed_at encode l
    [order_report execution_report.placement order q (Z.of_nat h)]
  = if idx =? l then [h] else [].
Proof.
  intros He. unfold placed_at. simpl. rewrite He.
  destruct (idx =? l); [|reflexivity]. now rewrite Nat2Z.id.
Qed.

Lemma quantity_at_shrinks (p p' : list (option record)) (h : index) :
  pool_shrinks p p' -> quantity_at p h = Some 0%N ->
  quantity_at p' h = Some 0%N.
Proof.
  unfold quantity_at. intros Hp Hq.
  destruct (p !! h) as [[r|]|] eqn:E; try discriminate.
  destruct (Forall2_lookup_l _ _ _ _ _ Hp E) as (y & Hy & Hrel).
  inversion Hrel as [r0 r' (_ & _ & Hle)|]; subst. rewrite Hy.
  inversion Hq. f_equal. lia.
Qed.

Lemma elem_of_take_add (A : Type) (l : list A) (x : A) (n m : nat) :
  x ∈ take (n + m) l -> x ∈ take n l \/ x ∈ take m (drop n l).
Proof.
  rewrite <- take_take_drop. apply elem_of_app.
Qed.

Lemma elem_of_concat_inv (qs : list (list index)) (h : index) :
  h ∈ concat qs -> exists i q, qs !! i = Some q /\ h ∈ q.
Proof.
  intros Hin. apply list_elem_of_In, in_concat in Hin as (q & Hq & Hin).
  apply list_elem_of_In, list_elem_of_lookup in Hq as (i & Hq).
  exists i, q. split; [exact Hq|]. now apply list_elem_of_In.
Qed.

Section Records.
Variable encode : quote -> option Z.
Variable decode : Z -> quote.
Variable order : limit_order_message.t.

(** The executions of an order take the queues from their heads. *)
Lemma filed_matching (b : book) (qs : list (list index)) (b1 : book)
  (qs1 : list (list index)) (fs : list fill) (remainder_ : N) :
  filed encode b qs ->
  matching decode order b qs b1 qs1 fs remainder_ ->
  filed encode b1 qs1.
Proof.
  intros (Hi & Hf) (Hi1 & Hd & Hp & Hdr & Hr & _).
  split; [exact Hi1|]. intros i q1 Hq1.
  destruct (Forall2_lookup_r _ _ _ _ _ Hdr Hq1)
    as (q & Hq & k1 & -> & Hz & _).
  destruct (Hf i q Hq) as (k & -> & Hk).
  rewrite Hr, placed_at_app, placed_at_fills, app_nil_r.
  set (H := placed_at encode (Z.of_nat i) (reports b)) in *.
  exists (k + k1)%nat. split; [apply drop_drop|].
  assert (Hsub : forall h, h ∈ concat qs1 -> h ∈ concat qs).
  { intros h Hin. apply elem_of_concat_inv in Hin as (j & qj1 & Hj1 & Hin).
    destruct (Forall2_lookup_r _ _ _ _ _ Hdr Hj1)
      as (qj & Hj & kj & -> & _).
    eapply elem_of_concat_lookup; [exact Hj|].
    eapply elem_of_drop_list; exact Hin. }
  intros h Hh. apply elem_of_take_add in Hh as [Hh|Hh].
  - destruct (Hk h Hh) as (Hq0 & Hn). split.
    + eapply quantity_at_shrinks; eauto.
    + intros Hin. apply Hn, Hsub, Hin.
  - split; [apply Hz, Hh|].
    intros Hin. apply elem_of_concat_inv in Hin as (j & qj1 & Hj1 & Hin).
    destruct (Forall2_lookup_r _ _ _ _ _ Hdr Hj1)
      as (qj & Hj & kj & -> & _).
    destruct (decide (j = i)) as [->|Hne].
    + rewrite Hq in Hj. inversion Hj; subst qj.
      rewrite Hq1 in Hj1. inversion Hj1 as [Hkk].
      eapply (NoDup_take_drop_apart _ (drop k H) h k1);
        [eapply concat_NoDup_level; eauto|exact Hh|].
      rewrite Hkk. exact Hin.
    + eapply (concat_NoDup_apart qs i j); eauto.
      * eapply elem_of_take_list; exact Hh.
      * eapply elem_of_drop_list; exact Hin.
Qed.

(** What is left of an order is placed behind the queue of its level. *)
Lemma place_appends (limit_index_ : Z) (remainder_ : N) (b1 : book)
  (qs1 : list (list index)) :
  intact b1 qs1 ->
  ensures (place order limit_index_ remainder_ b1)
    (fun b' =>
       b' = b1
       \/ b' = emplace_back b1
                 (order_report execution_report.cancel order remainder_
                               no_identifier)
       \/ appended order limit_index_ remainder_ b1 qs1 b')
    (fun b' => b' = b1).
Proof.
  intros Hi.
  pose proof (matching_start decode order b1 qs1 remainder_ Hi) as Hm.
  unfold place.
  destruct (remainder_ =? 0)%N; simpl; [auto|].
  destruct (is_immediate_or_cancel _); simpl; [auto|].
  unfold block_pool.emplace.
  destruct (block_pool.first_free (pool_ b1)) as [h|] eqn:Hff; simpl;
    [|reflexivity].
  apply first_free_lookup in Hff.
  step_with level_at_ensures.
  intros [f t] [H0 Hlv]. simpl in Hlv.
  pose proof Hi as (Hq1 & Hd1).
  destruct (Forall2_lookup_l _ _ _ _ _ Hq1 Hlv) as (hs & Hhs & Hc & Hl).
  simpl in Hc, Hl.
  pose proof (lookup_lt_Some _ _ _ Hff) as Hlt.
  set (new := {| quantity := remainder_;
                 owner := limit_order_message.owner order;
                 successor := None |}).
  assert (Hnew : <[h := Some new]> (pool_ b1) !! h = Some (Some new)).
  { now apply list_lookup_insert_eq. }
  assert (Hfresh : h ∉ hs).
  { intros Hin. destruct (chain_allocated _ _ _ _ Hc Hin) as (r & Hr).
    congruence. }
  assert (Hquantity : forall b2,
    (forall h0 r, pool_ b1 !! h0 = Some (Some r) ->
       exists r', pool_ b2 !! h0 = Some (Some r')
                  /\ quantity r' = quantity r
                  /\ (h0 ∉ hs -> r' = r)) ->
    forall h0 n, quantity_at (pool_ b1) h0 = Some n ->
                 quantity_at (pool_ b2) h0 = Some n).
  { unfold quantity_at. intros b2 Hkeep h0 n Hn.
    destruct (pool_ b1 !! h0) as [[r|]|] eqn:E; try discriminate.
    destruct (Hkeep h0 r E) as (r' & -> & Hr' & _). congruence. }
  eapply ensures_bind with
    (P' := fun b2 => appended order limit_index_ remainder_ b1 qs1 b2).
  - destruct f as [x|]; simpl.
    + step_with block_at_ensures.
      intros [t' last_] [Ht Hlast]. simpl in Ht, Hlast.
      rewrite Hl in Ht. apply last_Some in Ht as (hs0 & ->).
      assert (Hne : t' <> h).
      { intros ->. apply Hfresh. apply elem_of_app. right. constructor. }
      rewrite list_lookup_insert_ne in Hlast by congruence.
      simpl.
      assert (Hkeep : forall h0 r, pool_ b1 !! h0 = Some (Some r) ->
        exists r',
          <[t' := Some {| quantity := quantity last_; owner := owner last_;
                          successor := Some h |}]>
            (<[h := Some new]> (pool_ b1)) !! h0 = Some (Some r')
          /\ quantity r' = quantity r
          /\ (h0 ∉ hs0 ++ [t'] -> r' = r)).
      { intros h0 r Hr. destruct (decide (h0 = t')) as [->|Hne'].
        - rewrite list_lookup_insert_eq
            by (rewrite length_insert; eapply lookup_lt_Some; eauto).
          eexists. split; [reflexivity|]. simpl.
          rewrite Hlast in Hr. inversion Hr; subst r.
          split; [reflexivity|]. intros Hn. exfalso. apply Hn.
          apply elem_of_app. right. constructor.
        - rewrite list_lookup_insert_ne by congruence.
          rewrite list_lookup_insert_ne by congruence. eauto. }
      unfold appended. exists h, (hs0 ++ [t']).
      split; [exact H0|]. split; [exact Hhs|]. split; [exact Hff|].
      split; [|split; [reflexivity|]].
      * eapply proj1.
        eapply (append_served decode order b1 qs1 b1 _ qs1 [] remainder_ _
                  (hs0 ++ [t']) h (Some x, Some h));
          eauto; simpl.
        split; simpl.
        -- rewrite <- app_assoc. simpl.
           eapply chain_append; eauto.
           ++ now apply chain_update_other.
           ++ eapply concat_NoDup_level; eauto.
           ++ rewrite list_lookup_insert_ne by congruence. exact Hlast.
        -- symmetry. apply last_snoc.
      * apply Hquantity. exact Hkeep.
    + inversion Hc; subst hs. simpl.
      assert (Hkeep : forall h0 r, pool_ b1 !! h0 = Some (Some r) ->
        exists r',
          <[h := Some new]> (pool_ b1) !! h0 = Some (Some r')
          /\ quantity r' = quantity r
          /\ (h0 ∉ [] -> r' = r)).
      { intros h0 r Hr. rewrite list_lookup_insert_ne by congruence.
        eauto. }
      unfold appended. exists h, [].
      split; [exact H0|]. split; [exact Hhs|]. split; [exact Hff|].
      split; [|split; [reflexivity|]].
      * eapply proj1.
        eapply (append_served decode order b1 qs1 b1 _ qs1 [] remainder_ _
                  [] h (Some h, Some h));
          eauto; simpl.
        split; simpl; [|reflexivity].
        econstructor; [exact Hnew|]. constructor.
      * apply Hquantity. exact Hkeep.
  - intros b2 Hb2.
    destruct (limit_order_message.side order); simpl; right; right;
      exact Hb2.
Qed.

Lemma filed_frame (b1 b2 : book) (qs : list (list index)) :
  filed encode b1 qs ->
  reports b2 = reports b1 -> pool_ b2 = pool_ b1 ->
  limits_ b2 = limits_ b1 ->
  filed encode b2 qs.
Proof.
  unfold filed, intact. intros H Hr Hp Hl. rewrite Hr, Hp, Hl. exact H.
Qed.

Lemma filed_report (b : book) (qs : list (list index))
  (state : execution_report.state_t) (q : N) (i : Z) :
  filed encode b qs -> state <> execution_report.placement ->
  filed encode (emplace_back b (order_report state order q i)) qs.
Proof.
  intros (Hi & Hf) Hs. split; [exact Hi|]. simpl.
  intros j qj Hj. destruct (Hf j qj Hj) as (k & Hk).
  exists k. rewrite placed_at_app, placed_at_report, app_nil_r by exact Hs.
  exact Hk.
Qed.

Lemma filed_appended (limit_index_ : Z) (remainder_ : N) (b1 : book)
  (qs1 : list (list index)) (b' : book) :
  filed encode b1 qs1 ->
  encode (limit_order_message.limit order) = Some limit_index_ ->
  appended order limit_index_ remainder_ b1 qs1 b' ->
  exists qs', filed encode b' qs'.
Proof.
  intros (Hi & Hf) He (h & hs & H0 & Hhs & Hfree & Hi' & Hr & Hq).
  set (j := Z.to_nat limit_index_) in *.
  exists (<[j := hs ++ [h]]> qs1). split; [exact Hi'|].
  assert (Hin : forall h0, h0 ∈ concat (<[j := hs ++ [h]]> qs1) ->
                           h0 ∈ concat qs1 \/ h0 = h).
  { intros h0 Hh0. apply elem_of_concat_inv in Hh0 as (i & q & Hq0 & Hh0).
    destruct (decide (i = j)) as [->|Hne].
    - rewrite list_lookup_insert_eq in Hq0
        by (eapply lookup_lt_Some; eauto).
      inversion Hq0; subst q. apply elem_of_app in Hh0 as [Hh0|Hh0].
      + left. eapply elem_of_concat_lookup; eauto.
      + right. now apply list_elem_of_singleton in Hh0.
    - rewrite list_lookup_insert_ne in Hq0 by congruence.
      left. eapply elem_of_concat_lookup; eauto. }
  assert (Hold : forall h0, quantity_at (pool_ b1) h0 = Some 0%N ->
                            h0 ∉ concat qs1 ->
                            quantity_at (pool_ b') h0 = Some 0%N
                            /\ h0 ∉ concat (<[j := hs ++ [h]]> qs1)).
  { intros h0 Hz Hn. split; [apply Hq, Hz|].
    intros Hc. destruct (Hin h0 Hc) as [Hc'| ->]; [exact (Hn Hc')|].
    unfold quantity_at in Hz. rewrite Hfree in Hz. discriminate. }
  intros i q Hi0. rewrite Hr, placed_at_app.
  rewrite (placed_at_placement encode order (Z.of_nat i) limit_index_)
    by exact He.
  destruct (decide (i = j)) as [->|Hne].
  - rewrite list_lookup_insert_eq in Hi0 by (eapply lookup_lt_Some; eauto).
    inversion Hi0; subst q.
    destruct (Hf j hs Hhs) as (k & Hk & Hz).
    replace (limit_index_ =? Z.of_nat j) with true
      by (symmetry; apply Z.eqb_eq; unfold j; lia).
    set (H := placed_at encode (Z.of_nat j) (reports b1)) in *.
    exists (Nat.min k (length H)). split.
    + rewrite drop_app_le by lia. f_equal. rewrite Hk.
      destruct (le_lt_dec k (length H)) as [Hle|Hlt].
      * now rewrite Nat.min_l by lia.
      * rewrite Nat.min_r by lia.
        rewrite !drop_ge by lia. reflexivity.
    + intros h0 Hh0. rewrite take_app_le in Hh0 by lia.
      assert (Hh1 : h0 ∈ take k H).
      { destruct (le_lt_dec k (length H)) as [Hle|Hlt].
        - now rewrite Nat.min_l in Hh0 by lia.
        - rewrite take_ge by lia. eapply elem_of_take_list; exact Hh0. }
      destruct (Hz h0 Hh1) as (Hz0 & Hn0). now apply Hold.
  - rewrite list_lookup_insert_ne in Hi0 by congruence.
    destruct (Hf i q Hi0) as (k & Hk & Hz).
    replace (limit_index_ =? Z.of_nat i) with false
      by (symmetry; apply Z.eqb_neq; unfold j in Hne; lia).
    rewrite app_nil_r. exists k. split; [exact Hk|].
    intros h0 Hh0. destruct (Hz h0 Hh0) as (Hz0 & Hn0). now apply Hold.
Qed.

Lemma place_filed (limit_index_ : Z) (remainder_ : N) (b1 : book)
  (qs1 : list (list index)) :
  filed encode b1 qs1 ->
  encode (limit_order_message.limit order) = Some limit_index_ ->
  ensures (place order limit_index_ remainder_ b1)
    (fun b' => exists qs', filed encode b' qs')
    (fun b' => exists qs', filed encode b' qs').
Proof.
  intros Hf He.
  eapply ensures_weaken; [apply place_appends; apply Hf| |].
  - intros b' [->|[->|Ha]].
    + eauto.
    + exists qs1. apply filed_report; [exact Hf|discriminate].
    + eapply filed_appended; eauto.
  - intros b' ->. eauto.
Qed.

(** One [insert] on a book whose queues are as the reports file them. *)
Lemma insert_filed (b : book) (qs : list (list index)) :
  filed encode b qs ->
  ensures (insert encode decode b order)
    (fun b' => exists qs', filed encode b' qs')
    (fun b' => exists qs', filed encode b' qs').
Proof.
  intros Hf.
  pose proof (matching_start decode order b qs
                (limit_order_message.quantity order) (proj1 Hf)) as Hm.
  unfold insert.
  destruct (negb _ || _); simpl.
  { exists qs. apply filed_report; [exact Hf|discriminate]. }
  destruct (encode _) as [limit_index_|] eqn:He; simpl; [|exact I].
  destruct (negb _); simpl; [exact I|].
  assert (Hun : ensures
            (if is_immediate_or_cancel (limit_order_message.lifetime order)
                || is_fill_or_kill (limit_order_message.lifetime order)
             then Returns
                    (emplace_back b
                       (order_report execution_report.cancel order
                          (limit_order_message.quantity order)
                          no_identifier))
             else place order limit_index_
                    (limit_order_message.quantity order) b)
            (fun b' => exists qs', filed encode b' qs')
            (fun b' => exists qs', filed encode b' qs')).
  { destruct (_ || _); simpl; [|eapply place_filed; eauto].
    exists qs. apply filed_report; [exact Hf|discriminate]. }
  destruct (limit_order_message.side order).
  - step_with ask_ensures. intros a _.
    destruct a as [best|]; [|exact Hun].
    destruct (quote_geb _ _); [|exact Hun].
    eapply ensures_bind.
    + eapply ensures_weaken;
        [eapply buyer_aggressor_matching; exact Hm| |].
      * intros br H. exact H.
      * intros b' [].
    + intros [b1 r1] (qs1 & fs1 & Hm1). simpl in *.
      eapply place_filed; [|exact He]. eapply filed_matching; eauto.
  - step_with bid_ensures. intros a _.
    destruct a as [best|]; [|exact Hun].
    eapply ensures_bind.
    + eapply ensures_weaken;
        [eapply seller_aggressor_matching; exact Hm| |].
      * intros br H. exact H.
      * intros b' [].
    + intros [b1 r1] (qs1 & fs1 & Hm1). simpl in *.
      eapply place_filed; [|exact He]. eapply filed_matching; eauto.
Qed.
End Records.

(** ** Priority in a queue *)

(** What a filter keeps of a list stands in the order of the list. *)
Lemma filter_precedes (q l : list index) (n x y m1 m2 : nat)
  (h1 h2 : index) :
  NoDup q -> filter (fun h => h ∈ q) l = take n q ->
  q !! x = Some h1 -> q !! y = Some h2 -> (x < y)%nat ->
  l !! m1 = Some h1 -> l !! m2 = Some h2 -> (m1 < m2)%nat.
Proof.
  intros Hd Hf Hx Hy Hxy H1 H2.
  destruct (lt_eq_lt_dec m1 m2) as [[Hlt|Heq]|Hgt]; [exact Hlt| |].
  - subst m2. rewrite H1 in H2. inversion H2; subst h2.
    pose proof (NoDup_lookup _ _ _ _ Hd Hx Hy). lia.
  - exfalso.
    assert (Hq1 : h1 ∈ q) by (eapply list_elem_of_lookup_2; eauto).
    assert (Hq2 : h2 ∈ q) by (eapply list_elem_of_lookup_2; eauto).
    rewrite <- (take_drop_middle _ _ _ H1) in Hf.
    rewrite filter_app, filter_cons_True in Hf by exact Hq1.
    set (F := filter (fun h => h ∈ q) (take m1 l)) in *.
    assert (Hin : h2 ∈ F).
    { apply list_elem_of_filter. split; [exact Hq2|].
      apply list_elem_of_lookup. exists m2.
      apply lookup_take_Some. auto. }
    apply list_elem_of_lookup in Hin as (u & Hu).
    pose proof (lookup_lt_Some _ _ _ Hu) as Hlu.
    assert (Ha : take n q !! u = Some h2).
    { rewrite <- Hf. rewrite lookup_app_l by exact Hlu. exact Hu. }
    assert (Hb : take n q !! length F = Some h1).
    { rewrite <- Hf. rewrite lookup_app_r by lia.
      rewrite Nat.sub_diag. reflexivity. }
    apply lookup_take_Some in Ha as (Ha & _).
    apply lookup_take_Some in Hb as (Hb & _).
    pose proof (NoDup_lookup _ _ _ _ Hd Ha Hy).
    pose proof (NoDup_lookup _ _ _ _ Hd Hb Hx). lia.
Qed.

(** A report for a supplier among the reports of one [insert] is the second
    report of an execution. *)
Lemma supplier_lookup (decode : Z -> quote) (order : limit_order_message.t)
  (fs : list fill) (tail : list execution_report.t) (i : nat) (s : N)
  (p : quote) (h : index) (w : identity) :
  closing order tail ->
  (fills_reports decode order fs ++ tail) !! i
  = Some (supplier_report order s p h w) ->
  exists m, i = (2 * m + 1)%nat /\ map fill_block fs !! m = Some h.
Proof.
  intros Hc. revert i. induction fs as [|f fs IH]; intros i Hi.
  - exfalso. simpl in Hi.
    destruct Hc as [->|(state & q & j & -> & Hs)]; [inversion Hi|].
    destruct i as [|i]; simpl in Hi; [|inversion Hi].
    apply (inj Some), (f_equal execution_report.state) in Hi.
    exact (Hs Hi).
  - destruct i as [|[|i]]; simpl in Hi.
    + exfalso.
      apply (inj Some), (f_equal execution_report.side) in Hi. simpl in Hi.
      destruct (limit_order_message.side order); discriminate.
    + exists 0%nat. split; [reflexivity|]. simpl.
      apply (inj Some), (f_equal execution_report.identifier) in Hi.
      simpl in Hi.
      f_equal. lia.
    + destruct (IH i Hi) as (m & -> & Hm).
      exists (S m). split; [lia|exact Hm].
Qed.

(** The reports of one [insert] tell the blocks of its executions. *)
Lemma fills_reports_blocks (decode : Z -> quote)
  (order : limit_order_message.t) (fs fs' : list fill)
  (tail tail' : list execution_report.t) :
  closing order tail -> closing order tail' ->
  fills_reports decode order fs ++ tail
  = fills_reports decode order fs' ++ tail' ->
  map fill_block fs = map fill_block fs'.
Proof.
  intros Hc Hc'. revert fs'.
  assert (Hno : forall gs g t t',
            closing order t ->
            t = fills_reports decode order (g :: gs) ++ t' -> False).
  { intros gs g t t' [->|(state & q & j & -> & Hs)] E; simpl in E;
      [discriminate|].
    apply (f_equal head) in E. simpl in E.
    apply (inj Some), (f_equal execution_report.state) in E.
    exact (Hs E). }
  induction fs as [|f fs IH]; intros [|f' fs'] E.
  - reflexivity.
  - exfalso. eapply Hno; [exact Hc|exact E].
  - exfalso. eapply Hno; [exact Hc'|symmetry; exact E].
  - simpl in E.
    pose proof (f_equal (fun l => l !! 1%nat) E) as Hid. simpl in Hid.
    apply (inj Some), (f_equal execution_report.identifier) in Hid.
    simpl in Hid.
    apply (f_equal (drop 2)) in E. simpl in E.
    simpl. f_equal; [lia|]. apply IH. exact E.
Qed.

Lemma chain_linked (p : list (option record)) (ptr : record_pointer)
  (hs : list index) (h : index) :
  chain p ptr hs -> linked p ptr h -> h ∈ hs.
Proof.
  intros Hc Hl. revert hs Hc.
  induction Hl as [h0 r Hh|h0 r h' Hh _ IH]; intros hs Hc;
    inversion Hc as [|h1 r1 hs1 Hh1 Hc1]; subst.
  - constructor.
  - constructor. apply IH. rewrite Hh in Hh1. inversion Hh1; subst.
    exact Hc1.
Qed.

(** An execution at a level of an intact book takes from a block of a
    queue. *)
Lemma at_level_queued (b : book) (qs : list (list index)) (f : fill) :
  intact b qs -> at_level b f -> fill_block f ∈ concat qs.
Proof.
  intros (Hq & _) (_ & lv & Hlv & Hl).
  destruct (Forall2_lookup_l _ _ _ _ _ Hq Hlv) as (q & Hqi & Hc & _).
  eapply elem_of_concat_lookup; [exact Hqi|].
  eapply chain_linked; eauto.
Qed.

Lemma kept_zero (side_ : side_t) (b b' : book) (h : index) :
  kept side_ b b' -> quantity_at (pool_ b) h = Some 0%N ->
  quantity_at (pool_ b') h = Some 0%N.
Proof.
  intros (_ & _ & _ & _ & _ & Hk & _). unfold quantity_at. intros Hq.
  destruct (pool_ b !! h) as [[r|]|] eqn:E; try discriminate.
  destruct (Hk h r E) as (r' & -> & _ & Hle).
  inversion Hq. f_equal. lia.
Qed.

Lemma final_insert_paired (encode : quote -> option Z) (decode : Z -> quote)
  (order : limit_order_message.t) (b b' : book) :
  final (insert encode decode b order) = Some b' ->
  exists fs tail, paired decode order b b' fs tail.
Proof.
  intros H. pose proof (insert_paired decode order encode b) as He.
  destruct (insert encode decode b order) as [bx|bx|]; simpl in *;
    inversion H; subst.
  - destruct He as (fs & tail & Hp & _). eauto.
  - exact He.
Qed.

(** Of two orders placed at a level, the earlier is served first by every
    [insert] that follows. *)
Lemma priority_in_queue (encode : quote -> option Z) (decode : Z -> quote)
  (order : limit_order_message.t) (b b' : book) (qs : list (list index))
  (i a c : nat) (h1 h2 : index) :
  filed encode b qs -> (i < length qs)%nat ->
  placed_at encode (Z.of_nat i) (reports b) !! a = Some h1 ->
  placed_at encode (Z.of_nat i) (reports b) !! c = Some h2 ->
  (a < c)%nat ->
  final (insert encode decode b order) = Some b' ->
  (quantity_at (pool_ b') h2 <> quantity_at (pool_ b) h2 ->
   quantity_at (pool_ b') h1 = Some 0%N)
  /\ (forall (i1 i2 : nat) (s1 s2 : N) (p1 p2 : quote) (w1 w2 : identity),
        (length (reports b) <= i1)%nat ->
        (length (reports b) <= i2)%nat ->
        reports b' !! i1 = Some (supplier_report order s1 p1 h1 w1) ->
        reports b' !! i2 = Some (supplier_report order s2 p2 h2 w2) ->
        (i1 < i2)%nat).
Proof.
  intros (Hi & Hfl) Hlen Ha Hc Hac Hfin.
  destruct (lookup_lt_is_Some_2 qs i Hlen) as (q & Hq).
  destruct (Hfl i q Hq) as (k & Hk & Hz).
  set (H := placed_at encode (Z.of_nat i) (reports b)) in *.
  pose proof (insert_kept _ _ _ _ _ Hfin) as Hkept.
  assert (Hs : exists qs' fs, settled decode order b qs b' qs' fs).
  { pose proof (insert_settled decode order encode b qs Hi) as He.
    destruct (insert encode decode b order); simpl in *;
      inversion Hfin; subst; exact He. }
  destruct Hs as (qs' & fs & (Hi' & Hs) & (tail & Hr & Hcl) & Ho).
  assert (Hat : forall j h, (k <= j)%nat -> H !! j = Some h ->
                            q !! (j - k)%nat = Some h).
  { intros j h Hj Hh. rewrite Hk, lookup_drop.
    replace (k + (j - k))%nat with j by lia. exact Hh. }
  assert (Hout : forall j h, (j < k)%nat -> H !! j = Some h ->
                             h ∈ take k H).
  { intros j h Hj Hh. apply list_elem_of_lookup. exists j.
    apply lookup_take_Some. auto. }
  split.
  - intros Hne.
    destruct (Forall2_lookup_l _ _ _ _ _ Hs Hq)
      as (q' & _ & k1 & new & _ & _ & _ & Hz1 & Hu1).
    destruct (le_lt_dec k c) as [Hkc|Hkc].
    + destruct (le_lt_dec (S k1) (c - k)) as [Hle|Hlt].
      * exfalso. apply Hne, Hu1. apply list_elem_of_lookup.
        exists (c - k - S k1)%nat. rewrite lookup_drop.
        replace (S k1 + (c - k - S k1))%nat with (c - k)%nat by lia.
        now apply Hat.
      * destruct (le_lt_dec k a) as [Hka|Hka].
        -- apply Hz1. apply list_elem_of_lookup. exists (a - k)%nat.
           apply lookup_take_Some. split; [now apply Hat|lia].
        -- eapply kept_zero; [exact Hkept|].
           apply Hz. eapply Hout; eauto.
    + exfalso. apply Hne.
      destruct (Hz h2 (Hout c h2 Hkc Hc)) as (Hz2 & _).
      rewrite Hz2. eapply kept_zero; eauto.
  - intros i1 i2 s1 s2 p1 p2 w1 w2 Hl1 Hl2 H1 H2.
    rewrite Hr in H1, H2.
    rewrite lookup_app_r in H1 by exact Hl1.
    rewrite lookup_app_r in H2 by exact Hl2.
    destruct (supplier_lookup _ _ _ _ _ _ _ _ _ Hcl H1) as (m1 & E1 & M1).
    destruct (supplier_lookup _ _ _ _ _ _ _ _ _ Hcl H2) as (m2 & E2 & M2).
    assert (Hm : (m1 < m2)%nat); [|lia].
    destruct (final_insert_paired _ _ _ _ _ Hfin)
      as (fs2 & tail2 & R2 & C2 & _ & L2 & _).
    assert (Hb : map fill_block fs = map fill_block fs2).
    { eapply fills_reports_blocks; [exact Hcl|exact C2|].
      eapply app_inv_head. rewrite <- Hr. exact R2. }
    assert (Hq1 : h1 ∈ concat qs).
    { assert (Hin : h1 ∈ map fill_block fs2).
      { rewrite <- Hb. eapply list_elem_of_lookup_2; eauto. }
      apply list_elem_of_In, in_map_iff in Hin as (f & <- & Hf).
      apply (at_level_queued b); [exact Hi|].
      eapply Forall_forall; [exact L2|]. now apply list_elem_of_In. }
    assert (Hka : (k <= a)%nat).
    { destruct (le_lt_dec k a) as [Hka|Hka]; [exact Hka|].
      exfalso. destruct (Hz h1 (Hout a h1 Hka Ha)) as (_ & Hn).
      exact (Hn Hq1). }
    assert (Hn : exists n, in_order q fs n).
    { rewrite Forall_forall in Ho. apply Ho.
      eapply list_elem_of_lookup_2; eauto. }
    destruct Hn as (n & Hn). unfold in_order in Hn.
    eapply (filter_precedes q (map fill_block fs) n (a - k) (c - k));
      [eapply concat_NoDup_level; [apply Hi|exact Hq]|exact Hn
      |apply Hat; [lia|exact Ha]|apply Hat; [lia|exact Hc]|lia
      |exact M1|exact M2].
Qed.

(** ** The record of the placements through a sequence of calls *)

Lemma new_book_filed (max_orders_ : nat) (minimum maximum : quote)
  (b : book) :
  new_book max_orders_ minimum maximum = Some b ->
  exists qs, filed (book_encode b) b qs.
Proof.
  intros Hn. exists (replicate (length (limits_ b)) []).
  split; [eapply new_book_intact; eauto|].
  assert (Hr : reports b = []).
  { unfold new_book in Hn. destruct (_ || _); [discriminate|].
    inversion Hn. reflexivity. }
  intros i q Hq. apply lookup_replicate in Hq as (-> & _).
  exists 0%nat. rewrite Hr. split; [reflexivity|].
  intros h Hh. inversion Hh.
Qed.

Lemma book_encode_kept (side_ : side_t) (b b' : book) :
  kept side_ b b' -> book_encode b' = book_encode b.
Proof.
  intros (Hl & Hv & _). unfold book_encode. now rewrite Hl, Hv.
Qed.

(** A call of [insert] that returns has reported something. *)
Lemma insert_appends (encode : quote -> option Z) (decode : Z -> quote)
  (order : limit_order_message.t) (b b' : book) :
  insert encode decode b order = Returns b' ->
  exists more, reports b' = reports b ++ more /\ more <> [].
Proof.
  intros H. apply insert_returns in H.
  destruct H as [(_ & ->)|(idx & fs & b1 & r & Hent & Hcl)].
  { eexists. split; [reflexivity|discriminate]. }
  destruct Hent as (_ & Hq & _ & _ & (Hr & Ht & _) & _).
  destruct Hcl as [(-> & ->)|[(_ & -> & _)|(_ & _ & h & Hrest)]].
  - exists (fills_reports decode order fs). split; [exact Hr|].
    destruct fs as [|f fs]; [simpl in Ht; lia|discriminate].
  - eexists. simpl. rewrite Hr, <- app_assoc. split; [reflexivity|].
    intros E. apply (f_equal length) in E. rewrite length_app in E.
    simpl in E. lia.
  - destruct Hrest as (_ & Hr' & _).
    eexists. rewrite Hr', Hr, <- app_assoc. split; [reflexivity|].
    intros E. apply (f_equal length) in E. rewrite length_app in E.
    simpl in E. lia.
Qed.

(** The call that ends with the placement report of its order has placed
    what the report says, in the block it names, at a level of the
    ladder. *)
Lemma placement_reported (encode : quote -> option Z) (decode : Z -> quote)
  (order : limit_order_message.t) (b b' : book) (n : N) (h : index) :
  insert encode decode b order = Returns b' ->
  last (reports b')
  = Some (order_report execution_report.placement order n (Z.of_nat h)) ->
  (exists l, encode (limit_order_message.limit order) = Some l
             /\ 0 <= l < Z.of_nat (length (limits_ b)))
  /\ quantity_at (pool_ b') h = Some n.
Proof.
  intros H Hl. apply insert_returns in H.
  destruct H as [(_ & ->)|(idx & fs & b1 & r & Hent & Hcl)].
  { exfalso. simpl in Hl. rewrite last_snoc in Hl.
    apply (inj Some), (f_equal execution_report.state) in Hl.
    discriminate. }
  destruct Hent as (_ & Hq & He & Hidx & (Hr & Ht & _) & _).
  split; [eauto|].
  destruct Hcl as [(-> & ->)|[(_ & -> & _)|(_ & _ & h' & Hrest)]].
  - exfalso. destruct (last_fills_reports decode order (reports b) fs)
      as (x & Hx & Hs).
    { destruct fs; [simpl in Ht; lia|discriminate]. }
    rewrite Hr, Hx in Hl. apply (inj Some) in Hl. subst x. discriminate.
  - exfalso. simpl in Hl. rewrite last_snoc in Hl.
    apply (inj Some), (f_equal execution_report.state) in Hl.
    discriminate.
  - destruct Hrest as (_ & Hr' & (x & Hx & Hxq & _) & _).
    rewrite Hr', last_snoc in Hl. apply (inj Some) in Hl.
    pose proof (f_equal execution_report.quantity Hl) as E1.
    pose proof (f_equal execution_report.identifier Hl) as E2.
    simpl in E1, E2. apply Nat2Z.inj in E2. rewrite E2 in Hx.
    unfold quantity_at. rewrite Hx. congruence.
Qed.

Lemma inserts_snoc (b0 : option book) (orders : list limit_order_message.t)
  (order : limit_order_message.t) (b : book) :
  inserts b0 (orders ++ [order]) = Returns b ->
  exists b1, inserts b0 orders = Returns b1
             /\ book_insert b1 order = Returns b.
Proof.
  unfold inserts. destruct b0 as [b0|]; [|discriminate].
  rewrite foldl_app. simpl.
  destruct (foldl _ _ orders) as [b1|b1|f]; simpl; try discriminate.
  eauto.
Qed.

(** One call of [insert] of a sequence: the queues stay as the reports
    file them, the codec stays, and the reports grow. *)
Lemma book_insert_filed (order : limit_order_message.t) (b b' : book) :
  (exists qs, filed (book_encode b) b qs) ->
  book_insert b order = Returns b' ->
  (exists qs', filed (book_encode b') b' qs')
  /\ book_encode b' = book_encode b
  /\ length (limits_ b') = length (limits_ b)
  /\ exists more, reports b' = reports b ++ more /\ more <> [].
Proof.
  intros (qs & Hf) H. unfold book_insert in H.
  assert (Hk : kept (limit_order_message.side order) b b').
  { eapply insert_kept. rewrite H. reflexivity. }
  assert (He : book_encode b' = book_encode b).
  { eapply book_encode_kept, Hk. }
  split; [|split; [exact He|split; [apply Hk|]]];
    [|eapply insert_appends; eauto].
  rewrite He.
  eapply (ensures_returns _ _ _ _
            (insert_filed (book_encode b) (book_decode b) order b qs Hf)).
  exact H.
Qed.

Lemma inserts_filed (orders : list limit_order_message.t) (b0 b : book) :
  (exists qs, filed (book_encode b0) b0 qs) ->
  inserts (Some b0) orders = Returns b ->
  (exists qs, filed (book_encode b) b qs)
  /\ book_encode b = book_encode b0
  /\ length (limits_ b) = length (limits_ b0)
  /\ exists more, reports b = reports b0 ++ more
                  /\ (orders <> [] -> more <> []).
Proof.
  intros H0. revert b.
  induction orders as [|order orders IH] using rev_ind; intros b H.
  - inversion H; subst b. split; [exact H0|]. split; [reflexivity|].
    split; [reflexivity|].
    exists []. rewrite app_nil_r. split; [reflexivity|contradiction].
  - apply inserts_snoc in H as (b1 & H1 & H).
    destruct (IH b1 H1) as (Hf1 & He1 & Hn1 & more1 & Hr1 & _).
    destruct (book_insert_filed order b1 b Hf1 H)
      as (Hf & He & Hn & more & Hr & Hne).
    split; [exact Hf|]. split; [congruence|]. split; [congruence|].
    exists (more1 ++ more). rewrite Hr, Hr1, <- app_assoc.
    split; [reflexivity|]. intros _ E.
    apply app_eq_nil in E as (_ & E). exact (Hne E).
Qed.

(** ** The scenario of the specification *)

(** The codec of the book of section 8, prices 1.00 to 10.00 at lot 100: a
    ladder of 90001 levels, on which the quote 4.75 has the tick 37500, and
    the tick 37500 the quote 4.75. *)
Example scenario_codec :
  let valid := Interval (Quote 100 100) (Quote 1000 100) in
  span (Quote 100 100) (Quote 1000 100) = 90001
  /\ default_encode valid 90001 (Quote 475 100) = Some 37500
  /\ default_decode valid 90001 37500 = Quote 475 100.
Proof. vm_compute. auto. Qed.

(** The orders of section 8 on the ladder of [small_book], at price 5: the
    buy order for 500 is placed; the sell order for 750 is matched for 500,
    with one report for each side, and placed for 250; then [bid()] has no
    value and [ask()] is 5. *)
Example scenario_orders :
  let buy_ :=
    order_at buy 5 500 limit_order_message.good_until_cancelled 1%N in
  let sell_ :=
    order_at sell 5 750 limit_order_message.good_until_cancelled 2%N in
  exists b,
    inserts small_book [buy_; sell_] = Returns b
    /\ reports b =
         [ order_report execution_report.placement buy_ 500 0;
           aggressor_report sell_ 500 (Quote 5 1);
           supplier_report sell_ 500 (Quote 5 1) 0%nat 1%N;
           order_report execution_report.placement sell_ 250 1 ]
    /\ book_bid b = Returns None
    /\ book_ask b = Returns (Some (Quote 5 1)).
Proof.
  eexists. split; [vm_compute; reflexivity|]. vm_compute. auto.
Qed.

(** The books used as concrete inputs are the books that calls of
    [insert] on [small_book] return. *)
Example books_of_inserts :
  inserts small_book
    [ order_at sell 5 10 limit_order_message.good_until_cancelled 1%N ]
  = Returns one_ask
  /\ inserts small_book
       [ order_at buy 3 10 limit_order_message.good_until_cancelled 1%N ]
     = Returns one_bid
  /\ inserts small_book
       [ order_at sell 5 10 limit_order_message.good_until_cancelled 1%N;
         order_at sell 5 20 limit_order_message.good_until_cancelled 2%N ]
     = Returns two_asks
  /\ book_insert two_asks crossing_buy = Returns two_asks_crossed
  /\ inserts small_book
       [ order_at sell 5 10 limit_order_message.good_until_cancelled 1%N;
         order_at sell 5 10 limit_order_message.good_until_cancelled 2%N;
         order_at sell 5 10 limit_order_message.good_until_cancelled 3%N;
         order_at sell 7 10 limit_order_message.good_until_cancelled 4%N ]
     = Returns three_asks.
Proof. vm_compute. repeat split; reflexivity. Qed.

(** A fill-or-kill sell order above the best bid: [bid()] has a value, so
    [insert] enters the branch of the seller, matches nothing, and places the
    whole order. *)
Example fill_or_kill_sell_rests :
  exists b',
    book_bid one_bid = Returns (Some (Quote 3 1))
    /\ book_insert one_bid fill_or_kill_sell = Returns b'
    /\ reports b' =
         reports one_bid ++
         [ order_report execution_report.placement fill_or_kill_sell 5 1 ]
    /\ pool_ b' !! 1%nat
       = Some (Some {| quantity := 5; owner := 2%N; successor := None |})
    /\ limits_ b' !! 5%nat = Some (Some 1%nat, Some 1%nat).
Proof.
  eexists. split; [vm_compute; reflexivity|].
  split; [vm_compute; reflexivity|]. vm_compute. auto.
Qed.

(** * The claims *)

(** ** Fill-or-kill atomicity *)

(** C1 fails at [fill_or_kill_buy] on [one_ask]: the 10 units resting
    within the limit do not cover the 15 units of the order, and the call
    returns with the resting order emptied and its level changed. *)
Lemma fill_or_kill_partial_match :
  exists b',
    book_insert one_ask fill_or_kill_buy = Returns b'
    /\ pool_ one_ask
       = [ Some {| quantity := 10; owner := 1%N; successor := None |};
           None; None; None ]
    /\ pool_ b' !! 0%nat
       = Some (Some {| quantity := 0; owner := 1%N; successor := None |})
    /\ limits_ one_ask !! 4%nat = Some (Some 0%nat, Some 0%nat)
    /\ limits_ b' !! 4%nat = Some (Some 1%nat, Some 1%nat)
    /\ pool_ b' <> pool_ one_ask
    /\ limits_ b' <> limits_ one_ask.
Proof.
  eexists. split; [vm_compute; reflexivity|]. vm_compute.
  repeat split; discriminate.
Qed.

(** C1, as the book implements it.  A fill-or-kill order that [insert]
    does not match (a buy order when [ask()] has no value or is above the
    limit, a sell order when [bid()] has no value) is cancelled as a whole:
    the call returns with one [cancel] report for the full quantity, and the
    pool, the levels and both cursors are as they were. *)
Theorem fill_or_kill_unmatched (encode : quote -> option Z)
  (decode : Z -> quote) (b : book) (order : limit_order_message.t)
  (limit_index_ : Z) :
  limit_order_message.lifetime order = limit_order_message.fill_or_kill ->
  contains (valid_limits b) (limit_order_message.limit order) = true ->
  (0 < limit_order_message.quantity order)%N ->
  encode (limit_order_message.limit order) = Some limit_index_ ->
  0 <= limit_index_ < Z.of_nat (length (limits_ b)) ->
  match limit_order_message.side order with
  | buy =>
      ask decode b = Returns None
      \/ exists best,
           ask decode b = Returns (Some best)
           /\ quote_geb (limit_order_message.limit order) best = false
  | sell => bid decode b = Returns None
  end ->
  exists b',
    insert encode decode b order = Returns b'
    /\ reports b' =
         reports b ++
         [ {| execution_report.state := execution_report.cancel;
              execution_report.quantity := limit_order_message.quantity order;
              execution_report.identifier := no_identifier;
              execution_report.side := Some (limit_order_message.side order);
              execution_report.limit :=
                Some (limit_order_message.limit order);
              execution_report.owner := limit_order_message.owner order |} ]
    /\ pool_ b' = pool_ b
    /\ limits_ b' = limits_ b
    /\ best_bid_ b' = best_bid_ b
    /\ best_ask_ b' = best_ask_ b.
Proof.
  intros Hl Hc Hq He Hi Hm. unfold insert.
  rewrite Hc, He, Hl. simpl.
  destruct (N.leb_spec (limit_order_message.quantity order) 0) as [|_];
    [lia|].
  destruct (Z.leb_spec 0 limit_index_) as [_|]; [|lia].
  destruct (Z.ltb_spec limit_index_ (Z.of_nat (length (limits_ b))))
    as [_|]; [|lia].
  simpl.
  unfold order_report.
  destruct (limit_order_message.side order).
  - destruct Hm as [->|(best & -> & Hb)]; simpl.
    + eexists. split; [reflexivity|]. simpl. auto 10.
    + rewrite Hb. eexists. split; [reflexivity|]. simpl. auto 10.
  - rewrite Hm. simpl. eexists. split; [reflexivity|]. simpl. auto 10.
Qed.

Lemma fill_or_kill_unmatched_witness :
  exists b',
    book_insert one_ask (order_at buy 4 15 limit_order_message.fill_or_kill 2%N)
    = Returns b'
    /\ reports b' =
         reports one_ask ++
         [ {| execution_report.state := execution_report.cancel;
              execution_report.quantity := 15%N;
              execution_report.identifier := no_identifier;
              execution_report.side := Some buy;
              execution_report.limit := Some (Quote 4 1);
              execution_report.owner := 2%N |} ]
    /\ pool_ b' = pool_ one_ask
    /\ limits_ b' = limits_ one_ask
    /\ best_bid_ b' = best_bid_ one_ask
    /\ best_ask_ b' = best_ask_ one_ask.
Proof.
  apply (fill_or_kill_unmatched (book_encode one_ask) (book_decode one_ask)
           one_ask
           (order_at buy 4 15 limit_order_message.fill_or_kill 2%N) 3).
  - reflexivity.
  - reflexivity.
  - simpl. lia.
  - vm_compute. reflexivity.
  - simpl. lia.
  - right. exists (Quote 5 1). split; vm_compute; reflexivity.
Defined.

(** ** The round trip of the codec *)

(** C2, at the maximum of the interval.  The tick that [default_encode]
    returns for the maximum quote of [small_book] is decoded to the quote
    11, which lies above the maximum, so encoding it again fails: the round
    trip does not return the tick. *)
Theorem encode_decode_maximum :
  exists b,
    small_book = Some b
    /\ book_encode b (Quote 10 1) = Some 10
    /\ book_decode b 10 = Quote 11 1
    /\ book_encode b (book_decode b 10) = None.
Proof.
  eexists. split; [reflexivity|]. vm_compute. auto.
Qed.

(** ** Invalid orders *)

(** C3. An order whose quantity is not positive, or whose limit lies outside
    the valid interval, makes [insert] return with exactly one report
    appended, of state [invalid]; the pool, the levels, both cursors and the
    valid interval are as they were. *)
Theorem insert_invalid_order (encode : quote -> option Z)
  (decode : Z -> quote) (b : book) (order : limit_order_message.t) :
  (limit_order_message.quantity order <= 0)%N
  \/ contains (valid_limits b) (limit_order_message.limit order) = false ->
  exists b',
    insert encode decode b order = Returns b'
    /\ reports b' =
         reports b ++
         [ {| execution_report.state := execution_report.invalid;
              execution_report.quantity := limit_order_message.quantity order;
              execution_report.identifier := no_identifier;
              execution_report.side := Some (limit_order_message.side order);
              execution_report.limit :=
                Some (limit_order_message.limit order);
              execution_report.owner := limit_order_message.owner order |} ]
    /\ pool_ b' = pool_ b
    /\ limits_ b' = limits_ b
    /\ best_bid_ b' = best_bid_ b
    /\ best_ask_ b' = best_ask_ b
    /\ valid_limits b' = valid_limits b.
Proof.
  intros H. unfold insert.
  assert (E : negb (contains (valid_limits b)
                      (limit_order_message.limit order))
              || (limit_order_message.quantity order <=? 0)%N = true).
  { destruct H as [H|H].
    - apply orb_true_iff. right. now apply N.leb_le.
    - rewrite H. reflexivity. }
  rewrite E. eexists. split; [reflexivity|]. simpl. auto 10.
Qed.

Lemma insert_invalid_order_witness :
  exists b',
    book_insert two_asks
      (order_at buy 5 0 limit_order_message.good_until_cancelled 3%N)
    = Returns b'
    /\ reports b' =
         reports two_asks ++
         [ {| execution_report.state := execution_report.invalid;
              execution_report.quantity := 0%N;
              execution_report.identifier := no_identifier;
              execution_report.side := Some buy;
              execution_report.limit := Some (Quote 5 1);
              execution_report.owner := 3%N |} ]
    /\ pool_ b' = pool_ two_asks
    /\ limits_ b' = limits_ two_asks
    /\ best_bid_ b' = best_bid_ two_asks
    /\ best_ask_ b' = best_ask_ two_asks
    /\ valid_limits b' = valid_limits two_asks.
Proof.
  apply (insert_invalid_order (book_encode two_asks) (book_decode two_asks)
           two_asks
           (order_at buy 5 0 limit_order_message.good_until_cancelled 3%N)).
  left. simpl. lia.
Defined.

(** ** The remainder of an immediate order *)

(** C4, for a fill-or-kill order that is matched in part.  [insert] fills
    10 of the 15 units of [fill_or_kill_buy] on [one_ask]; for the 5 units
    left it allocates block 1, appends it to level 4 and ends with a
    [placement] report; no [cancel] report is emitted. *)
Theorem fill_or_kill_remainder_rests :
  exists b',
    book_insert one_ask fill_or_kill_buy = Returns b'
    /\ reports b' =
         reports one_ask ++
         [ aggressor_report fill_or_kill_buy 10 (Quote 5 1);
           supplier_report fill_or_kill_buy 10 (Quote 5 1) 0%nat 1%N;
           order_report execution_report.placement fill_or_kill_buy 5 1 ]
    /\ pool_ one_ask !! 1%nat = Some None
    /\ pool_ b' !! 1%nat
       = Some (Some {| quantity := 5; owner := 2%N; successor := None |})
    /\ limits_ b' !! 4%nat = Some (Some 1%nat, Some 1%nat).
Proof.
  eexists. split; [vm_compute; reflexivity|]. vm_compute. auto.
Qed.

(** ** Crossed quotes *)

(** C5 fails after [crossing_orders] on [small_book]: every call returns,
    and then [bid()] is 8 and [ask()] is 1, below the bid.  The first sell
    order rests at level 0, where [best_bid_] points from the start, so
    [bid()] has a value for the second sell order, which is matched against
    the first and moves [best_bid_] below the ladder; the two buy orders then
    find no [ask()] and rest at levels 7 and 0. *)
Theorem book_crossed_after_inserts :
  exists b,
    inserts small_book crossing_orders = Returns b
    /\ book_bid b = Returns (Some (Quote 8 1))
    /\ book_ask b = Returns (Some (Quote 1 1))
    /\ quote_geb (Quote 1 1) (Quote 8 1) = false.
Proof.
  eexists. split; [vm_compute; reflexivity|]. vm_compute. auto.
Qed.

(** ** Price-time priority *)

(** C6 fails after a cancellation.  In [three_asks] every block of the
    pool is taken.  The second order is cancelled, which frees block 1 and
    leaves it linked behind block 0; the order [late_ask] then takes block
    1, the one free block, and with it the place behind block 0.  The order
    of owner 3, in block 2, rests at price 5 before [late_ask] does; yet
    [sweeping_buy] is matched against the blocks 0 and 1: the later order is
    executed in full and the earlier one not at all. *)
Lemma priority_lost_after_cancel :
  exists b4 b5 b6,
    block_pool.first_free (pool_ three_asks) = None
    /\ cancel three_asks 1%nat = Returns b4
    /\ book_insert b4 late_ask = Returns b5
    /\ book_insert b5 sweeping_buy = Returns b6
    /\ reports three_asks !! 2%nat =
         Some (order_report execution_report.placement
                 (order_at sell 5 10
                    limit_order_message.good_until_cancelled 3%N)
                 10 2)
    /\ reports b5 =
         reports three_asks ++
         [ {| execution_report.state := execution_report.cancel;
              execution_report.quantity := 10%N;
              execution_report.identifier := 1;
              execution_report.side := None;
              execution_report.limit := None;
              execution_report.owner := 2%N |};
           order_report execution_report.placement late_ask 10 1 ]
    /\ reports b6 =
         reports b5 ++
         [ aggressor_report sweeping_buy 10 (Quote 5 1);
           supplier_report sweeping_buy 10 (Quote 5 1) 0%nat 1%N;
           aggressor_report sweeping_buy 10 (Quote 5 1);
           supplier_report sweeping_buy 10 (Quote 5 1) 1%nat 5%N ]
    /\ quantity_at (pool_ b5) 2%nat = Some 10%N
    /\ quantity_at (pool_ b5) 1%nat = Some 10%N
    /\ quantity_at (pool_ b6) 2%nat = Some 10%N
    /\ quantity_at (pool_ b6) 1%nat = Some 0%N.
Proof.
  do 3 eexists.
  split; [reflexivity|].
  split; [vm_compute; reflexivity|].
  split; [vm_compute; reflexivity|].
  split; [vm_compute; reflexivity|].
  vm_compute. auto 10.
Qed.

(** C6, for a book built by calls of [insert] alone.  Let the order [o1]
    be inserted and placed in the block [h1], and later, after any calls
    of [insert], the order [o2] be inserted and placed in the block [h2],
    at the same level; what a call reports as placed is the quantity of
    the block it names.  Then for every [insert] that follows, after any
    further calls of [insert]: if the block of [o2] loses any quantity in
    the call, the block of [o1] is empty after it; and among the reports
    of the call, every report for the owner of [o1] stands before every
    report for the owner of [o2]. *)
Theorem price_time_priority (max_orders_ : nat) (minimum maximum : quote)
  (earlier between later : list limit_order_message.t)
  (o1 o2 order : limit_order_message.t) (b1 b2 b b' : book)
  (h1 h2 : index) (n1 n2 : N) :
  inserts (new_book max_orders_ minimum maximum) (earlier ++ [o1])
  = Returns b1 ->
  last (reports b1)
  = Some (order_report execution_report.placement o1 n1 (Z.of_nat h1)) ->
  inserts (Some b1) (between ++ [o2]) = Returns b2 ->
  last (reports b2)
  = Some (order_report execution_report.placement o2 n2 (Z.of_nat h2)) ->
  book_encode b (limit_order_message.limit o1)
  = book_encode b (limit_order_message.limit o2) ->
  inserts (Some b2) later = Returns b ->
  final (book_insert b order) = Some b' ->
  quantity_at (pool_ b1) h1 = Some n1
  /\ quantity_at (pool_ b2) h2 = Some n2
  /\ (quantity_at (pool_ b') h2 <> quantity_at (pool_ b) h2 ->
      quantity_at (pool_ b') h1 = Some 0%N)
  /\ (forall (i1 i2 : nat) (s1 s2 : N) (p1 p2 : quote) (w1 w2 : identity),
        (length (reports b) <= i1)%nat ->
        (length (reports b) <= i2)%nat ->
        reports b' !! i1 = Some (supplier_report order s1 p1 h1 w1) ->
        reports b' !! i2 = Some (supplier_report order s2 p2 h2 w2) ->
        (i1 < i2)%nat).
Proof.
  intros H1 L1 H2 L2 Hsame H3 Hfin.
  apply inserts_snoc in H1 as (b0 & H0 & Hi1).
  destruct (new_book max_orders_ minimum maximum) as [bn|] eqn:En;
    [|discriminate].
  apply new_book_filed in En.
  destruct (inserts_filed _ _ _ En H0) as (F0 & _).
  destruct (book_insert_filed _ _ _ F0 Hi1) as (F1 & E1 & N1 & _).
  destruct (placement_reported _ _ _ _ _ _ _ Hi1 L1)
    as ((l & He1 & Hl) & Hq1).
  apply inserts_snoc in H2 as (b2' & H2a & Hi2).
  destruct (inserts_filed _ _ _ F1 H2a) as (F2' & E2' & N2' & ma & Ra & _).
  destruct (book_insert_filed _ _ _ F2' Hi2)
    as (F2 & E2 & N2 & mb & Rb & Hmb).
  destruct (placement_reported _ _ _ _ _ _ _ Hi2 L2)
    as ((l2 & He2 & _) & Hq2).
  destruct (inserts_filed _ _ _ F2 H3)
    as ((qs & F) & E3 & N3 & mc & Rc & _).
  split; [exact Hq1|]. split; [exact Hq2|].
  assert (Eb1 : book_encode b (limit_order_message.limit o1) = Some l)
    by congruence.
  assert (Eb2 : book_encode b (limit_order_message.limit o2) = Some l)
    by congruence.
  apply last_Some in L1 as (pre & R1).
  assert (Lb : last mb
               = Some (order_report execution_report.placement o2 n2
                         (Z.of_nat h2))).
  { rewrite Rb, last_app in L2. destruct (last mb) eqn:E; [exact L2|].
    apply last_None in E. contradiction. }
  apply last_Some in Lb as (mid & ->).
  set (H := placed_at (book_encode b) l (reports b)).
  assert (EH : H = placed_at (book_encode b) l pre ++ [h1]
                   ++ placed_at (book_encode b) l (ma ++ mid) ++ [h2]
                   ++ placed_at (book_encode b) l mc).
  { unfold H. rewrite Rc, Rb, Ra, R1. rewrite !placed_at_app.
    rewrite (placed_at_placement _ o1 l l) by exact Eb1.
    rewrite (placed_at_placement _ o2 l l) by exact Eb2.
    rewrite Z.eqb_refl. rewrite <- !app_assoc. reflexivity. }
  unfold book_insert in Hfin.
  eapply (priority_in_queue (book_encode b) (book_decode b) order b b' qs
            (Z.to_nat l)
            (length (placed_at (book_encode b) l pre))
            (length (placed_at (book_encode b) l pre) + 1
             + length (placed_at (book_encode b) l (ma ++ mid)))%nat);
    [exact F| | | |lia|exact Hfin].
  - destruct F as ((Hq & _) & _). rewrite <- (Forall2_length _ _ _ Hq).
    lia.
  - rewrite Z2Nat.id by lia. fold H. rewrite EH.
    rewrite lookup_app_r by lia. rewrite Nat.sub_diag. reflexivity.
  - rewrite Z2Nat.id by lia. fold H. rewrite EH.
    rewrite lookup_app_r by lia.
    replace (length (placed_at (book_encode b) l pre) + 1
             + length (placed_at (book_encode b) l (ma ++ mid))
             - length (placed_at (book_encode b) l pre))%nat
      with (S (length (placed_at (book_encode b) l (ma ++ mid)))) by lia.
    simpl. rewrite lookup_app_r by lia. rewrite Nat.sub_diag. reflexivity.
Qed.

Lemma price_time_priority_witness :
  quantity_at
    (pool_ (after [ order_at sell 5 10
                      limit_order_message.good_until_cancelled 1%N ]))
    0%nat = Some 10%N
  /\ quantity_at (pool_ two_asks) 1%nat = Some 20%N
  /\ (quantity_at (pool_ two_asks_crossed) 1%nat
      <> quantity_at (pool_ two_asks) 1%nat ->
      quantity_at (pool_ two_asks_crossed) 0%nat = Some 0%N)
  /\ (forall (i1 i2 : nat) (s1 s2 : N) (p1 p2 : quote) (w1 w2 : identity),
        (length (reports two_asks) <= i1)%nat ->
        (length (reports two_asks) <= i2)%nat ->
        reports two_asks_crossed !! i1
        = Some (supplier_report crossing_buy s1 p1 0%nat w1) ->
        reports two_asks_crossed !! i2
        = Some (supplier_report crossing_buy s2 p2 1%nat w2) ->
        (i1 < i2)%nat).
Proof.
  apply (price_time_priority 4 (Quote 1 1) (Quote 10 1) [] [] []
           (order_at sell 5 10 limit_order_message.good_until_cancelled 1%N)
           (order_at sell 5 20 limit_order_message.good_until_cancelled 2%N)
           crossing_buy
           (after [ order_at sell 5 10
                      limit_order_message.good_until_cancelled 1%N ])
           two_asks two_asks two_asks_crossed 0%nat 1%nat 10%N 20%N).
  - vm_compute. reflexivity.
  - vm_compute. reflexivity.
  - vm_compute. reflexivity.
  - vm_compute. reflexivity.
  - vm_compute. reflexivity.
  - vm_compute. reflexivity.
  - vm_compute. reflexivity.
Defined.

(** ** Paired match reports *)

(** C7. The reports that one [insert] appends are the reports of its
    executions, pair by pair, followed by at most one report that is no
    [match].  The pair of an execution is adjacent: first the report for the
    aggressor, with the identifier that names no order, then the report for
    the owner of the resting order, with the index of its block; both are
    [match] reports with the size of the execution and the quote decoded
    from the tick of the level.  The executions are those of the call:
    each takes from a block of the pool before the call, of that owner and
    of at least that quantity, which is linked from the head of the level
    of the execution; every block of the pool before the call loses what
    the executions take from it, no more and no less, so that a block whose
    quantity changes has an execution of its own, with its two adjacent
    reports among those appended; and the sizes of the executions and the
    quantity of the closing report add up to the quantity of the order,
    unless the pool was exhausted. *)
Theorem match_reports_paired (encode : quote -> option Z)
  (decode : Z -> quote) (b b' : book) (order : limit_order_message.t) :
  final (insert encode decode b order) = Some b' ->
  exists (fs : list fill) (tail : list execution_report.t),
    reports b' =
      reports b
      ++ concat
           (map (fun f =>
                   [ {| execution_report.state := execution_report.match_;
                        execution_report.quantity := fill_size f;
                        execution_report.identifier := no_identifier;
                        execution_report.side :=
                          Some (limit_order_message.side order);
                        execution_report.limit :=
                          Some (decode (fill_level f));
                        execution_report.owner :=
                          limit_order_message.owner order |};
                     {| execution_report.state := execution_report.match_;
                        execution_report.quantity := fill_size f;
                        execution_report.identifier :=
                          Z.of_nat (fill_block f);
                        execution_report.side :=
                          Some (opposite (limit_order_message.side order));
                        execution_report.limit :=
                          Some (decode (fill_level f));
                        execution_report.owner := fill_supplier f |} ])
                fs)
      ++ tail
    /\ (length tail <= 1)%nat
    /\ Forall (fun r => execution_report.state r
                        <> execution_report.match_) tail
    /\ Forall (fill_of (pool_ b)) fs
    /\ Forall (fun f => 0 <= fill_level f < Z.of_nat (length (limits_ b)))
              fs
    /\ Forall (at_level b) fs
    /\ (forall h x, pool_ b !! h = Some (Some x) ->
          quantity_at (pool_ b') h = Some (quantity x - taken fs h)%N
          /\ (taken fs h <= quantity x)%N)
    /\ (forall h x, pool_ b !! h = Some (Some x) ->
          quantity_at (pool_ b') h <> Some (quantity x) ->
          exists f i,
            f ∈ fs /\ fill_block f = h /\ (0 < fill_size f)%N
            /\ (length (reports b) <= i)%nat
            /\ reports b' !! i
               = Some (aggressor_report order (fill_size f)
                         (decode (fill_level f)))
            /\ reports b' !! S i
               = Some (supplier_report order (fill_size f)
                         (decode (fill_level f)) (fill_block f)
                         (fill_supplier f)))
    /\ (total fs + reported tail <= limit_order_message.quantity order)%N
    /\ ((total fs + reported tail)%N = limit_order_message.quantity order
        \/ insert encode decode b order = Throws b').
Proof.
  intros H.
  assert (Hp : exists fs tail,
            paired decode order b b' fs tail
            /\ ((total fs + reported tail)%N
                = limit_order_message.quantity order
                \/ insert encode decode b order = Throws b')).
  { pose proof (insert_paired decode order encode b) as He.
    destruct (insert encode decode b order) as [bx|bx|]; simpl in *;
      inversion H; subst.
    - destruct He as (fs & tail & Hp & Hq). eauto.
    - destruct He as (fs & tail & Hp). eauto. }
  destruct Hp as (fs & tail & (R & C & F & L & Q & T) & E).
  exists fs, tail. split; [exact R|].
  split; [destruct C as [->|(state & q & i & -> & Hs)]; simpl; lia|].
  split.
  { destruct C as [->|(state & q & i & -> & Hs)]; repeat constructor.
    exact Hs. }
  split; [exact F|]. split.
  { eapply Forall_impl; [exact L|]. simpl.
    intros f (H0 & lv & Hlv & _). split; [exact H0|].
    apply lookup_lt_Some in Hlv. lia. }
  split; [exact L|]. split; [exact Q|]. split; [|auto].
  intros h x Hh Hne. destruct (Q h x Hh) as (Hq & Ht).
  destruct (taken_positive fs h) as (f & Hf & Hb & Hs).
  { intros Z. apply Hne. rewrite Hq, Z. f_equal. lia. }
  destruct (fills_reports_adjacent decode order fs f Hf) as (i & Ha & Hsup).
  exists f, (length (reports b) + i)%nat.
  split; [exact Hf|]. split; [exact Hb|]. split; [exact Hs|].
  split; [lia|]. rewrite R. split.
  - rewrite lookup_app_r by lia.
    replace (length (reports b) + i - length (reports b))%nat with i by lia.
    apply lookup_app_l_Some. exact Ha.
  - rewrite lookup_app_r by lia.
    replace (S (length (reports b) + i) - length (reports b))%nat
      with (S i) by lia.
    apply lookup_app_l_Some. exact Hsup.
Qed.

Lemma match_reports_paired_witness :
  exists (fs : list fill) (tail : list execution_report.t),
    reports two_asks_crossed =
      reports two_asks
      ++ concat
           (map (fun f =>
                   [ {| execution_report.state := execution_report.match_;
                        execution_report.quantity := fill_size f;
                        execution_report.identifier := no_identifier;
                        execution_report.side := Some buy;
                        execution_report.limit :=
                          Some (book_decode two_asks (fill_level f));
                        execution_report.owner := 3%N |};
                     {| execution_report.state := execution_report.match_;
                        execution_report.quantity := fill_size f;
                        execution_report.identifier :=
                          Z.of_nat (fill_block f);
                        execution_report.side := Some sell;
                        execution_report.limit :=
                          Some (book_decode two_asks (fill_level f));
                        execution_report.owner := fill_supplier f |} ])
                fs)
      ++ tail
    /\ (length tail <= 1)%nat
    /\ Forall (fun r => execution_report.state r
                        <> execution_report.match_) tail
    /\ Forall (fill_of (pool_ two_asks)) fs
    /\ Forall (fun f => 0 <= fill_level f
                             < Z.of_nat (length (limits_ two_asks))) fs
    /\ Forall (at_level two_asks) fs
    /\ (forall h x, pool_ two_asks !! h = Some (Some x) ->
          quantity_at (pool_ two_asks_crossed) h
          = Some (quantity x - taken fs h)%N
          /\ (taken fs h <= quantity x)%N)
    /\ (forall h x, pool_ two_asks !! h = Some (Some x) ->
          quantity_at (pool_ two_asks_crossed) h <> Some (quantity x) ->
          exists f i,
            f ∈ fs /\ fill_block f = h /\ (0 < fill_size f)%N
            /\ (length (reports two_asks) <= i)%nat
            /\ reports two_asks_crossed !! i
               = Some (aggressor_report crossing_buy (fill_size f)
                         (book_decode two_asks (fill_level f)))
            /\ reports two_asks_crossed !! S i
               = Some (supplier_report crossing_buy (fill_size f)
                         (book_decode two_asks (fill_level f))
                         (fill_block f) (fill_supplier f)))
    /\ (total fs + reported tail
        <= limit_order_message.quantity crossing_buy)%N
    /\ ((total fs + reported tail)%N
        = limit_order_message.quantity crossing_buy
        \/ insert (book_encode two_asks) (book_decode two_asks) two_asks
             crossing_buy = Throws two_asks_crossed).
Proof.
  apply (match_reports_paired (book_encode two_asks) (book_decode two_asks)
           two_asks two_asks_crossed crossing_buy).
  vm_compute. reflexivity.
Defined.

(** ** The ticks of the ladder *)

(** C8, at the maximum of the interval.  On the ladder of [small_book], of
    ten levels, [default_encode] maps the maximum quote, which the interval
    contains, to the tick 10, the length of the ladder: the tick is no index
    of a level, and the assertion of [insert] fails for an order at that
    price. *)
Theorem encode_maximum_outside_ladder :
  exists b,
    small_book = Some b
    /\ length (limits_ b) = 10%nat
    /\ contains (valid_limits b) (Quote 10 1) = true
    /\ book_encode b (Quote 10 1) = Some 10
    /\ book_insert b
         (order_at sell 10 5 limit_order_message.good_until_cancelled 1%N)
       = Undefined assertion_failed.
Proof.
  eexists. split; [reflexivity|]. vm_compute. auto.
Qed.

(** ** Cancellation *)

(** C9. For the index [h] of an allocated block, the block of a resting
    order, [cancel] returns with exactly one report appended, a [cancel]
    report with the quantity and the owner of the block, and the block is
    freed; every other block, every level (head and tail) and both cursors
    are as they were. *)
Theorem cancel_resting_order (b : book) (h : index) (r : record) :
  pool_ b !! h = Some (Some r) ->
  exists b',
    cancel b h = Returns b'
    /\ reports b' =
         reports b ++
         [ {| execution_report.state := execution_report.cancel;
              execution_report.quantity := quantity r;
              execution_report.identifier := Z.of_nat h;
              execution_report.side := None;
              execution_report.limit := None;
              execution_report.owner := owner r |} ]
    /\ pool_ b' !! h = Some None
    /\ (forall h', h' <> h -> pool_ b' !! h' = pool_ b !! h')
    /\ length (pool_ b') = length (pool_ b)
    /\ limits_ b' = limits_ b
    /\ best_bid_ b' = best_bid_ b
    /\ best_ask_ b' = best_ask_ b.
Proof.
  intros H. unfold cancel, block_pool.get. rewrite H. simpl.
  eexists. split; [reflexivity|]. simpl. unfold block_pool.erase.
  repeat split.
  - apply list_lookup_insert_eq. eapply lookup_lt_Some; eauto.
  - intros h' Hne. apply list_lookup_insert_ne. congruence.
  - apply length_insert.
Qed.

Lemma cancel_resting_order_witness :
  exists b',
    cancel two_asks 1%nat = Returns b'
    /\ reports b' =
         reports two_asks ++
         [ {| execution_report.state := execution_report.cancel;
              execution_report.quantity := 20%N;
              execution_report.identifier := 1;
              execution_report.side := None;
              execution_report.limit := None;
              execution_report.owner := 2%N |} ]
    /\ pool_ b' !! 1%nat = Some None
    /\ (forall h', h' <> 1%nat -> pool_ b' !! h' = pool_ two_asks !! h')
    /\ length (pool_ b') = length (pool_ two_asks)
    /\ limits_ b' = limits_ two_asks
    /\ best_bid_ b' = best_bid_ two_asks
    /\ best_ask_ b' = best_ask_ two_asks.
Proof.
  apply (cancel_resting_order two_asks 1%nat
           {| quantity := 20; owner := 2%N; successor := None |}).
  reflexivity.
Defined.

(** ** The report stream *)

(** C10. [insert] and [cancel] only append to [reports]: the reports
    before the call are a prefix of the reports after it, also when the
    exception of the pool ends the call. *)
Theorem reports_append_only (encode : quote -> option Z)
  (decode : Z -> quote) (b b' : book) :
  (exists order, final (insert encode decode b order) = Some b')
  \/ (exists h, final (cancel b h) = Some b') ->
  reports b `prefix_of` reports b'.
Proof.
  intros [[order H]|[h H]].
  - assert (Hi : inserted decode order b b').
    { pose proof (insert_inserted decode order encode b) as He.
      destruct (insert encode decode b order); simpl in *;
        inversion H; subst; exact He. }
    destruct Hi as (fs & tail & R & _). rewrite R. now eexists.
  - unfold cancel in H. destruct (block_pool.get (pool_ b) h); simpl in H;
      inversion H; subst. simpl. now eexists.
Qed.

Lemma reports_append_only_witness :
  reports two_asks `prefix_of` reports two_asks_crossed.
Proof.
  apply (reports_append_only (book_encode two_asks) (book_decode two_asks)
           two_asks two_asks_crossed).
  left. exists crossing_buy. vm_compute. reflexivity.
Defined.

(** * Further properties of the book *)

(** ** The units of an order *)

(** X1. [insert] accounts for every unit of the order it returns from: the
    sizes of its executions and the quantity of the report that closes the
    order (invalid, cancel or placement) add up to the quantity of the
    order. *)
Theorem insert_accounts_for_order (encode : quote -> option Z)
  (decode : Z -> quote) (b b' : book) (order : limit_order_message.t) :
  insert encode decode b order = Returns b' ->
  exists (fs : list fill) (tail : list execution_report.t),
    reports b' = reports b ++ fills_reports decode order fs ++ tail
    /\ closing order tail
    /\ (total fs + reported tail = limit_order_message.quantity order)%N.
Proof.
  intros H. apply insert_returns in H.
  destruct (accounted_reports _ _ _ _ _ H)
    as (fs & tail & R & C & T & _).
  eauto.
Qed.

Lemma insert_accounts_for_order_witness :
  exists (fs : list fill) (tail : list execution_report.t),
    reports two_asks_crossed =
      reports two_asks
      ++ fills_reports (book_decode two_asks) crossing_buy fs ++ tail
    /\ closing crossing_buy tail
    /\ (total fs + reported tail = 15)%N.
Proof.
  apply (insert_accounts_for_order (book_encode two_asks)
           (book_decode two_asks) two_asks two_asks_crossed crossing_buy).
  vm_compute. reflexivity.
Defined.

(** X2. The units that rest in the pool change by one [insert] exactly as
    its reports say: they fall by the sizes of the executions and rise by
    the quantity of the placement, if there is one; also when the
    exhausted pool ends the call. *)
Theorem insert_conserves_resting (encode : quote -> option Z)
  (decode : Z -> quote) (b b' : book) (order : limit_order_message.t) :
  final (insert encode decode b order) = Some b' ->
  exists (fs : list fill) (tail : list execution_report.t),
    reports b' = reports b ++ fills_reports decode order fs ++ tail
    /\ closing order tail
    /\ (resting (pool_ b') + total fs = resting (pool_ b) + placed tail)%N.
Proof.
  intros H. apply final_insert in H. destruct H as [H|H].
  - destruct (accounted_reports _ _ _ _ _ H)
      as (fs & tail & R & C & _ & W & _).
    eauto.
  - destruct (exhausted_reports _ _ _ _ _ H) as (fs & R & _ & W & _).
    exists fs, []. rewrite app_nil_r. simpl.
    split; [exact R|]. split; [now left|lia].
Qed.

Lemma insert_conserves_resting_witness :
  exists (fs : list fill) (tail : list execution_report.t),
    reports two_asks_crossed =
      reports two_asks
      ++ fills_reports (book_decode two_asks) crossing_buy fs ++ tail
    /\ closing crossing_buy tail
    /\ (resting (pool_ two_asks_crossed) + total fs
        = resting (pool_ two_asks) + placed tail)%N.
Proof.
  apply (insert_conserves_resting (book_encode two_asks)
           (book_decode two_asks) two_asks two_asks_crossed crossing_buy).
  vm_compute. reflexivity.
Defined.

(** ** The prices of the executions *)

(** X3. An aggressor is executed from the best price on and never beyond
    its limit: the levels of the executions of a buy order lie between
    [best_ask_] and the tick of its limit and never go down, those of a sell
    order lie between the tick of its limit and [best_bid_] and never go
    up. *)
Theorem executions_within_limit (encode : quote -> option Z)
  (decode : Z -> quote) (b b' : book) (order : limit_order_message.t)
  (limit_index_ : Z) :
  final (insert encode decode b order) = Some b' ->
  encode (limit_order_message.limit order) = Some limit_index_ ->
  exists (fs : list fill) (tail : list execution_report.t),
    reports b' = reports b ++ fills_reports decode order fs ++ tail
    /\ closing order tail
    /\ match limit_order_message.side order with
       | limit_order_message.buy =>
           Forall (fun f => best_ask_ b <= fill_level f <= limit_index_) fs
           /\ ascending (map fill_level fs)
       | limit_order_message.sell =>
           Forall (fun f => limit_index_ <= fill_level f <= best_bid_ b) fs
           /\ descending (map fill_level fs)
       end.
Proof.
  intros H He. apply final_insert in H. destruct H as [H|H].
  - destruct (accounted_reports _ _ _ _ _ H)
      as (fs & tail & R & C & _ & _ & L & _).
    exists fs, tail. split; [exact R|]. split; [exact C|].
    specialize (L _ He). unfold within_limit in L.
    destruct (limit_order_message.side order); exact L.
  - destruct (exhausted_reports _ _ _ _ _ H) as (fs & R & _ & _ & L & _).
    exists fs, []. rewrite app_nil_r.
    split; [exact R|]. split; [now left|].
    specialize (L _ He). unfold within_limit in L.
    destruct (limit_order_message.side order); exact L.
Qed.

Lemma executions_within_limit_witness :
  exists (fs : list fill) (tail : list execution_report.t),
    reports two_asks_crossed =
      reports two_asks
      ++ fills_reports (book_decode two_asks) crossing_buy fs ++ tail
    /\ closing crossing_buy tail
    /\ Forall (fun f => best_ask_ two_asks <= fill_level f <= 4) fs
    /\ ascending (map fill_level fs).
Proof.
  apply (executions_within_limit (book_encode two_asks)
           (book_decode two_asks) two_asks two_asks_crossed crossing_buy 4).
  - vm_compute. reflexivity.
  - vm_compute. reflexivity.
Defined.

(** ** What an insert keeps *)

(** X4. [insert] frees no block and takes at most one: the pool keeps its
    size, every allocated block stays allocated with its owner and with no
    more quantity than before, also a block that executions have emptied;
    and a free block stays free unless it is the first free block of the
    pool. *)
Theorem insert_frees_no_block (encode : quote -> option Z)
  (decode : Z -> quote) (b b' : book) (order : limit_order_message.t) :
  final (insert encode decode b order) = Some b' ->
  length (pool_ b') = length (pool_ b)
  /\ (forall h r, pool_ b !! h = Some (Some r) ->
        exists r', pool_ b' !! h = Some (Some r')
                   /\ owner r' = owner r
                   /\ (quantity r' <= quantity r)%N)
  /\ (forall h, pool_ b !! h = Some None ->
        pool_ b' !! h = Some None
        \/ block_pool.first_free (pool_ b) = Some h).
Proof.
  intros H. apply insert_kept in H.
  destruct H as (_ & _ & _ & _ & Hl & Ha & Hf). auto.
Qed.

Lemma insert_frees_no_block_witness :
  length (pool_ two_asks_crossed) = length (pool_ two_asks)
  /\ (forall h r, pool_ two_asks !! h = Some (Some r) ->
        exists r', pool_ two_asks_crossed !! h = Some (Some r')
                   /\ owner r' = owner r
                   /\ (quantity r' <= quantity r)%N)
  /\ (forall h, pool_ two_asks !! h = Some None ->
        pool_ two_asks_crossed !! h = Some None
        \/ block_pool.first_free (pool_ two_asks) = Some h).
Proof.
  apply (insert_frees_no_block (book_encode two_asks)
           (book_decode two_asks) two_asks two_asks_crossed crossing_buy).
  vm_compute. reflexivity.
Defined.

(** X5. The cursors move one way in an [insert]: a buy order lowers neither
    [best_bid_] nor [best_ask_], a sell order raises neither. *)
Theorem insert_moves_cursors_one_way (encode : quote -> option Z)
  (decode : Z -> quote) (b b' : book) (order : limit_order_message.t) :
  final (insert encode decode b order) = Some b' ->
  match limit_order_message.side order with
  | limit_order_message.buy =>
      best_bid_ b <= best_bid_ b' /\ best_ask_ b <= best_ask_ b'
  | limit_order_message.sell =>
      best_bid_ b' <= best_bid_ b /\ best_ask_ b' <= best_ask_ b
  end.
Proof.
  intros H. apply insert_kept in H.
  destruct H as (_ & _ & _ & Hc & _). exact Hc.
Qed.

Lemma insert_moves_cursors_one_way_witness :
  best_bid_ two_asks <= best_bid_ two_asks_crossed
  /\ best_ask_ two_asks <= best_ask_ two_asks_crossed.
Proof.
  apply (insert_moves_cursors_one_way (book_encode two_asks)
           (book_decode two_asks) two_asks two_asks_crossed crossing_buy).
  vm_compute. reflexivity.
Defined.

(** X6. Neither [insert] nor [cancel] changes the length of the ladder,
    the valid interval or [ticks]; so the codec that the constructor set,
    which reads the first two, encodes and decodes after the call as it did
    before. *)
Theorem codec_is_kept (encode : quote -> option Z) (decode : Z -> quote)
  (b b' : book) :
  (exists order, final (insert encode decode b order) = Some b')
  \/ (exists h, final (cancel b h) = Some b') ->
  length (limits_ b') = length (limits_ b)
  /\ valid_limits b' = valid_limits b
  /\ ticks b' = ticks b
  /\ book_encode b' = book_encode b
  /\ book_decode b' = book_decode b.
Proof.
  intros H.
  assert (Hk : length (limits_ b') = length (limits_ b)
               /\ valid_limits b' = valid_limits b
               /\ ticks b' = ticks b).
  { destruct H as [[order H]|[h H]].
    - apply insert_kept in H. destruct H as (Hn & Hv & Ht & _). auto.
    - unfold cancel in H. destruct (block_pool.get (pool_ b) h);
        simpl in H; inversion H; subst. simpl. auto. }
  destruct Hk as (Hn & Hv & Ht). unfold book_encode, book_decode.
  rewrite Hn, Hv. auto.
Qed.

Lemma codec_is_kept_witness :
  length (limits_ two_asks_crossed) = length (limits_ two_asks)
  /\ valid_limits two_asks_crossed = valid_limits two_asks
  /\ ticks two_asks_crossed = ticks two_asks
  /\ book_encode two_asks_crossed = book_encode two_asks
  /\ book_decode two_asks_crossed = book_decode two_asks.
Proof.
  apply (codec_is_kept (book_encode two_asks) (book_decode two_asks)
           two_asks two_asks_crossed).
  left. exists crossing_buy. vm_compute. reflexivity.
Defined.

(** ** The exhausted pool *)

(** X7. The exception of the pool leaves [insert] only when the pool had no
    free block when the call began and the order is no immediate-or-cancel
    order.  The executions made before it stand: their reports are
    appended and their sizes, less than the quantity of the order, are taken
    from the pool; of the rest of the order there is no report. *)
Theorem insert_throws_on_full_pool (encode : quote -> option Z)
  (decode : Z -> quote) (b b' : book) (order : limit_order_message.t) :
  insert encode decode b order = Throws b' ->
  block_pool.first_free (pool_ b) = None
  /\ limit_order_message.lifetime order
     <> limit_order_message.immediate_or_cancel
  /\ exists fs : list fill,
       reports b' = reports b ++ fills_reports decode order fs
       /\ (total fs < limit_order_message.quantity order)%N
       /\ (resting (pool_ b') + total fs = resting (pool_ b))%N
       /\ pool_shrinks (pool_ b) (pool_ b').
Proof.
  intros H. apply insert_throws in H.
  destruct (exhausted_reports _ _ _ _ _ H)
    as (fs & R & T & W & _ & P & F & L).
  split; [exact F|]. split; [exact L|]. exists fs. auto.
Qed.

Lemma insert_throws_on_full_pool_witness :
  block_pool.first_free (pool_ three_asks) = None
  /\ limit_order_message.lifetime large_buy
     <> limit_order_message.immediate_or_cancel
  /\ exists fs : list fill,
       reports three_asks_swept =
         reports three_asks
         ++ fills_reports (book_decode three_asks) large_buy fs
       /\ (total fs < limit_order_message.quantity large_buy)%N
       /\ (resting (pool_ three_asks_swept) + total fs
           = resting (pool_ three_asks))%N
       /\ pool_shrinks (pool_ three_asks) (pool_ three_asks_swept).
Proof.
  apply (insert_throws_on_full_pool (book_encode three_asks)
           (book_decode three_asks) three_asks three_asks_swept large_buy).
  vm_compute. reflexivity.
Defined.

(** ** Immediate orders *)

(** X8. An immediate-or-cancel order never rests: [insert] returns (the
    pool is not asked for a block), it appends no placement report, and in
    the pool no block is taken and no successor changes; only quantities
    fall. *)
Theorem immediate_or_cancel_never_rests (encode : quote -> option Z)
  (decode : Z -> quote) (b b' : book) (order : limit_order_message.t) :
  limit_order_message.lifetime order
  = limit_order_message.immediate_or_cancel ->
  final (insert encode decode b order) = Some b' ->
  insert encode decode b order = Returns b'
  /\ exists (fs : list fill) (tail : list execution_report.t),
       reports b' = reports b ++ fills_reports decode order fs ++ tail
       /\ closing order tail
       /\ Forall (fun r => execution_report.state r
                           <> execution_report.placement) tail
       /\ pool_shrinks (pool_ b) (pool_ b').
Proof.
  intros Hl H.
  destruct (insert encode decode b order) as [b1|b1|f] eqn:E;
    simpl in H; inversion H; subst.
  - split; [reflexivity|]. apply insert_returns in E.
    destruct (accounted_reports _ _ _ _ _ E)
      as (fs & tail & R & C & _ & _ & _ & I & P).
    exists fs, tail. split; [exact R|]. split; [exact C|].
    split; [exact (I Hl)|exact (P (I Hl))].
  - apply insert_throws in E.
    destruct (exhausted_reports _ _ _ _ _ E) as (fs & _ & _ & _ & _ & _ & _
                                                 & L).
    contradiction.
Qed.

Lemma immediate_or_cancel_never_rests_witness :
  book_insert one_ask immediate_buy = Returns one_ask_taken
  /\ exists (fs : list fill) (tail : list execution_report.t),
       reports one_ask_taken =
         reports one_ask
         ++ fills_reports (book_decode one_ask) immediate_buy fs ++ tail
       /\ closing immediate_buy tail
       /\ Forall (fun r => execution_report.state r
                           <> execution_report.placement) tail
       /\ pool_shrinks (pool_ one_ask) (pool_ one_ask_taken).
Proof.
  apply (immediate_or_cancel_never_rests (book_encode one_ask)
           (book_decode one_ask) one_ask one_ask_taken immediate_buy).
  - reflexivity.
  - vm_compute. reflexivity.
Defined.

(** ** The cursors after a level is emptied *)

(** X9. When a buy order has emptied a level, the loop that follows moves
    [best_ask_] from its level [a0] up to the next level that holds an
    order, or to the last level if there is none: every level it passes is
    empty.  From the last level it steps one past the end of the ladder. *)
Theorem best_ask_passes_empty_levels (l : list limit_type) (a0 a' : Z) :
  advance_ask (Z.to_nat (back l - a0)) l (a0 + 1) = Returns a' ->
  a0 < a' <= Z.max (a0 + 1) (back l)
  /\ (forall i, a0 < i < a' ->
        exists lv, l !! Z.to_nat i = Some lv /\ fst lv = None)
  /\ (a0 < back l ->
        exists lv, l !! Z.to_nat a' = Some lv
                   /\ (has_value (fst lv) = true \/ a' = back l)).
Proof.
  intros H.
  pose proof (ensures_returns _ _ _ _
                (advance_ask_passes (Z.to_nat (back l - a0)) l (a0 + 1)) H)
    as (Hr & Hp & Hs).
  assert (Hle : a' <= Z.max (a0 + 1) (back l)).
  { destruct (Z_lt_le_dec (back l) a') as [Hlt|]; [|lia].
    destruct (Z_lt_le_dec a0 (back l)) as [Hb|]; [|lia].
    destruct (Hp (back l)) as (_ & Hne & _); [lia|]. contradiction. }
  split; [lia|]. split.
  - intros i Hi. destruct (Hp i) as (_ & _ & Hlv); [lia|]. exact Hlv.
  - intros Hb. destruct Hs as (_ & Hlv); [lia|]. exact Hlv.
Qed.

Lemma best_ask_passes_empty_levels_witness :
  4 < 6 <= Z.max (4 + 1) (back (limits_ three_asks))
  /\ (forall i, 4 < i < 6 ->
        exists lv, limits_ three_asks !! Z.to_nat i = Some lv
                   /\ fst lv = None)
  /\ (4 < back (limits_ three_asks) ->
        exists lv, limits_ three_asks !! Z.to_nat 6 = Some lv
                   /\ (has_value (fst lv) = true
                       \/ 6 = back (limits_ three_asks))).
Proof.
  apply (best_ask_passes_empty_levels (limits_ three_asks) 4 6).
  vm_compute. reflexivity.
Defined.

(** X10. When a sell order has emptied a level, the loop that follows moves
    [best_bid_] from its level [a0] down to the next level that holds an
    order, or to the first level if there is none: every level it passes is
    empty.  From the first level it steps to -1, one before the ladder. *)
Theorem best_bid_passes_empty_levels (l : list limit_type) (a0 a' : Z) :
  advance_bid (Z.to_nat a0) l (a0 - 1) = Returns a' ->
  Z.min (a0 - 1) 0 <= a' < a0
  /\ (forall i, a' < i < a0 ->
        exists lv, l !! Z.to_nat i = Some lv /\ fst lv = None)
  /\ (0 < a0 ->
        exists lv, l !! Z.to_nat a' = Some lv
                   /\ (has_value (fst lv) = true \/ a' = 0))
  /\ (a0 = 0 -> a' = -1).
Proof.
  intros H.
  pose proof (ensures_returns _ _ _ _
                (advance_bid_passes (Z.to_nat a0) l (a0 - 1)) H)
    as (Hr & Hp & Hs).
  assert (Hle : Z.min (a0 - 1) 0 <= a').
  { destruct (Z_lt_le_dec a' 0) as [Hlt|]; [|lia].
    destruct (Z_lt_le_dec 0 a0) as [Hb|]; [|lia].
    destruct (Hp 0) as (Hne & _); lia. }
  split; [lia|]. split; [|split].
  - intros i Hi. destruct (Hp i) as (_ & Hlv); [lia|]. exact Hlv.
  - intros Hb. destruct Hs as (_ & Hlv); [lia|]. exact Hlv.
  - lia.
Qed.

Lemma best_bid_passes_empty_levels_witness :
  (Z.min (6 - 1) 0 <= 2 < 6
   /\ (forall i, 2 < i < 6 ->
         exists lv, limits_ one_bid !! Z.to_nat i = Some lv
                    /\ fst lv = None)
   /\ (0 < 6 ->
         exists lv, limits_ one_bid !! Z.to_nat 2 = Some lv
                    /\ (has_value (fst lv) = true \/ 2 = 0))
   /\ (6 = 0 -> 2 = -1))
  /\ (Z.min (0 - 1) 0 <= -1 < 0
      /\ (forall i, -1 < i < 0 ->
            exists lv, limits_ one_ask !! Z.to_nat i = Some lv
                       /\ fst lv = None)
      /\ (0 < 0 ->
            exists lv, limits_ one_ask !! Z.to_nat (-1) = Some lv
                       /\ (has_value (fst lv) = true \/ -1 = 0))
      /\ (0 = 0 -> -1 = -1)).
Proof.
  split.
  - apply (best_bid_passes_empty_levels (limits_ one_bid) 6 2).
    vm_compute. reflexivity.
  - apply (best_bid_passes_empty_levels (limits_ one_ask) 0 (-1)).
    vm_compute. reflexivity.
Defined.

(** ** The new book *)

(** X11. The book that the constructor builds, when its ladder has a level,
    is empty: no report, no block taken, no unit resting, every level
    without head and tail, [best_bid_] on the first and [best_ask_] on the
    last level, and neither [bid()] nor [ask()] has a value. *)
Theorem new_book_is_empty (max_orders_ : nat) (minimum maximum : quote)
  (b : book) :
  new_book max_orders_ minimum maximum = Some b ->
  0 < span minimum maximum ->
  reports b = []
  /\ pool_ b = replicate max_orders_ None
  /\ resting (pool_ b) = 0%N
  /\ limits_ b = replicate (Z.to_nat (span minimum maximum)) (None, None)
  /\ best_bid_ b = 0
  /\ best_ask_ b = span minimum maximum - 1
  /\ book_bid b = Returns None
  /\ book_ask b = Returns None.
Proof.
  unfold new_book. destruct (_ || _); [discriminate|].
  intros H Hs. inversion H; subst b; clear H.
  unfold book_bid, book_ask, bid, ask, level_at, back, block_pool.create.
  simpl. rewrite length_replicate.
  split; [reflexivity|]. split; [reflexivity|]. split.
  { induction max_orders_ as [|n IH]; simpl; [reflexivity|]. now rewrite IH. }
  split; [reflexivity|]. split; [reflexivity|]. split; [lia|].
  rewrite lookup_replicate_2 by lia. simpl.
  destruct (Z.leb_spec 0 (Z.of_nat (Z.to_nat (span minimum maximum)) - 1));
    [|lia].
  rewrite lookup_replicate_2 by lia. auto.
Qed.

Lemma new_book_is_empty_witness :
  reports empty_book = []
  /\ pool_ empty_book = replicate 4 None
  /\ resting (pool_ empty_book) = 0%N
  /\ limits_ empty_book
     = replicate (Z.to_nat (span (Quote 1 1) (Quote 10 1))) (None, None)
  /\ best_bid_ empty_book = 0
  /\ best_ask_ empty_book = span (Quote 1 1) (Quote 10 1) - 1
  /\ book_bid empty_book = Returns None
  /\ book_ask empty_book = Returns None.
Proof.
  apply (new_book_is_empty 4 (Quote 1 1) (Quote 10 1) empty_book).
  - vm_compute. reflexivity.
  - vm_compute. reflexivity.
Defined.

(** ** Cancelled orders *)

(** X12. [cancel] of an order that rests in a queue leaves a link to the
    freed block: the levels are as they were, so the queue of the order's
    level still leads to the block, and the queues of the book are no longer
    intact. *)
Theorem cancel_leaves_dangling_link (b b' : book) (qs : list (list index))
  (h : index) :
  intact b qs ->
  h ∈ concat qs ->
  cancel b h = Returns b' ->
  limits_ b' = limits_ b
  /\ pool_ b' !! h = Some None
  /\ forall qs', ~ intact b' qs'.
Proof.
  intros (Hq & _) Hin Hc. unfold cancel in Hc.
  destruct (block_pool.get (pool_ b) h) as [r|] eqn:Hg; [|discriminate].
  inversion Hc; subst b'; clear Hc. simpl.
  unfold block_pool.get in Hg.
  destruct (pool_ b !! h) as [x|] eqn:Hh; [|discriminate].
  simpl in Hg. subst x.
  split; [reflexivity|]. split.
  { unfold block_pool.erase. apply list_lookup_insert_eq.
    eapply lookup_lt_Some; eauto. }
  intros qs' (Hq' & _). simpl in Hq'.
  apply list_elem_of_In, in_concat in Hin as (q & Hqin & Hhq).
  apply list_elem_of_In, list_elem_of_lookup in Hqin as (i & Hi).
  apply list_elem_of_In in Hhq.
  destruct (Forall2_lookup_r _ _ _ _ _ Hq Hi) as (lv & Hlv & Hc & _).
  destruct (Forall2_lookup_l _ _ _ _ _ Hq' Hlv) as (q' & _ & Hc' & _).
  exact (chain_freed _ _ _ _ _ Hc Hhq Hc').
Qed.

Lemma cancel_leaves_dangling_link_witness :
  exists b',
    cancel two_asks 1%nat = Returns b'
    /\ limits_ b' = limits_ two_asks
    /\ pool_ b' !! 1%nat = Some None
    /\ forall qs', ~ intact b' qs'.
Proof.
  eexists. split; [reflexivity|].
  apply (cancel_leaves_dangling_link two_asks _
           [[]; []; []; []; [0; 1]%nat; []; []; []; []; []] 1%nat).
  - apply queues_of_intact. vm_compute. reflexivity.
  - apply list_elem_of_In. simpl. auto.
  - reflexivity.
Defined.

(** ** Placed orders *)

(** X13. The identifier of a placement report is the handle of the order:
    when [insert] returns with a placement as its last report, the
    identifier is the index of a block that was free before the call and
    now holds the reported quantity for the owner of the order, and
    [cancel] of that identifier returns with a cancel report for that
    quantity and owner and frees the block. *)
Theorem placed_order_can_be_cancelled (encode : quote -> option Z)
  (decode : Z -> quote) (b b' : book) (order : limit_order_message.t)
  (r : execution_report.t) :
  insert encode decode b order = Returns b' ->
  last (reports b') = Some r ->
  execution_report.state r = execution_report.placement ->
  exists (h : index) (b'' : book),
    r = order_report execution_report.placement order
          (execution_report.quantity r) (Z.of_nat h)
    /\ execution_report.quantity r <> 0%N
    /\ pool_ b !! h = Some None
    /\ quantity_at (pool_ b') h = Some (execution_report.quantity r)
    /\ cancel b' h = Returns b''
    /\ reports b'' =
         reports b' ++
         [ {| execution_report.state := execution_report.cancel;
              execution_report.quantity := execution_report.quantity r;
              execution_report.identifier := Z.of_nat h;
              execution_report.side := None;
              execution_report.limit := None;
              execution_report.owner := limit_order_message.owner order |} ]
    /\ pool_ b'' !! h = Some None.
Proof.
  intros H Hlast Hstate. apply insert_returns in H.
  destruct (accounted_placement _ _ _ _ _ _ H Hlast Hstate)
    as (idx & fs & b1 & r1 & h & Hent & Hr & Hrest & ->).
  destruct Hent as (_ & _ & _ & _ & Hx & _).
  destruct Hx as (_ & _ & _ & P & _).
  destruct Hrest as (Hf & _ & (rh & Hh & Hq & Ho) & _).
  rewrite (pool_shrinks_first_free _ _ P) in Hf.
  exists h. eexists. simpl.
  split; [reflexivity|]. split; [exact Hr|].
  split; [now apply first_free_lookup|].
  split; [unfold quantity_at; rewrite Hh; congruence|].
  unfold cancel, block_pool.get. rewrite Hh. simpl.
  split; [reflexivity|]. simpl. rewrite Hq, Ho.
  split; [reflexivity|].
  unfold block_pool.erase. apply list_lookup_insert_eq.
  eapply lookup_lt_Some; eauto.
Qed.

Lemma placed_order_can_be_cancelled_witness :
  exists (h : index) (b'' : book),
    order_report execution_report.placement
      (order_at sell 5 20 limit_order_message.good_until_cancelled 2%N) 20 1
    = order_report execution_report.placement
        (order_at sell 5 20 limit_order_message.good_until_cancelled 2%N)
        20 (Z.of_nat h)
    /\ 20%N <> 0%N
    /\ pool_ one_ask !! h = Some None
    /\ quantity_at (pool_ two_asks) h = Some 20%N
    /\ cancel two_asks h = Returns b''
    /\ reports b'' =
         reports two_asks ++
         [ {| execution_report.state := execution_report.cancel;
              execution_report.quantity := 20%N;
              execution_report.identifier := Z.of_nat h;
              execution_report.side := None;
              execution_report.limit := None;
              execution_report.owner := 2%N |} ]
    /\ pool_ b'' !! h = Some None.
Proof.
  apply (placed_order_can_be_cancelled (book_encode one_ask)
           (book_decode one_ask) one_ask two_asks
           (order_at sell 5 20 limit_order_message.good_until_cancelled 2%N)
           (order_report execution_report.placement
              (order_at sell 5 20 limit_order_message.good_until_cancelled
                 2%N) 20 1)).
  - vm_compute. reflexivity.
  - vm_compute. reflexivity.
  - reflexivity.
Defined.

(** X14. A placed order is quoted when it is the best of its side: after
    [insert] has returned with a placement as its last report, for a buy
    order with a limit tick at or above [best_bid_] the result of [bid()]
    is the quote decoded from that tick, and for a sell order with a limit
    tick at or below [best_ask_] the result of [ask()] is. *)
Theorem placed_order_is_quoted (encode : quote -> option Z)
  (decode : Z -> quote) (b b' : book) (order : limit_order_message.t)
  (r : execution_report.t) (limit_index_ : Z) :
  insert encode decode b order = Returns b' ->
  last (reports b') = Some r ->
  execution_report.state r = execution_report.placement ->
  encode (limit_order_message.limit order) = Some limit_index_ ->
  match limit_order_message.side order with
  | limit_order_message.buy => best_bid_ b <= limit_index_
  | limit_order_message.sell => limit_index_ <= best_ask_ b
  end ->
  match limit_order_message.side order with
  | limit_order_message.buy =>
      bid decode b' = Returns (Some (decode limit_index_))
  | limit_order_message.sell =>
      ask decode b' = Returns (Some (decode limit_index_))
  end.
Proof.
  intros H Hlast Hstate He Hbest. apply insert_returns in H.
  destruct (accounted_placement _ _ _ _ _ _ H Hlast Hstate)
    as (idx & fs & b1 & r1 & h & Hent & Hr & Hrest & _).
  destruct Hent as (_ & _ & He' & Hidx & Hx & _).
  rewrite He in He'. inversion He'; subst idx; clear He'.
  destruct Hx as (_ & _ & _ & _ & N & _ & _ & C).
  destruct Hrest as (_ & _ & _ & _ & _ & _ & H0
                     & (lv & head & Hlv & Hhead & Hlim) & _ & _ & Hcur & _).
  assert (Hlookup : limits_ b' !! Z.to_nat limit_index_
                    = Some (head, Some h)).
  { rewrite Hlim. apply list_lookup_insert_eq.
    eapply lookup_lt_Some; eauto. }
  assert (Hv : has_value head = true).
  { subst head. destruct (has_value (fst lv)) eqn:E; [exact E|reflexivity]. }
  destruct (limit_order_message.side order).
  - unfold bid, level_at.
    replace (best_bid_ b') with limit_index_ by lia.
    destruct (Z.leb_spec 0 limit_index_); [|lia].
    rewrite Hlookup. simpl. now rewrite Hv.
  - unfold ask, level_at.
    replace (best_ask_ b') with limit_index_ by lia.
    destruct (Z.leb_spec 0 limit_index_); [|lia].
    rewrite Hlookup. simpl. now rewrite Hv.
Qed.

Lemma placed_order_is_quoted_witness :
  ask (book_decode empty_book) one_ask
  = Returns (Some (book_decode empty_book 4)).
Proof.
  apply (placed_order_is_quoted (book_encode empty_book)
           (book_decode empty_book) empty_book one_ask
           (order_at sell 5 10 limit_order_message.good_until_cancelled 1%N)
           (order_report execution_report.placement
              (order_at sell 5 10 limit_order_message.good_until_cancelled
                 1%N) 10 0) 4).
  - vm_compute. reflexivity.
  - vm_compute. reflexivity.
  - reflexivity.
  - vm_compute. reflexivity.
  - vm_compute. discriminate.
Defined.

(** ** A block that is its own successor *)

(** The book [lone_ask_replaced] is what [cancel] and [insert] return, and
    in it block 0, the head of level 4, is its own successor: [cancel] left
    the level pointing to the freed block, and the placement linked the new
    block behind the tail of the level, itself. *)
Example cancel_then_insert_links_block_to_itself :
  (do b1 <- cancel lone_ask 0%nat; book_insert b1 late_ask)
  = Returns lone_ask_replaced
  /\ limits_ lone_ask_replaced !! 4%nat = Some (Some 0%nat, Some 0%nat)
  /\ pool_ lone_ask_replaced !! 0%nat
     = Some (Some {| quantity := 10; owner := 5%N;
                     successor := Some 0%nat |})
  /\ book_insert lone_ask_replaced sweeping_buy = Undefined endless_loop.
Proof. vm_compute. auto. Qed.

(** X15. On a block that is its own successor the loop of [match_at_level]
    never ends when the order asks for more than the block holds: whatever
    the number of passes allowed, the run has not returned after them. *)
Theorem match_loop_never_ends_on_self_link (decode : Z -> quote)
  (order : limit_order_message.t) (level : Z) (lv : limit_type) (h : index)
  (r : record) (remainder_ : N) (b : book) (fuel : nat) :
  0 <= level ->
  limits_ b !! Z.to_nat level = Some lv ->
  pool_ b !! h = Some (Some r) ->
  successor r = Some h ->
  (quantity r < remainder_)%N ->
  match_loop decode fuel order level (Some h) remainder_ b
  = Undefined endless_loop.
Proof.
  intros H0 Hlv Hh Hs Hq.
  revert lv r remainder_ b Hlv Hh Hs Hq.
  assert (Hpass : forall next lv r remainder_ b,
    limits_ b !! Z.to_nat level = Some lv ->
    pool_ b !! h = Some (Some r) ->
    successor r = Some h ->
    (quantity r < remainder_)%N ->
    (forall lv' r' remainder' b',
       limits_ b' !! Z.to_nat level = Some lv' ->
       pool_ b' !! h = Some (Some r') ->
       successor r' = Some h ->
       (quantity r' < remainder')%N ->
       next (Some h) remainder' b' = Undefined endless_loop) ->
    match_pass decode next order level (Some h) remainder_ b
    = Undefined endless_loop).
  { intros next lv r remainder_ b Hlv Hh Hs Hq Hnext. unfold match_pass.
    destruct (N.eqb_spec remainder_ 0) as [|_]; [lia|].
    unfold block_at, block_pool.get. rewrite Hh. simpl.
    unfold level_at. destruct (Z.leb_spec 0 level); [|lia].
    rewrite Hlv. simpl.
    destruct (N.ltb_spec remainder_ (quantity r)) as [|_]; [lia|].
    simpl. rewrite Hs.
    eapply Hnext; simpl.
    - apply list_lookup_insert_eq. eapply lookup_lt_Some; eauto.
    - apply list_lookup_insert_eq. eapply lookup_lt_Some; eauto.
    - reflexivity.
    - simpl. lia. }
  induction fuel as [|fuel IH]; intros lv r remainder_ b Hlv Hh Hs Hq;
    simpl; eapply Hpass; eauto.
Qed.

Lemma match_loop_never_ends_on_self_link_witness :
  match_loop (book_decode lone_ask_replaced) 1000 sweeping_buy 4
    (Some 0%nat) 20 lone_ask_replaced
  = Undefined endless_loop.
Proof.
  apply (match_loop_never_ends_on_self_link (book_decode lone_ask_replaced)
           sweeping_buy 4 (Some 0%nat, Some 0%nat) 0%nat
           {| quantity := 10; owner := 5%N; successor := Some 0%nat |}
           20 lone_ask_replaced 1000).
  - lia.
  - reflexivity.
  - reflexivity.
  - reflexivity.
  - simpl. lia.
Defined.

(** ** Matching at one level *)

(** X16. [match_at_level] returns what is left of the order: the sizes of
    its executions, which are all at its level, and what it returns add up
    to the remainder it was given.  It ends with the order used up or with
    the level reset to no head and no tail, and it changes no other
    level. *)
Theorem match_at_level_uses_order_or_level (decode : Z -> quote)
  (order : limit_order_message.t) (remainder_ remainder' : N) (level : Z)
  (b b' : book) :
  match_at_level decode order remainder_ level b
  = Returns (b', remainder') ->
  (exists fs : list fill,
     reports b' = reports b ++ fills_reports decode order fs
     /\ Forall (fun f => fill_level f = level) fs
     /\ (remainder' + total fs = remainder_)%N)
  /\ (remainder' = 0%N
      \/ limits_ b' !! Z.to_nat level = Some (None, None))
  /\ (forall i, i <> Z.to_nat level -> limits_ b' !! i = limits_ b !! i).
Proof.
  intros H.
  pose proof (ensures_returns _ _ _ _
                (match_at_level_executed decode order remainder_ level b) H)
    as (fs & (R & T & _) & L).
  pose proof (ensures_returns _ _ _ _
                (match_at_level_sweeps decode order remainder_ level b) H)
    as (Hfr & Hd).
  simpl in *. split; [exists fs; auto|]. auto.
Qed.

Lemma match_at_level_uses_order_or_level_witness :
  (exists fs : list fill,
     reports two_asks_crossed =
       reports two_asks ++ fills_reports (book_decode two_asks)
                             crossing_buy fs
     /\ Forall (fun f => fill_level f = 4) fs
     /\ (0 + total fs = 15)%N)
  /\ (0%N = 0%N
      \/ limits_ two_asks_crossed !! Z.to_nat 4 = Some (None, None))
  /\ (forall i, i <> Z.to_nat 4 ->
                limits_ two_asks_crossed !! i = limits_ two_asks !! i).
Proof.
  apply (match_at_level_uses_order_or_level (book_decode two_asks)
           crossing_buy 15 0 4 two_asks two_asks_crossed).
  vm_compute. reflexivity.
Defined.

(** ** The levels behind a resting aggressor *)

(** X17. What is left of an aggressor rests behind empty levels.  When
    [insert] has taken the order as an aggressor and returns with a
    placement as its last report, every level between the cursor of the
    other side, as it was before the call, and the tick of the limit is
    empty; and if the cursor was within the limit, the level of the limit
    holds the placed order alone. *)
Theorem aggressor_rests_behind_empty_levels (encode : quote -> option Z)
  (decode : Z -> quote) (b b' : book) (order : limit_order_message.t)
  (r : execution_report.t) (limit_index_ : Z) :
  insert encode decode b order = Returns b' ->
  last (reports b') = Some r ->
  execution_report.state r = execution_report.placement ->
  encode (limit_order_message.limit order) = Some limit_index_ ->
  match limit_order_message.side order with
  | limit_order_message.buy =>
      exists best, ask decode b = Returns (Some best)
                   /\ quote_geb (limit_order_message.limit order) best = true
  | limit_order_message.sell =>
      exists best, bid decode b = Returns (Some best)
  end ->
  match limit_order_message.side order with
  | limit_order_message.buy =>
      (forall j, best_ask_ b <= j < limit_index_ -> vacant (limits_ b') j)
      /\ (best_ask_ b <= limit_index_ ->
          exists h, execution_report.identifier r = Z.of_nat h
                    /\ limits_ b' !! Z.to_nat limit_index_
                       = Some (Some h, Some h))
  | limit_order_message.sell =>
      (forall j, limit_index_ < j <= best_bid_ b -> vacant (limits_ b') j)
      /\ (limit_index_ <= best_bid_ b ->
          exists h, execution_report.identifier r = Z.of_nat h
                    /\ limits_ b' !! Z.to_nat limit_index_
                       = Some (Some h, Some h))
  end.
Proof.
  intros H Hlast Hstate He Heng. apply insert_returns in H.
  destruct (accounted_placement _ _ _ _ _ _ H Hlast Hstate)
    as (idx & fs & b1 & r1 & h & Hent & Hr & Hrest & ->).
  destruct Hent as (_ & _ & He' & Hidx & Hx & _ & Hsw).
  rewrite He in He'. inversion He'; subst idx; clear He'.
  specialize (Hsw Heng Hr).
  destruct Hx as (_ & _ & _ & _ & N & _).
  destruct Hrest as (_ & _ & _ & _ & _ & _ & H0
                     & (lv & head & Hlv & Hhead & Hlim) & _).
  assert (Hother : forall j, 0 <= j -> j <> limit_index_ ->
                             vacant (limits_ b1) j -> vacant (limits_ b') j).
  { intros j Hj Hne (lv' & Hlv' & Hv). exists lv'. split; [|exact Hv].
    rewrite Hlim. rewrite list_lookup_insert_ne by lia. exact Hlv'. }
  assert (Hat : vacant (limits_ b1) limit_index_ ->
                exists h', Z.of_nat h = Z.of_nat h'
                           /\ limits_ b' !! Z.to_nat limit_index_
                              = Some (Some h', Some h')).
  { intros (lv' & Hlv' & Hv). rewrite Hlv in Hlv'. inversion Hlv'; subst lv'.
    rewrite Hv in Hhead. simpl in Hhead. subst head.
    exists h. split; [reflexivity|]. rewrite Hlim.
    apply list_lookup_insert_eq. eapply lookup_lt_Some; eauto. }
  unfold swept in Hsw.
  destruct (limit_order_message.side order); simpl.
  - destruct Heng as (best & Hask & _).
    pose proof (ensures_returns _ _ (fun _ => False) _
                  (ask_ensures decode b _) Hask) as (lv0 & Ha0 & _).
    split.
    + intros j Hj. apply Hother; [lia|lia|]. apply Hsw. lia.
    + intros Hle. apply Hat. apply Hsw. lia.
  - split.
    + intros j Hj. apply Hother; [lia|lia|]. apply Hsw. lia.
    + intros Hle. apply Hat. apply Hsw. lia.
Qed.

Lemma aggressor_rests_behind_empty_levels_witness :
  (forall j, best_ask_ one_ask <= j < 6 ->
             vacant (limits_ one_ask_crossed) j)
  /\ (best_ask_ one_ask <= 6 ->
      exists h,
        execution_report.identifier
          (order_report execution_report.placement high_buy 5 1)
        = Z.of_nat h
        /\ limits_ one_ask_crossed !! Z.to_nat 6 = Some (Some h, Some h)).
Proof.
  apply (aggressor_rests_behind_empty_levels (book_encode one_ask)
           (book_decode one_ask) one_ask one_ask_crossed high_buy
           (order_report execution_report.placement high_buy 5 1) 6).
  - vm_compute. reflexivity.
  - vm_compute. reflexivity.
  - reflexivity.
  - vm_compute. reflexivity.
  - exists (Quote 5 1). split; vm_compute; reflexivity.
Defined.

(** ** Memory faults *)

(** X18. On a book with intact queues, with the cursor of the other side
    on a level of the ladder, [insert] reads through no null pointer, reads
    or writes no freed block and no level outside the ladder, and its loops
    end: the call returns, or leaves by the exception of the pool, or fails
    its assertion on the tick. *)
Theorem insert_is_safe_on_intact_queues (encode : quote -> option Z)
  (decode : Z -> quote) (b : book) (qs : list (list index))
  (order : limit_order_message.t) :
  intact b qs ->
  match limit_order_message.side order with
  | limit_order_message.buy =>
      0 <= best_ask_ b < Z.of_nat (length (limits_ b))
  | limit_order_message.sell =>
      0 <= best_bid_ b < Z.of_nat (length (limits_ b))
  end ->
  (exists b', insert encode decode b order = Returns b')
  \/ (exists b', insert encode decode b order = Throws b')
  \/ insert encode decode b order = Undefined assertion_failed.
Proof.
  intros Hi Hcur.
  assert (Hs : safe (insert encode decode b order)).
  { unfold insert.
    destruct (negb _ || _); [exact I|].
    destruct (encode _) as [limit_index_|]; [|reflexivity].
    destruct (Z.leb_spec 0 limit_index_) as [H0|]; simpl; [|reflexivity].
    destruct (Z.ltb_spec limit_index_ (Z.of_nat (length (limits_ b))))
      as [Hn|]; simpl; [|reflexivity].
    assert (Hun : safe
              (if is_immediate_or_cancel
                    (limit_order_message.lifetime order)
                  || is_fill_or_kill (limit_order_message.lifetime order)
               then Returns
                      (emplace_back b
                         (order_report execution_report.cancel order
                            (limit_order_message.quantity order)
                            no_identifier))
               else place order limit_index_
                      (limit_order_message.quantity order) b)).
    { destruct (_ || _); [exact I|]. eapply place_safe; eauto. }
    assert (Hplace : forall b1 r1,
              (exists qs1, intact b1 qs1) ->
              length (limits_ b1) = length (limits_ b) ->
              safe (place order limit_index_ r1 b1)).
    { intros b1 r1 (qs1 & Hi1) N1. eapply place_safe; [exact Hi1|].
      rewrite N1. lia. }
    destruct (limit_order_message.side order) eqn:Hside.
    - unfold ask.
      destruct (level_at_returns (limits_ b) (best_ask_ b) Hcur)
        as (lv & -> & Hlv).
      simpl. destruct (has_value (fst lv)); simpl; [|exact Hun].
      destruct (quote_geb _ _); [|exact Hun].
      apply safe_bind.
      + eapply buyer_aggressor_safe; [exact Hi|lia|lia|].
        unfold movable. rewrite Hside. lia.
      + intros [b1 r1] H1. apply Hplace.
        * pose proof (ensures_returns _ _ _ _
                        (buyer_aggressor_matching decode order _ _ _ _ _ _ _
                           _ (matching_start decode order b qs
                                (limit_order_message.quantity order) Hi))
                        H1) as (qs2 & fs2 & (Hi2 & _)).
          eauto.
        * pose proof (ensures_returns _ _ _ _
                        (buyer_aggressor_executed decode order _ _ _ _) H1)
            as (fs & (_ & _ & _ & _ & N & _) & _).
          exact N.
    - unfold bid.
      destruct (level_at_returns (limits_ b) (best_bid_ b) Hcur)
        as (lv & -> & Hlv).
      simpl. destruct (has_value (fst lv)); simpl; [|exact Hun].
      apply safe_bind.
      + eapply seller_aggressor_safe; [exact Hi|lia|lia|].
        unfold movable. rewrite Hside. lia.
      + intros [b1 r1] H1. apply Hplace.
        * pose proof (ensures_returns _ _ _ _
                        (seller_aggressor_matching decode order _ _ _ _ _ _ _
                           _ (matching_start decode order b qs
                                (limit_order_message.quantity order) Hi))
                        H1) as (qs2 & fs2 & (Hi2 & _)).
          eauto.
        * pose proof (ensures_returns _ _ _ _
                        (seller_aggressor_executed decode order _ _ _ _) H1)
            as (fs & (_ & _ & _ & _ & N & _) & _).
          exact N. }
  destruct (insert encode decode b order) as [b'|b'|f]; simpl in Hs;
    [eauto|eauto|subst f; auto].
Qed.

Lemma insert_is_safe_on_intact_queues_witness :
  (exists b', book_insert two_asks crossing_buy = Returns b')
  \/ (exists b', book_insert two_asks crossing_buy = Throws b')
  \/ book_insert two_asks crossing_buy = Undefined assertion_failed.
Proof.
  apply (insert_is_safe_on_intact_queues (book_encode two_asks)
           (book_decode two_asks) two_asks
           [[]; []; []; []; [0; 1]%nat; []; []; []; []; []] crossing_buy).
  - apply queues_of_intact. vm_compute. reflexivity.
  - simpl. lia.
Defined.

(** ** Sequences of calls *)

(** X19. The units are conserved through every sequence of calls of
    [insert] and [cancel] that return: the units that rest in the pool and
    the units of the reports that are no placements (one report for each
    side of an execution, the cancel and the invalid reports) grow together
    by the quantities of the orders submitted. *)
Theorem units_are_conserved (b b' : book) (ops : list operation) :
  calls b ops = Returns b' ->
  (resting (pool_ b') + unplaced (reports b')
   = resting (pool_ b) + unplaced (reports b) + submitted ops)%N.
Proof.
  revert b'. induction ops as [|op ops IH] using rev_ind; intros b' H.
  - unfold calls in H. simpl in H. inversion H; subst. simpl. lia.
  - rewrite calls_snoc in H.
    destruct (calls b ops) as [b1|b1|f]; simpl in H; try discriminate.
    specialize (IH b1 eq_refl).
    pose proof (call_conserves _ _ _ H) as Hc. simpl in Hc.
    rewrite submitted_app. simpl. lia.
Qed.

Lemma units_are_conserved_witness :
  (resting (pool_ two_asks_crossed) + unplaced (reports two_asks_crossed)
   = resting (pool_ empty_book) + unplaced (reports empty_book)
     + submitted
         [ Insert (order_at sell 5 10
                     limit_order_message.good_until_cancelled 1%N);
           Insert (order_at sell 5 20
                     limit_order_message.good_until_cancelled 2%N);
           Insert crossing_buy ])%N.
Proof.
  apply (units_are_conserved empty_book two_asks_crossed).
  vm_compute. reflexivity.
Defined.

(** X20. Through every sequence of calls of [insert] and [cancel] the
    ladder keeps its length, [best_ask_] stays at or above the first level
    and [best_bid_] at or below the last one: a cursor leaves the ladder
    only on the side of its own orders. *)
Theorem cursors_stay_on_their_side (b b' : book) (ops : list operation) :
  calls b ops = Returns b' ->
  0 <= best_ask_ b ->
  best_bid_ b < Z.of_nat (length (limits_ b)) ->
  length (limits_ b') = length (limits_ b)
  /\ 0 <= best_ask_ b'
  /\ best_bid_ b' < Z.of_nat (length (limits_ b')).
Proof.
  intros H Ha Hb. revert b' H.
  induction ops as [|op ops IH] using rev_ind; intros b' H.
  - unfold calls in H. simpl in H. inversion H; subst. auto.
  - rewrite calls_snoc in H.
    destruct (calls b ops) as [b1|b1|f]; simpl in H; try discriminate.
    destruct (IH b1 eq_refl) as (N1 & A1 & B1).
    destruct (call_bounds b1 b' op) as (N2 & A2 & B2);
      [rewrite H; reflexivity|].
    split; [congruence|]. split; [auto|]. rewrite N2. auto.
Qed.

Lemma cursors_stay_on_their_side_witness :
  length (limits_ two_asks_crossed) = length (limits_ empty_book)
  /\ 0 <= best_ask_ two_asks_crossed
  /\ best_bid_ two_asks_crossed
     < Z.of_nat (length (limits_ two_asks_crossed)).
Proof.
  apply (cursors_stay_on_their_side empty_book two_asks_crossed
           [ Insert (order_at sell 5 10
                       limit_order_message.good_until_cancelled 1%N);
             Insert (order_at sell 5 20
                       limit_order_message.good_until_cancelled 2%N);
             Insert crossing_buy ]).
  - vm_compute. reflexivity.
  - vm_compute. discriminate.
  - vm_compute. reflexivity.
Defined.

(** X21. Only [cancel] gives a block back to the pool.  Through every
    sequence of calls of [insert] and [cancel] that return, the free blocks
    of the pool fall by one for each placement report and rise by one for
    each call of [cancel]: a block whose order the executions have used up
    stays taken. *)
Theorem blocks_are_given_back_by_cancel_only (b b' : book)
  (ops : list operation) :
  calls b ops = Returns b' ->
  (free_blocks (pool_ b') + placements (reports b')
   = free_blocks (pool_ b) + placements (reports b) + cancelled ops)%nat.
Proof.
  revert b'. induction ops as [|op ops IH] using rev_ind; intros b' H.
  - unfold calls in H. simpl in H. inversion H; subst. simpl. lia.
  - rewrite calls_snoc in H.
    destruct (calls b ops) as [b1|b1|f]; simpl in H; try discriminate.
    specialize (IH b1 eq_refl).
    pose proof (call_blocks _ _ _ H) as Hc. simpl in Hc.
    rewrite cancelled_app. simpl. lia.
Qed.

Lemma blocks_are_given_back_by_cancel_only_witness :
  (free_blocks (pool_ two_asks_crossed)
   + placements (reports two_asks_crossed)
   = free_blocks (pool_ empty_book) + placements (reports empty_book)
     + cancelled
         [ Insert (order_at sell 5 10
                     limit_order_message.good_until_cancelled 1%N);
           Insert (order_at sell 5 20
                     limit_order_message.good_until_cancelled 2%N);
           Insert crossing_buy ])%nat.
Proof.
  apply (blocks_are_given_back_by_cancel_only empty_book two_asks_crossed).
  vm_compute. reflexivity.
Defined.
